(** * SparseMatrix: a shallow embedding of [sparse_matrix.py]

    The definitions come first, the class in the order of the source file
    and then the program around it; the properties follow.

    - Python [int] is [Z] (unbounded); the interpreter's optional cap on the
      number of digits of a decimal conversion is not part of the model.
    - Python [str] is a list of code points below 256 ([ascii]); text files
      are their decoded contents.
    - Python [dict] is an insertion-ordered association list with unique
      keys, which is what [.items()], [.copy()] and item assignment observe.
    - Exceptions are an inductive type; fallible code lives in the [result]
      monad, and [try]/[except] is a combinator on it.
    - Object identity (needed for the frame properties of the arithmetic
      methods) is modelled in [Module Obj] by a store of objects, on top of
      the value-level functions defined first.
    - The constructor and [main] run on a world of files, standard output
      and the lines of the standard input; the line separator of the
      platform and the paths that can be opened for writing are
      parameters. *)

From Stdlib Require Import ZArith Lia List Ascii String.
From stdpp Require Import base tactics option list list_numbers sorting gmap.

Local Open Scope Z_scope.
#[local] Set Warnings "-clear-no-such-hyp".

(** ** Exceptions and the [result] monad *)

Abbreviation str := (list ascii).

Definition txt (s : string) : str := list_ascii_of_string s.
Arguments txt _%_string.

(** The exceptions the module can raise.  [ValueError msg] is an explicit
    [raise ValueError(msg)] of the source; [InvalidLiteral] and
    [UnpackError] are the [ValueError]s raised by [int()] and by tuple
    unpacking; [IndexError] is a list index out of range; [AttributeError]
    is an attribute read on an object that lacks it; [ReadingError e]
    is the [ValueError(f"An error occurred while reading the file: {e}")]
    that wraps whatever [load_matrix] caught. *)
Inductive exception :=
  | ValueError (msg : string)
  | InvalidLiteral (s : str)
  | UnpackError
  | IndexError
  | AttributeError
  | ReadingError (e : exception).

(** [except ValueError] catches every exception of class [ValueError]. *)
Definition is_ValueError (e : exception) : bool :=
  match e with
  | IndexError | AttributeError => false
  | _ => true
  end.

(** [except Exception] catches everything the model can raise. *)
Definition is_Exception (e : exception) : bool := true.

Inductive result (A : Type) :=
  | Ok (a : A)
  | Raise (e : exception).
Arguments Ok {A} a.
Arguments Raise {A} e.

Global Instance result_ret : MRet result := λ A a, Ok a.
Global Instance result_bind : MBind result := λ A B f m,
  match m with
  | Ok a => f a
  | Raise e => Raise e
  end.

Definition try_except {A} (body : result A) (catches : exception → bool)
    (handler : exception → result A) : result A :=
  match body with
  | Ok a => Ok a
  | Raise e => if catches e then handler e else Raise e
  end.

(** [for x in xs: acc = body(acc, x)], where the body may raise. *)
Fixpoint for_each {A S} (xs : list A) (body : S → A → result S) (acc : S)
    : result S :=
  match xs with
  | [] => Ok acc
  | x :: xs' => acc' ← body acc x; for_each xs' body acc'
  end.

(** ** Python strings *)

Definition ord (c : ascii) : Z := Z.of_N (N_of_ascii c).

Definition LF : ascii := "010"%char.
Definition CR : ascii := "013"%char.

(** [str.isspace] on one code point below 256. *)
Definition isspace (c : ascii) : bool :=
  let n := ord c in
  (9 <=? n) && (n <=? 13) || (28 <=? n) && (n <=? 32)
  || (n =? 133) || (n =? 160).

Fixpoint drop_while {A} (p : A → bool) (l : list A) : list A :=
  match l with
  | [] => []
  | x :: l' => if p x then drop_while p l' else l
  end.

Definition lstrip (s : str) : str := drop_while isspace s.
Definition rstrip (s : str) : str := rev (drop_while isspace (rev s)).
Definition strip (s : str) : str := lstrip (rstrip s).

(** [s.split(sep)] for a one-character separator. *)
Fixpoint split (sep : ascii) (s : str) : list str :=
  match s with
  | [] => [[]]
  | c :: s' =>
      if Ascii.eqb c sep then [] :: split sep s'
      else match split sep s' with
           | f :: fs => (c :: f) :: fs
           | [] => [[c]]
           end
  end.

Definition startswith (c : ascii) (s : str) : bool :=
  match s with
  | c' :: _ => Ascii.eqb c' c
  | [] => false
  end.

Definition endswith (c : ascii) (s : str) : bool := startswith c (rev s).

(** [s[1:-1]] *)
Definition slice_1_m1 (s : str) : str := removelast (tail s).

(** [l[i]] on a list, raising [IndexError] out of range. *)
Definition index {A} (l : list A) (i : nat) : result A :=
  match l !! i with
  | Some x => Ok x
  | None => Raise IndexError
  end.

(** Text-mode reading translates ["\r\n"] and a lone ["\r"] to ["\n"]. *)
Fixpoint translate_newlines (prev_cr : bool) (s : str) : str :=
  match s with
  | [] => []
  | c :: s' =>
      if Ascii.eqb c CR then LF :: translate_newlines true s'
      else if Ascii.eqb c LF then
        if prev_cr then translate_newlines false s'
        else LF :: translate_newlines false s'
      else c :: translate_newlines false s'
  end.

(** Lines of a text, each keeping its terminating newline. *)
Fixpoint lines_keepends (s : str) : list str :=
  match s with
  | [] => []
  | c :: s' =>
      if Ascii.eqb c LF then [c] :: lines_keepends s'
      else match lines_keepends s' with
           | l :: ls => (c :: l) :: ls
           | [] => [[c]]
           end
  end.

(** [file.readlines()] on a file opened with [open(path, 'r')]. *)
Definition readlines (content : str) : list str :=
  lines_keepends (translate_newlines false content).

(** ** Python integers as text *)

Definition is_digit (c : ascii) : bool := (48 <=? ord c) && (ord c <=? 57).
Definition digit_value (c : ascii) : Z := ord c - 48.
Definition digit_char (d : Z) : ascii := ascii_of_N (Z.to_N (d + 48)).

(** The characters [int()] skips around a literal: the ASCII white space,
    and the two white-space code points of the range 128..255. *)
Definition int_isspace (c : ascii) : bool :=
  let n := ord c in
  (9 <=? n) && (n <=? 13) || (n =? 32) || (n =? 133) || (n =? 160).

(** The digits of a literal, scanned left to right: decimal digits, single
    underscores between digits, then white space up to the end. *)
Fixpoint int_digits (acc : Z) (prev_digit : bool) (s : str) : option Z :=
  match s with
  | [] => if prev_digit then Some acc else None
  | c :: s' =>
      if is_digit c then int_digits (10 * acc + digit_value c) true s'
      else if Ascii.eqb c "_" then
        if prev_digit then int_digits acc false s' else None
      else if int_isspace c then
        if prev_digit && forallb int_isspace s' then Some acc else None
      else None
  end.

(** [int(s)] for a string argument, base 10. *)
Definition int (s : str) : result Z :=
  let s1 := drop_while int_isspace s in
  let '(negative, s2) :=
    match s1 with
    | c :: r =>
        if Ascii.eqb c "-" then (true, r)
        else if Ascii.eqb c "+" then (false, r)
        else (false, s1)
    | [] => (false, s1)
    end in
  match int_digits 0 false s2 with
  | Some n => Ok (if negative then - n else n)
  | None => Raise (InvalidLiteral s)
  end.

(** Decimal digits of a non-negative number, most significant first. *)
Fixpoint digits_of (fuel : nat) (n : Z) (acc : str) : str :=
  match fuel with
  | O => acc
  | S fuel' =>
      let acc' := digit_char (n mod 10) :: acc in
      if n <? 10 then acc' else digits_of fuel' (n / 10) acc'
  end.

(** [str(n)], which is also what [f"{n}"] produces for an [int]. *)
Definition str_of_int (n : Z) : str :=
  if n <? 0 then "-"%char :: digits_of (S (Z.to_nat (Z.log2 (- n)))) (- n) []
  else digits_of (S (Z.to_nat (Z.log2 n))) n [].

(** ** Python dictionaries keyed by [(row, col)] *)

Abbreviation key := (Z * Z)%type.

(** Entries in insertion order. *)
Abbreviation dict := (list (key * Z)).

(** [d.get(k)]: [None] is the absence of the key. *)
Fixpoint dict_lookup (d : dict) (k : key) : option Z :=
  match d with
  | [] => None
  | (k', v) :: d' => if decide (k' = k) then Some v else dict_lookup d' k
  end.

(** [d[k] = v]: an existing key keeps its position, a new key goes last. *)
Fixpoint dict_setitem (d : dict) (k : key) (v : Z) : dict :=
  match d with
  | [] => [(k, v)]
  | (k', v') :: d' =>
      if decide (k' = k) then (k, v) :: d' else (k', v') :: dict_setitem d' k v
  end.

(** [d.get(k, dflt)] *)
Definition dict_get (d : dict) (k : key) (dflt : Z) : Z :=
  default dflt (dict_lookup d k).

(** The representation invariant of a dictionary: keys are unique. *)
Definition dict_wf (d : dict) : Prop := NoDup d.*1.

(** [d1 == d2] on dictionaries: same keys, same values, in any order. *)
Definition dict_eq (d1 d2 : dict) : Prop :=
  ∀ k, dict_lookup d1 k = dict_lookup d2 k.

(** ** class SparseMatrix *)

Record SparseMatrix := {
  num_rows : Z;
  num_cols : Z;
  elements : dict;
}.

(** *** load_matrix *)

(** [int(lines[i].strip().split('=')[1])] *)
Definition header_value (lines : list str) (i : nat) : result Z :=
  line ← index lines i;
  field ← index (split "=" (strip line)) 1;
  int field.

(** [row, col, value = map(int, fields)]: [map] is lazy, so [int] runs on
    a field when the unpacking asks for it; a fourth field is asked for to
    find that there are too many. *)
Definition unpack3_ints (fields : list str) : result (Z * Z * Z) :=
  match fields with
  | [] => Raise UnpackError
  | [a] => _ ← int a; Raise UnpackError
  | [a; b] => _ ← int a; _ ← int b; Raise UnpackError
  | a :: b :: c :: rest =>
      row ← int a; col ← int b; value ← int c;
      match rest with
      | [] => Ok (row, col, value)
      | d :: _ => _ ← int d; Raise UnpackError
      end
  end.

Definition wrong_format : exception := ValueError "Input file has wrong format".

(** The body of the loop over [lines[2:]]. *)
Definition load_line (elements : dict) (line : str) : result dict :=
  let line := strip line in
  match line with
  | [] => Ok elements
  | _ =>
      if negb (startswith "(" line && endswith ")" line) then Raise wrong_format
      else
        try_except
          ('(row, col, value) ← unpack3_ints (split "," (slice_1_m1 line));
           Ok (dict_setitem elements (row, col) value))
          is_ValueError (λ _, Raise wrong_format)
  end.

(** [load_matrix] on the contents of the file at [matrix_file_path]. *)
Definition load_matrix (content : str) : result SparseMatrix :=
  try_except
    (let lines := readlines content in
     rows ← header_value lines 0;
     cols ← header_value lines 1;
     elems ← for_each (drop 2 lines) load_line [];
     Ok {| num_rows := rows; num_cols := cols; elements := elems |})
    is_Exception (λ e, Raise (ReadingError e)).

(** *** get_element, set_element *)

Definition get_element (self : SparseMatrix) (curr_row curr_col : Z) : Z :=
  dict_get (elements self) (curr_row, curr_col) 0.

(** The state of [self] after [self.set_element(curr_row, curr_col, value)]. *)
Definition set_element (self : SparseMatrix) (curr_row curr_col value : Z)
    : SparseMatrix :=
  {| num_rows := num_rows self; num_cols := num_cols self;
     elements := dict_setitem (elements self) (curr_row, curr_col) value |}.

(** *** add, subtract *)

Definition dims_differ (self other : SparseMatrix) : bool :=
  bool_decide (num_rows self ≠ num_rows other)
  || bool_decide (num_cols self ≠ num_cols other).

(** One iteration of the loop of [add] over [other.elements.items()]. *)
Definition add_item (res : dict) (item : key * Z) : dict :=
  let '((row, col), value) := item in
  match dict_lookup res (row, col) with
  | Some old => dict_setitem res (row, col) (old + value)
  | None => dict_setitem res (row, col) value
  end.

Definition add (self other : SparseMatrix) : result SparseMatrix :=
  if dims_differ self other then
    Raise (ValueError "Matrices dimensions do not match for addition.")
  else
    Ok {| num_rows := num_rows self; num_cols := num_cols self;
          elements := fold_left add_item (elements other) (elements self) |}.

Definition subtract_item (res : dict) (item : key * Z) : dict :=
  let '((row, col), value) := item in
  match dict_lookup res (row, col) with
  | Some old => dict_setitem res (row, col) (old - value)
  | None => dict_setitem res (row, col) (- value)
  end.

Definition subtract (self other : SparseMatrix) : result SparseMatrix :=
  if dims_differ self other then
    Raise (ValueError "Matrices dimensions do not match for subtraction.")
  else
    Ok {| num_rows := num_rows self; num_cols := num_cols self;
          elements := fold_left subtract_item (elements other) (elements self) |}.

(** *** multiply *)

(** [range(n)] *)
Definition range (n : Z) : list Z := seqZ 0 n.

(** The body of the inner loop, for the entry [(row, col) -> value] of
    [self] and the column [k]. *)
Definition multiply_step (other_elements : dict) (row col value : Z)
    (res : dict) (k : Z) : dict :=
  match dict_lookup other_elements (col, k) with
  | Some b =>
      match dict_lookup res (row, k) with
      | Some old => dict_setitem res (row, k) (old + value * b)
      | None => dict_setitem res (row, k) (value * b)
      end
  | None => res
  end.

(** One iteration of the outer loop over [self.elements.items()]. *)
Definition multiply_item (other : SparseMatrix) (res : dict) (item : key * Z)
    : dict :=
  let '((row, col), value) := item in
  fold_left (multiply_step (elements other) row col value)
            (range (num_cols other)) res.

Definition multiply (self other : SparseMatrix) : result SparseMatrix :=
  if bool_decide (num_cols self ≠ num_rows other) then
    Raise (ValueError "Matrices dimensions do not match for multiplication.")
  else
    Ok {| num_rows := num_rows self; num_cols := num_cols other;
          elements := fold_left (multiply_item other) (elements self) [] |}.

(** The three arithmetic methods, by name. *)
Inductive operator := Add | Subtract | Multiply.

Definition apply (op : operator) : SparseMatrix → SparseMatrix → result SparseMatrix :=
  match op with
  | Add => add
  | Subtract => subtract
  | Multiply => multiply
  end.

(** *** __str__ *)

(** [x <= y] on [((row, col), value)] tuples, as Python compares tuples:
    by row, then column, then value. *)
Definition item_le (x y : key * Z) : Prop :=
  let '((r1, c1), v1) := x in
  let '((r2, c2), v2) := y in
  r1 < r2 ∨ (r1 = r2 ∧ (c1 < c2 ∨ (c1 = c2 ∧ v1 <= v2))).

Global Instance item_le_dec x y : Decision (item_le x y).
Proof. destruct x as [[??]?], y as [[??]?]; simpl; apply _. Defined.

(** [sorted(d.items())] *)
Definition sorted (items : list (key * Z)) : list (key * Z) :=
  merge_sort item_le items.

Definition format_header (self : SparseMatrix) : str :=
  txt "rows=" ++ str_of_int (num_rows self) ++ [LF]
  ++ txt "cols=" ++ str_of_int (num_cols self) ++ [LF].

Definition format_item (item : key * Z) : str :=
  let '((row, col), value) := item in
  txt "(" ++ str_of_int row ++ txt ", " ++ str_of_int col ++ txt ", "
  ++ str_of_int value ++ txt ")" ++ [LF].

Definition __str__ (self : SparseMatrix) : str :=
  fold_left (λ output item, output ++ format_item item)
            (sorted (elements self)) (format_header self).

(** ** Objects and identity

    Instances and their dictionaries live in a store indexed by references.
    A [SparseMatrix] instance holds its two dimensions and a reference to
    its dictionary, so that two instances can share one dictionary and an
    update through one reference is seen through every other. *)

Module Obj.

Abbreviation ref := nat.

Inductive object :=
  | DictObj (d : dict)
  | MatrixObj (num_rows num_cols : Z) (elements : ref).

Abbreviation store := (gmap ref object).

(** Computations that read and update the store and may raise. *)
Definition M (A : Type) : Type := store → result A * store.

Definition ret {A} (a : A) : M A := λ σ, (Ok a, σ).
Definition raise {A} (e : exception) : M A := λ σ, (Raise e, σ).
Definition bind {A B} (m : M A) (f : A → M B) : M B := λ σ,
  match m σ with
  | (Ok a, σ') => f a σ'
  | (Raise e, σ') => (Raise e, σ')
  end.

Global Instance M_ret : MRet M := @ret.
Global Instance M_bind : MBind M := λ A B f m, bind m f.

Definition alloc (o : object) : M ref := λ σ,
  let r := fresh (dom σ) in (Ok r, <[r := o]> σ).

Definition matrix_attrs (self : ref) : M (Z * Z * ref) := λ σ,
  match σ !! self with
  | Some (MatrixObj r c e) => (Ok (r, c, e), σ)
  | _ => (Raise AttributeError, σ)
  end.

(** [self.elements] *)
Definition elements_of (self : ref) : M ref :=
  '(_, _, e) ← matrix_attrs self; ret e.

(** [self.elements = e] *)
Definition set_elements (self e : ref) : M () := λ σ,
  match σ !! self with
  | Some (MatrixObj r c _) => (Ok (), <[self := MatrixObj r c e]> σ)
  | _ => (Raise AttributeError, σ)
  end.

Definition read_dict (e : ref) : M dict := λ σ,
  match σ !! e with
  | Some (DictObj d) => (Ok d, σ)
  | _ => (Raise AttributeError, σ)
  end.

Definition write_dict (e : ref) (d : dict) : M () := λ σ,
  match σ !! e with
  | Some (DictObj _) => (Ok (), <[e := DictObj d]> σ)
  | _ => (Raise AttributeError, σ)
  end.

Fixpoint for_each {A} (xs : list A) (body : A → M ()) : M () :=
  match xs with
  | [] => ret ()
  | x :: xs' => _ ← body x; for_each xs' body
  end.

(** [SparseMatrix(num_rows=r, num_cols=c)]: the instance comes with a
    new empty dictionary. *)
Definition new (r c : Z) : M ref :=
  e ← alloc (DictObj []);
  alloc (MatrixObj r c e).

Definition get_element (self : ref) (curr_row curr_col : Z) : M Z :=
  e ← elements_of self;
  d ← read_dict e;
  ret (dict_get d (curr_row, curr_col) 0).

Definition set_element (self : ref) (curr_row curr_col value : Z) : M () :=
  e ← elements_of self;
  d ← read_dict e;
  write_dict e (dict_setitem d (curr_row, curr_col) value).

(** [result.elements = self.elements.copy()] *)
Definition copy_elements (result self : ref) : M () :=
  e ← elements_of self;
  d ← read_dict e;
  e' ← alloc (DictObj d);
  set_elements result e'.

(** The loops of [add] and [subtract] walk the items of [other.elements]
    and update [result.elements], a dictionary allocated by the call. *)
Definition merge_items (result other : ref)
    (update : dict → key * Z → dict) : M () :=
  eo ← elements_of other;
  items ← read_dict eo;
  for_each items (λ item,
    er ← elements_of result;
    d ← read_dict er;
    write_dict er (update d item)).

Definition add (self other : ref) : M ref :=
  '(r1, c1, _) ← matrix_attrs self;
  '(r2, c2, _) ← matrix_attrs other;
  if bool_decide (r1 ≠ r2) || bool_decide (c1 ≠ c2) then
    raise (ValueError "Matrices dimensions do not match for addition.")
  else
    result ← new r1 c1;
    _ ← copy_elements result self;
    _ ← merge_items result other add_item;
    ret result.

Definition subtract (self other : ref) : M ref :=
  '(r1, c1, _) ← matrix_attrs self;
  '(r2, c2, _) ← matrix_attrs other;
  if bool_decide (r1 ≠ r2) || bool_decide (c1 ≠ c2) then
    raise (ValueError "Matrices dimensions do not match for subtraction.")
  else
    result ← new r1 c1;
    _ ← copy_elements result self;
    _ ← merge_items result other subtract_item;
    ret result.

Definition multiply (self other : ref) : M ref :=
  '(r1, c1, e1) ← matrix_attrs self;
  '(r2, c2, _) ← matrix_attrs other;
  if bool_decide (c1 ≠ r2) then
    raise (ValueError "Matrices dimensions do not match for multiplication.")
  else
    result ← new r1 c2;
    items ← read_dict e1;
    _ ← for_each items (λ '((row, col), value),
           '(_, n, _) ← matrix_attrs other;
           for_each (range n) (λ k,
             eo ← elements_of other;
             od ← read_dict eo;
             if dict_lookup od (col, k) is Some _ then
               er ← elements_of result;
               d ← read_dict er;
               write_dict er (multiply_step od row col value d k)
             else ret ()));
    ret result.

(** The three arithmetic methods, by name. *)
Definition apply (op : operator) : ref → ref → M ref :=
  match op with
  | Add => add
  | Subtract => subtract
  | Multiply => multiply
  end.

(** The value an instance stands for in a store. *)
Definition value_of (σ : store) (self : ref) : option SparseMatrix :=
  match σ !! self with
  | Some (MatrixObj r c e) =>
      match σ !! e with
      | Some (DictObj d) =>
          Some {| num_rows := r; num_cols := c; elements := d |}
      | _ => None
      end
  | _ => None
  end.

(** What a successful arithmetic method leaves behind: the store it
    started from, plus a new instance [m] whose dictionary [e] is new as
    well and holds [d]. *)
Definition returns_new (σ : store) (run : result ref * store)
    (r c : Z) (d : dict) : Prop :=
  ∃ m e σ', run = (Ok m, σ') ∧ σ !! m = None ∧ σ !! e = None ∧ σ ⊆ σ'
    ∧ σ' !! m = Some (MatrixObj r c e) ∧ σ' !! e = Some (DictObj d).

End Obj.

(** ** Vocabulary of the specification *)

(** Every stored entry lies within the declared dimensions. *)
Definition in_bounds (M : SparseMatrix) : Prop :=
  Forall (λ item : key * Z,
            (0 <= item.1.1 < num_rows M) ∧ (0 <= item.1.2 < num_cols M))
         (elements M).

(** The sum of [f c] for [c] in [range(n)]. *)
Definition sumZ (l : list Z) : Z := foldr Z.add 0 l.
Definition sum_range (n : Z) (f : Z → Z) : Z := sumZ (f <$> range n).

(** [M] without the stored entries whose column is outside
    [0 .. num_cols M - 1]. *)
Definition within_cols (M : SparseMatrix) : SparseMatrix :=
  {| num_rows := num_rows M; num_cols := num_cols M;
     elements := filter (λ item, 0 <= item.1.2 < num_cols M) (elements M) |}.

(** [k1 < k2] on [(row, col)] keys: by row first, then by column. *)
Definition key_lt (k1 k2 : key) : Prop :=
  k1.1 < k2.1 ∨ (k1.1 = k2.1 ∧ k1.2 < k2.2).

(** A header line, without its newline. *)
Definition header_text (name : string) (n : Z) : str :=
  txt name ++ txt "=" ++ str_of_int n.

(** The line of an entry, without its newline. *)
Definition item_text (item : key * Z) : str :=
  txt "(" ++ str_of_int item.1.1 ++ txt ", " ++ str_of_int item.1.2
  ++ txt ", " ++ str_of_int item.2 ++ txt ")".

(** The characters of a decimal rendering: a minus sign or a digit. *)
Definition int_char (c : ascii) : Prop := c = "-"%char ∨ is_digit c = true.

(** The number a run of digits denotes, continuing from [acc]. *)
Definition digits_value (ds : str) (acc : Z) : Z :=
  fold_left (λ a c, 10 * a + digit_value c) ds acc.

(** *** The syntax of the file format *)

(** The digits of an integer literal as [int()] reads it: decimal digits,
    where two digits may be separated by one underscore. *)
Inductive digit_groups : str → Prop :=
  | digits_one d :
      is_digit d = true → digit_groups [d]
  | digits_more d s :
      is_digit d = true → digit_groups s → digit_groups (d :: s)
  | digits_underscore d s :
      is_digit d = true → digit_groups s → digit_groups (d :: "_"%char :: s).

(** What can follow in the digits of a literal, after a digit or not. *)
Definition digits_rest (prev_digit : bool) (s : str) : Prop :=
  if prev_digit
  then s = [] ∨ digit_groups s ∨ (∃ s', s = "_"%char :: s' ∧ digit_groups s')
  else digit_groups s.

(** A signed integer with blanks around it. *)
Definition int_literal (s : str) : Prop :=
  ∃ ws1 sign ds ws2,
    s = ws1 ++ sign ++ ds ++ ws2
    ∧ Forall (λ c, int_isspace c = true) ws1
    ∧ Forall (λ c, int_isspace c = true) ws2
    ∧ (sign = [] ∨ sign = ["+"%char] ∨ sign = ["-"%char])
    ∧ digit_groups ds.

Definition no_char (sep : ascii) (s : str) : Prop :=
  Forall (λ c, Ascii.eqb c sep = false) s.

(** A stripped entry line: three integers between parentheses, separated
    by commas. *)
Definition entry_syntax (line : str) : Prop :=
  ∃ a b c,
    line = "("%char :: a ++ ","%char :: b ++ ","%char :: c ++ [")"%char]
    ∧ no_char "," a ∧ no_char "," b ∧ no_char "," c
    ∧ int_literal a ∧ int_literal b ∧ int_literal c.

(** A stripped header line as [load_matrix] reads it: anything without
    [=], then [=], then an integer that ends the line or is followed by
    another [=]. *)
Definition header_syntax (line : str) : Prop :=
  ∃ name field rest,
    line = name ++ "="%char :: field ++ rest
    ∧ no_char "=" name ∧ no_char "=" field
    ∧ (rest = [] ∨ head rest = Some "="%char)
    ∧ int_literal field.

(** Line [i] of the file exists and is a header line. *)
Definition header_ok (lines : list str) (i : nat) : Prop :=
  ∃ line, lines !! i = Some line ∧ header_syntax (strip line).

(** The contents of a file with the given lines, each ended by a newline. *)
Definition file (lines : list string) : str :=
  mjoin ((λ l, txt l ++ [LF]) <$> lines).

(** The causes [load_matrix] reports for a bad header line. *)
Definition header_error (e : exception) : Prop :=
  e = IndexError ∨ ∃ s, e = InvalidLiteral s.

(** ** Vocabulary of the further properties *)

(** The value [multiply] leaves at [(i, j)], as a sum over the stored
    entries of [self]. *)
Definition contribution (B : SparseMatrix) (i j : Z) (item : key * Z) : Z :=
  if decide (i = item.1.1 ∧ 0 <= j < num_cols B)
  then item.2 * dict_get (elements B) (item.1.2, j) 0 else 0.


(** The text of a file with the given header and the given entries, one
    line each, in the given order, written the way [__str__] writes
    lines. *)
Definition matrix_text (rows cols : Z) (items : list (key * Z)) : str :=
  mjoin ((λ b, b ++ [LF]) <$>
           (header_text "rows" rows :: header_text "cols" cols
            :: (item_text <$> items))).

(** A line that [load_matrix] does not skip. *)
Definition nonblank (line : str) : Prop := strip line ≠ [].

(** What [f.write(s)] leaves in a file opened in text mode for writing:
    every newline of [s] becomes the line separator of the platform
    ([os.linesep]: a line feed, or a carriage return and a line feed). *)
Definition write_text (linesep : str) (s : str) : str :=
  mjoin ((λ c, if Ascii.eqb c LF then linesep else [c]) <$> s).

(** ** The program around the class: files, the constructor and [main]

    The files are the texts that [open] finds under a path; the standard
    output is the list of what was printed; the standard input is the list
    of the lines [input()] will return.  Two facts of the platform are
    parameters: its line separator, and the paths that can be opened for
    writing. *)

(** What the program can raise besides the exceptions of the class:
    [ReadingOSError path] is the [ValueError] of [load_matrix] that wraps
    the [OSError] of [open(path, 'r')]; [WriteOSError path] is the
    [OSError] of [open(path, 'w')]; [EOFError] is [input()] at the end of
    the input. *)
Inductive program_exception :=
  | ClassError (e : exception)
  | ReadingOSError (path : string)
  | WriteOSError (path : string)
  | EOFError.

(** [except ValueError] in [main]. *)
Definition is_program_ValueError (e : program_exception) : bool :=
  match e with
  | ClassError e => is_ValueError e
  | ReadingOSError _ => true
  | WriteOSError _ | EOFError => false
  end.

Inductive outcome (A : Type) :=
  | Returns (a : A)
  | Raises (e : program_exception).
Arguments Returns {A} a.
Arguments Raises {A} e.

Abbreviation files := (string → option str).

(** The files after [path] has been given the contents [content]. *)
Definition files_write (path : string) (content : str) (disk : files) : files :=
  λ p, if String.eqb p path then Some content else disk p.

(** [self.load_matrix(matrix_file_path)] with the files at hand. *)
Definition load_matrix_file (disk : files) (matrix_file_path : string)
    : outcome SparseMatrix :=
  match disk matrix_file_path with
  | Some content =>
      match load_matrix content with
      | Ok self => Returns self
      | Raise e => Raises (ClassError e)
      end
  | None => Raises (ReadingOSError matrix_file_path)
  end.

(** [SparseMatrix(matrix_file_path, num_rows, num_cols)], each argument
    [None] when it is left out.  An empty path is false in [if
    matrix_file_path]. *)
Definition __init__ (disk : files) (matrix_file_path : option string)
    (num_rows num_cols : option Z) : outcome SparseMatrix :=
  let from_dimensions :=
    match num_rows, num_cols with
    | Some r, Some c => Returns (Build_SparseMatrix r c [])
    | _, _ =>
        Raises (ClassError (ValueError
          "Either matrix_file_path or num_rows and num_cols must be provided."))
    end in
  match matrix_file_path with
  | Some path =>
      if String.eqb path "" then from_dimensions
      else load_matrix_file disk path
  | None => from_dimensions
  end.

(** What the standard output receives: [Print s] is a [print] whose
    arguments, joined by spaces, make the text [s] (a newline follows it);
    [PrintException e] is [print(e)]; [Prompt s] is the prompt of
    [input(s)]. *)
Inductive event :=
  | Print (s : str)
  | PrintException (e : program_exception)
  | Prompt (s : str).

Record world := {
  disk : files;
  stdout : list event;
}.

Definition emit (ev : event) (w : world) : world :=
  {| disk := disk w; stdout := stdout w ++ [ev] |}.

Definition input_dir : string :=
  "C:\Users\user\Desktop\dsa\sparse_matrix\sample_inputs".
Definition output_dir : string :=
  "C:\Users\user\Desktop\dsa\sparse_matrix\sample_results".

(** The three branches of [main] that compute differ in the method, in the
    label they print and in the file they write. *)
Definition result_label (op : operator) : string :=
  match op with
  | Add => "Addition Result:"
  | Subtract => "Subtraction Result:"
  | Multiply => "Multiplication Result:"
  end.

(** The two files [main] loads. *)
Definition matrix1_path : string :=
  String.append input_dir "/easy_sample_02_1.txt".
Definition matrix2_path : string :=
  String.append input_dir "/easy_sample_02_2.txt".

Definition result_path (op : operator) : string :=
  match op with
  | Add => String.append output_dir "/addition_result.txt"
  | Subtract => String.append output_dir "/subtraction_result.txt"
  | Multiply => String.append output_dir "/multiplication_result.txt"
  end.

Section program.
Variables (linesep : str) (writable : string → bool).

(** [with open(path, 'w') as f: f.write(s)] *)
Definition write_file (path : string) (s : str) (w : world)
    : outcome () * world :=
  if writable path then
    (Returns (),
     {| disk := files_write path (write_text linesep s) (disk w);
        stdout := stdout w |})
  else (Raises (WriteOSError path), w).

(** [result = matrix1.op(matrix2); print(label + "\n", result); with
    open(path, 'w') as f: f.write(str(result))] *)
Definition compute_and_save (op : operator) (matrix1 matrix2 : SparseMatrix)
    (w : world) : outcome () * world :=
  match apply op matrix1 matrix2 with
  | Raise e => (Raises (ClassError e), w)
  | Ok result =>
      write_file (result_path op) (__str__ result)
        (emit (Print (txt (result_label op) ++ [LF] ++ txt " "
                      ++ __str__ result)) w)
  end.

Definition print_menu (w : world) : world :=
  emit (Print (txt "4. Exit"))
    (emit (Print (txt "3. Multiplication"))
       (emit (Print (txt "2. Subtraction"))
          (emit (Print (txt "1. Addition"))
             (emit (Print (txt
                "Select operation: (will fail if there's a dimension mismatch)"))
                w)))).

(** The [while True] loop, on the lines that [input()] will return; on a
    normal exit it returns the lines left unread. *)
Fixpoint main_loop (matrix1 matrix2 : SparseMatrix) (inputs : list str)
    (w : world) : outcome (list str) * world :=
  let w := emit (Prompt (txt "Enter choice: ")) (print_menu w) in
  match inputs with
  | [] => (Raises EOFError, w)
  | choice :: inputs' =>
      if decide (choice = txt "1") then
        match compute_and_save Add matrix1 matrix2 w with
        | (Returns _, w') => main_loop matrix1 matrix2 inputs' w'
        | (Raises e, w') =>
            if is_program_ValueError e
            then main_loop matrix1 matrix2 inputs' (emit (PrintException e) w')
            else (Raises e, w')
        end
      else if decide (choice = txt "2") then
        match compute_and_save Subtract matrix1 matrix2 w with
        | (Returns _, w') => main_loop matrix1 matrix2 inputs' w'
        | (Raises e, w') =>
            if is_program_ValueError e
            then main_loop matrix1 matrix2 inputs' (emit (PrintException e) w')
            else (Raises e, w')
        end
      else if decide (choice = txt "3") then
        match compute_and_save Multiply matrix1 matrix2 w with
        | (Returns _, w') => main_loop matrix1 matrix2 inputs' w'
        | (Raises e, w') => (Raises e, w')
        end
      else if decide (choice = txt "4") then (Returns inputs', w)
      else
        main_loop matrix1 matrix2 inputs'
          (emit (Print (txt "Invalid choice. Please select again.")) w)
  end.

Definition main (inputs : list str) (w : world) : outcome (list str) * world :=
  match __init__ (disk w) (Some matrix1_path) None None with
  | Raises e => (Raises e, w)
  | Returns matrix1 =>
      match __init__ (disk w) (Some matrix2_path) None None with
      | Raises e => (Raises e, w)
      | Returns matrix2 =>
          let w :=
            emit (Print (txt "Matrix 1: " ++ str_of_int (num_rows matrix1)
                         ++ txt " rows, " ++ str_of_int (num_cols matrix1)
                         ++ txt " cols")) w in
          let w :=
            emit (Print (txt "Matrix 2: " ++ str_of_int (num_rows matrix2)
                         ++ txt " rows, " ++ str_of_int (num_cols matrix2)
                         ++ txt " cols")) w in
          main_loop matrix1 matrix2 inputs w
      end
  end.

End program.

Global Instance operator_eq_dec : EqDecision operator.
Proof. solve_decision. Defined.

(** The line a user types to have [op] computed. *)
Definition choice_of (op : operator) : str :=
  match op with
  | Add => txt "1"
  | Subtract => txt "2"
  | Multiply => txt "3"
  end.

(** One pass through the body of the loop, after the menu and the prompt,
    for the line [choice]: [Returns true] goes round again, [Returns false]
    is the [break]. *)
Definition iteration (linesep : str) (writable : string → bool)
    (matrix1 matrix2 : SparseMatrix) (choice : str) (w : world)
    : outcome bool * world :=
  let guarded (op : operator) :=
    match compute_and_save linesep writable op matrix1 matrix2 w with
    | (Returns _, w') => (Returns true, w')
    | (Raises e, w') =>
        if is_program_ValueError e
        then (Returns true, emit (PrintException e) w')
        else (Raises e, w')
    end in
  if decide (choice = txt "1") then guarded Add
  else if decide (choice = txt "2") then guarded Subtract
  else if decide (choice = txt "3") then
    match compute_and_save linesep writable Multiply matrix1 matrix2 w with
    | (Returns _, w') => (Returns true, w')
    | (Raises e, w') => (Raises e, w')
    end
  else if decide (choice = txt "4") then (Returns false, w)
  else (Returns true, emit (Print (txt "Invalid choice. Please select again.")) w).

(** How a run may change the world: files other than the three result
    files stay as they are, a result file stays as it is or holds the text
    of the result of its method on the two matrices, and the output only
    grows. *)
Definition evolves (linesep : str) (matrix1 matrix2 : SparseMatrix)
    (w w' : world) : Prop :=
  (∀ p, (∀ op, p ≠ result_path op) → disk w' p = disk w p)
  ∧ (∀ op, disk w' (result_path op) = disk w (result_path op)
           ∨ ∃ R, apply op matrix1 matrix2 = Ok R
                  ∧ disk w' (result_path op)
                    = Some (write_text linesep (__str__ R)))
  ∧ ∃ out, stdout w' = stdout w ++ out.

(** Two files of a 2 by 3 matrix each under the paths [main] loads, and
    nothing printed yet: the world of the examples. *)
Definition sample_world : world :=
  {| disk :=
       files_write matrix1_path
         (file ["rows=2"; "cols=3"; "(0, 0, 1)"; "(1, 2, -4)"]%string)
         (files_write matrix2_path
            (file ["rows=2"; "cols=3"; "(0, 0, 5)"; "(1, 1, 7)"]%string)
            (λ _, None));
     stdout := [] |}.

(** * Properties *)

(** ** Dictionaries *)

Section dict_facts.
Implicit Types (d : dict) (k : key) (v : Z).

Lemma dict_lookup_setitem_eq d k v :
  dict_lookup (dict_setitem d k v) k = Some v.
Proof.
  induction d as [|[k' v'] d IH]; simpl.
  - by rewrite decide_True.
  - destruct (decide (k' = k)) as [->|Hne]; simpl.
    + by rewrite decide_True.
    + by rewrite decide_False.
Qed.

Lemma dict_lookup_setitem_ne d k k' v :
  k ≠ k' → dict_lookup (dict_setitem d k v) k' = dict_lookup d k'.
Proof.
  intros Hne. induction d as [|[k0 v0] d IH]; simpl.
  - by rewrite decide_False.
  - destruct (decide (k0 = k)) as [->|Hne0]; simpl.
    + by rewrite !decide_False.
    + by rewrite IH.
Qed.

Lemma dict_lookup_setitem d k k' v :
  dict_lookup (dict_setitem d k v) k'
  = if decide (k = k') then Some v else dict_lookup d k'.
Proof.
  destruct (decide (k = k')) as [->|?];
    auto using dict_lookup_setitem_eq, dict_lookup_setitem_ne.
Qed.

Lemma dict_lookup_None d k : dict_lookup d k = None ↔ k ∉ d.*1.
Proof.
  induction d as [|[k' v'] d IH]; simpl.
  - split; [intros _; apply not_elem_of_nil | done].
  - rewrite not_elem_of_cons. destruct (decide (k' = k)) as [->|?].
    + split; [done | by intros [? _]].
    + rewrite IH. naive_solver.
Qed.

Lemma dict_lookup_Some d k v :
  dict_wf d → dict_lookup d k = Some v ↔ (k, v) ∈ d.
Proof.
  unfold dict_wf. induction d as [|[k' v'] d IH]; simpl; intros Hwf.
  - split; [done | by intros ?%elem_of_nil].
  - apply NoDup_cons in Hwf as [Hk' Hwf]. rewrite elem_of_cons.
    destruct (decide (k' = k)) as [->|?].
    + split; [naive_solver |]. intros [?|Hin]; [naive_solver |].
      destruct Hk'. by apply (list_elem_of_fmap_2 fst) in Hin.
    + rewrite IH by done. naive_solver.
Qed.

Lemma dict_lookup_elem_of d k v : dict_lookup d k = Some v → (k, v) ∈ d.
Proof.
  induction d as [|[k' v'] d IH]; simpl; [done |].
  destruct (decide (k' = k)) as [->|?]; intros; simplify_eq; set_solver.
Qed.

Lemma dict_setitem_keys d k v :
  (dict_setitem d k v).*1
  = if dict_lookup d k is Some _ then d.*1 else d.*1 ++ [k].
Proof.
  induction d as [|[k' v'] d IH]; [done |].
  cbn [dict_setitem dict_lookup].
  destruct (decide (k' = k)) as [->|?]; [done |].
  rewrite !fmap_cons, IH. by destruct (dict_lookup d k).
Qed.

Lemma dict_setitem_wf d k v : dict_wf d → dict_wf (dict_setitem d k v).
Proof.
  unfold dict_wf. rewrite dict_setitem_keys.
  destruct (dict_lookup d k) eqn:Hk; [done |].
  intros Hwf. apply NoDup_app. split_and!; [done | | apply NoDup_singleton].
  intros k' Hk' ->%list_elem_of_singleton. by apply dict_lookup_None in Hk.
Qed.

Lemma dict_eq_perm d1 d2 : dict_wf d1 → dict_wf d2 → d1 ≡ₚ d2 → dict_eq d1 d2.
Proof.
  intros Hwf1 Hwf2 Hperm k.
  destruct (dict_lookup d1 k) as [v|] eqn:H1.
  - apply dict_lookup_Some in H1; [|done]. symmetry.
    apply dict_lookup_Some; [done |]. by rewrite <-Hperm.
  - symmetry. apply dict_lookup_None. apply dict_lookup_None in H1.
    by rewrite <-Hperm.
Qed.
End dict_facts.

(** ** Addition and subtraction *)

Section merge.
(** Both loops merge the items of [other] into a copy of [self.elements]:
    values are combined with [op] where the key is present, and [inj] of
    the value is stored where it is not. *)
Variables (op : Z → Z → Z) (inj : Z → Z) (step : dict → key * Z → dict).
Hypothesis step_eq : ∀ res k v,
  step res (k, v) =
    match dict_lookup res k with
    | Some old => dict_setitem res k (op old v)
    | None => dict_setitem res k (inj v)
    end.

Lemma merge_step_lookup res k v k' :
  dict_lookup (step res (k, v)) k'
  = if decide (k = k')
    then Some (from_option (λ old, op old v) (inj v) (dict_lookup res k))
    else dict_lookup res k'.
Proof.
  rewrite step_eq.
  destruct (dict_lookup res k) eqn:Hk; rewrite dict_lookup_setitem;
    by case_decide.
Qed.

Lemma merge_lookup items res k :
  dict_wf items →
  dict_lookup (fold_left step items res) k
  = match dict_lookup items k with
    | Some b => Some (from_option (λ a, op a b) (inj b) (dict_lookup res k))
    | None => dict_lookup res k
    end.
Proof.
  unfold dict_wf. revert res.
  induction items as [|[k0 v0] items IH]; intros res Hwf; [done |].
  rewrite fmap_cons in Hwf. cbn [fst] in Hwf.
  apply NoDup_cons in Hwf as [Hk0 Hwf].
  cbn [fold_left dict_lookup]. rewrite IH by done.
  rewrite merge_step_lookup. destruct (decide (k0 = k)) as [->|?]; [|done].
  apply dict_lookup_None in Hk0. by rewrite Hk0.
Qed.

Lemma merge_wf items res : dict_wf res → dict_wf (fold_left step items res).
Proof.
  revert res. induction items as [|[k0 v0] items IH]; intros res Hwf; [done |].
  cbn [fold_left]. apply IH. rewrite step_eq.
  destruct (dict_lookup res k0); by apply dict_setitem_wf.
Qed.
End merge.

Lemma add_item_eq res k v :
  add_item res (k, v) =
    match dict_lookup res k with
    | Some old => dict_setitem res k (old + v)
    | None => dict_setitem res k (id v)
    end.
Proof. by destruct k. Qed.

Lemma subtract_item_eq res k v :
  subtract_item res (k, v) =
    match dict_lookup res k with
    | Some old => dict_setitem res k (old - v)
    | None => dict_setitem res k (- v)
    end.
Proof. by destruct k. Qed.

Lemma get_element_unfold M r c :
  get_element M r c = default 0 (dict_lookup (elements M) (r, c)).
Proof. done. Qed.

Lemma add_Ok A B :
  num_rows A = num_rows B → num_cols A = num_cols B →
  add A B = Ok {| num_rows := num_rows A; num_cols := num_cols A;
                  elements := fold_left add_item (elements B) (elements A) |}.
Proof.
  intros Hr Hc. unfold add, dims_differ.
  by rewrite !bool_decide_eq_false_2 by (by intros ?).
Qed.

Lemma get_element_add A B r c :
  dict_wf (elements B) →
  default 0 (dict_lookup (fold_left add_item (elements B) (elements A)) (r, c))
  = get_element A r c + get_element B r c.
Proof.
  intros HB. rewrite (merge_lookup Z.add id add_item add_item_eq) by done.
  rewrite !get_element_unfold.
  destruct (dict_lookup (elements B) (r, c)), (dict_lookup (elements A) (r, c));
    simpl; unfold id; lia.
Qed.

(** C8.  For matrices of equal dimensions, [add A B] and [add B A] both
    return, and their results read the same through [get_element] at every
    coordinate. *)
Theorem add_commutative_pointwise A B :
  dict_wf (elements A) → dict_wf (elements B) →
  num_rows A = num_rows B → num_cols A = num_cols B →
  ∃ AB BA, add A B = Ok AB ∧ add B A = Ok BA
    ∧ ∀ r c, get_element AB r c = get_element BA r c.
Proof.
  intros HA HB Hr Hc. eexists _, _. split_and!.
  - by apply add_Ok.
  - by apply add_Ok.
  - intros r c. rewrite (get_element_unfold (Build_SparseMatrix _ _ _)).
    rewrite (get_element_unfold (Build_SparseMatrix _ _ _)). simpl.
    rewrite !get_element_add by done. lia.
Qed.

Lemma add_commutative_pointwise_witness :
  ∃ AB BA,
    add {| num_rows := 2; num_cols := 2;
           elements := [((0, 0), 1); ((1, 1), 2)] |}
        {| num_rows := 2; num_cols := 2;
           elements := [((1, 1), 5); ((0, 1), -3)] |} = Ok AB
    ∧ add {| num_rows := 2; num_cols := 2;
             elements := [((1, 1), 5); ((0, 1), -3)] |}
          {| num_rows := 2; num_cols := 2;
             elements := [((0, 0), 1); ((1, 1), 2)] |} = Ok BA
    ∧ ∀ r c, get_element AB r c = get_element BA r c.
Proof.
  apply add_commutative_pointwise.
  - refine (bool_decide_unpack _ _). vm_compute. exact I.
  - refine (bool_decide_unpack _ _). vm_compute. exact I.
  - reflexivity.
  - reflexivity.
Defined.

(** ** Multiplication *)

Lemma sumZ_cons x l : sumZ (x :: l) = x + sumZ l.
Proof. done. Qed.

Lemma sumZ_fmap_add {A} (f g : A → Z) l :
  sumZ ((λ x, f x + g x) <$> l) = sumZ (f <$> l) + sumZ (g <$> l).
Proof.
  induction l as [|x l IH]; [done |]. rewrite !fmap_cons, !sumZ_cons, IH. lia.
Qed.

Lemma sumZ_fmap_ext {A} (f g : A → Z) l :
  (∀ x, x ∈ l → f x = g x) → sumZ (f <$> l) = sumZ (g <$> l).
Proof.
  induction l as [|x l IH]; intros Hfg; [done |].
  rewrite !fmap_cons, !sumZ_cons, Hfg, IH; [done | | ]; set_solver.
Qed.

Lemma sumZ_fmap_zero {A} (f : A → Z) l :
  (∀ x, x ∈ l → f x = 0) → sumZ (f <$> l) = 0.
Proof.
  induction l as [|x l IH]; intros Hf; [done |].
  rewrite !fmap_cons, !sumZ_cons, Hf, IH; [done | | ]; set_solver.
Qed.

Lemma sumZ_fmap_single (c0 x : Z) l :
  NoDup l →
  sumZ ((λ c, if decide (c = c0) then x else 0) <$> l)
  = if decide (c0 ∈ l) then x else 0.
Proof.
  induction 1 as [|c l Hc Hl IH].
  - by rewrite decide_False by apply not_elem_of_nil.
  - rewrite fmap_cons, sumZ_cons, IH. destruct (decide (c = c0)) as [->|?].
    + rewrite decide_False by done. rewrite decide_True by set_solver. lia.
    + destruct (decide (c0 ∈ l)).
      * rewrite decide_True by set_solver. lia.
      * rewrite decide_False by set_solver. lia.
Qed.

Lemma elem_of_range n k : k ∈ range n ↔ 0 <= k < n.
Proof. unfold range. rewrite elem_of_seqZ. lia. Qed.

Lemma dict_get_setitem d k v k' dflt :
  dict_get (dict_setitem d k v) k' dflt
  = if decide (k = k') then v else dict_get d k' dflt.
Proof. unfold dict_get. rewrite dict_lookup_setitem. by case_decide. Qed.

Section multiply_facts.
Variables (Bd : dict) (i j : Z).

Lemma multiply_step_get row col v res k :
  dict_get (multiply_step Bd row col v res k) (i, j) 0
  = dict_get res (i, j) 0
    + (if decide (i = row ∧ j = k) then v * dict_get Bd (col, k) 0 else 0).
Proof.
  unfold multiply_step, dict_get at 3.
  destruct (dict_lookup Bd (col, k)) as [b|]; simpl.
  - destruct (dict_lookup res (row, k)) as [old|] eqn:Hold;
      rewrite dict_get_setitem;
      destruct (decide ((row, k) = (i, j))) as [[= <- <-]|Hne].
    + rewrite decide_True by done. unfold dict_get. rewrite Hold. simpl. lia.
    + rewrite decide_False by naive_solver. lia.
    + rewrite decide_True by done. unfold dict_get. rewrite Hold. simpl. lia.
    + rewrite decide_False by naive_solver. lia.
  - case_decide; lia.
Qed.

Lemma multiply_inner_get row col v ks res :
  NoDup ks →
  dict_get (fold_left (multiply_step Bd row col v) ks res) (i, j) 0
  = dict_get res (i, j) 0
    + (if decide (i = row ∧ j ∈ ks) then v * dict_get Bd (col, j) 0 else 0).
Proof.
  intros Hks. revert res.
  induction Hks as [|k ks Hk Hks IH]; intros res; cbn [fold_left].
  - rewrite decide_False; [lia |]. intros [_ []%elem_of_nil].
  - rewrite IH, multiply_step_get.
    destruct (decide (i = row ∧ j = k)) as [[-> ->]|Hne].
    + rewrite decide_False by naive_solver.
      rewrite decide_True by set_solver. lia.
    + destruct (decide (i = row ∧ j ∈ ks)) as [[-> ?]|?].
      * rewrite decide_True by set_solver. lia.
      * rewrite decide_False; [lia |]. rewrite elem_of_cons. naive_solver.
Qed.
End multiply_facts.

(** What the entry [(r, c) -> v] of [self] adds to the result at [(i, j)]. *)
Lemma multiply_item_get B i j r c v res :
  dict_get (multiply_item B res ((r, c), v)) (i, j) 0
  = dict_get res (i, j) 0
    + (if decide (i = r ∧ 0 <= j < num_cols B)
       then v * dict_get (elements B) (c, j) 0 else 0).
Proof.
  unfold multiply_item. rewrite multiply_inner_get by apply NoDup_seqZ.
  f_equal. apply decide_ext. by rewrite elem_of_range.
Qed.

Lemma multiply_outer_get B i j items res :
  dict_get (fold_left (multiply_item B) items res) (i, j) 0
  = dict_get res (i, j) 0
    + sumZ ((λ item : key * Z,
              if decide (i = item.1.1 ∧ 0 <= j < num_cols B)
              then item.2 * dict_get (elements B) (item.1.2, j) 0 else 0)
            <$> items).
Proof.
  revert res. induction items as [|[[r c] v] items IH]; intros res.
  - simpl. lia.
  - cbn [fold_left]. rewrite IH, multiply_item_get, fmap_cons, sumZ_cons.
    cbn [fst snd]. lia.
Qed.

(** Summing over the stored entries of row [i] is summing over the columns,
    when every stored column of that row lies in [range(m)]. *)
Lemma sum_items_sum_range (g : Z → Z) i m items :
  dict_wf items →
  (∀ c v, ((i, c), v) ∈ items → 0 <= c < m) →
  sumZ ((λ item : key * Z, if decide (i = item.1.1) then item.2 * g item.1.2
                           else 0) <$> items)
  = sum_range m (λ c, dict_get items (i, c) 0 * g c).
Proof.
  unfold dict_wf, sum_range.
  induction items as [|[[r0 c0] v0] items IH]; intros Hwf Hcols.
  - simpl. symmetry. by apply sumZ_fmap_zero.
  - rewrite fmap_cons in Hwf. cbn [fst] in Hwf.
    apply NoDup_cons in Hwf as [Hk0 Hwf].
    rewrite fmap_cons, sumZ_cons. cbn [fst snd].
    rewrite IH by set_solver.
    destruct (decide (i = r0)) as [->|Hne].
    + assert (Hc0 : c0 ∈ range m) by (apply elem_of_range; set_solver).
      apply dict_lookup_None in Hk0.
      rewrite (sumZ_fmap_ext
        (λ c, dict_get (((r0, c0), v0) :: items) (r0, c) 0 * g c)
        (λ c, (if decide (c = c0) then v0 * g c0 else 0)
              + dict_get items (r0, c) 0 * g c)).
      * rewrite sumZ_fmap_add, sumZ_fmap_single by apply NoDup_seqZ.
        by rewrite decide_True by done.
      * intros c _. unfold dict_get. cbn [dict_lookup].
        destruct (decide (c = c0)) as [->|?].
        -- rewrite decide_True by done. rewrite Hk0. simpl. lia.
        -- rewrite decide_False by naive_solver. lia.
    + apply sumZ_fmap_ext. intros c _. unfold dict_get. cbn [dict_lookup].
      rewrite decide_False by naive_solver. lia.
Qed.

Lemma multiply_Ok A B :
  num_cols A = num_rows B →
  multiply A B
  = Ok {| num_rows := num_rows A; num_cols := num_cols B;
          elements := fold_left (multiply_item B) (elements A) [] |}.
Proof. intros H. unfold multiply. by rewrite bool_decide_eq_false_2 by auto. Qed.

Lemma in_bounds_elem_of M r c v :
  in_bounds M → ((r, c), v) ∈ elements M →
  (0 <= r < num_rows M) ∧ (0 <= c < num_cols M).
Proof.
  unfold in_bounds. rewrite Forall_forall. intros H Hin. apply (H _ Hin).
Qed.

Lemma in_bounds_get_outside M r c :
  in_bounds M → ¬ (0 <= c < num_cols M) → get_element M r c = 0.
Proof.
  intros HM Hc. unfold get_element, dict_get.
  destruct (dict_lookup (elements M) (r, c)) as [v|] eqn:Hv; [|done].
  apply dict_lookup_elem_of in Hv. by apply (in_bounds_elem_of M) in Hv as [_ ?].
Qed.

(** C1.  When the stored entries of [A] and [B] lie within their declared
    dimensions and [A.num_cols = B.num_rows], [multiply A B] returns a
    matrix of dimensions [(A.num_rows, B.num_cols)] whose [get_element i k]
    is the sum over [c] in [range(A.num_cols)] of
    [A.get_element(i, c) * B.get_element(c, k)], for all integers [i], [k];
    and [{(0,0): 2, (0,1): 3}] (2x2) times [{(0,0): 1, (1,0): 4}] (2x1)
    is [{(0,0): 14}]. *)
Theorem multiply_correct A B :
  dict_wf (elements A) → in_bounds A → in_bounds B →
  num_cols A = num_rows B →
  (∃ R, multiply A B = Ok R
     ∧ num_rows R = num_rows A ∧ num_cols R = num_cols B
     ∧ ∀ i k, get_element R i k
              = sum_range (num_cols A)
                  (λ c, get_element A i c * get_element B c k))
  ∧ multiply
      {| num_rows := 2; num_cols := 2; elements := [((0, 0), 2); ((0, 1), 3)] |}
      {| num_rows := 2; num_cols := 1; elements := [((0, 0), 1); ((1, 0), 4)] |}
    = Ok {| num_rows := 2; num_cols := 1; elements := [((0, 0), 14)] |}.
Proof.
  intros HwfA HA HB Hdim. split; [|by vm_compute].
  eexists. split; [by apply multiply_Ok |]. split_and!; [done.. |].
  intros i k. unfold get_element at 1. cbn [elements].
  rewrite multiply_outer_get. unfold dict_get at 1. cbn [dict_lookup default].
  destruct (decide (0 <= k < num_cols B)) as [Hk|Hk].
  - rewrite Z.add_0_l.
    etrans; [|apply (sum_items_sum_range (λ c, get_element B c k) i
                       (num_cols A) (elements A) HwfA)].
    + apply sumZ_fmap_ext. intros [[r c] v] _. cbn [fst snd].
      apply decide_ext. naive_solver.
    + intros c v Hin. by apply (in_bounds_elem_of A) in Hin as [_ ?].
  - rewrite sumZ_fmap_zero.
    + symmetry. apply sumZ_fmap_zero. intros c _.
      rewrite (in_bounds_get_outside B) by done. lia.
    + intros item _. rewrite decide_False; [done | naive_solver].
Qed.

Lemma multiply_correct_witness :
  ∃ R, multiply
         {| num_rows := 2; num_cols := 3;
            elements := [((0, 0), 1); ((1, 2), -4); ((1, 0), 3)] |}
         {| num_rows := 3; num_cols := 2;
            elements := [((0, 1), 5); ((2, 1), 2); ((0, 0), 7)] |}
       = Ok R
     ∧ get_element R 1 1 = 7.
Proof.
  destruct (multiply_correct
              {| num_rows := 2; num_cols := 3;
                 elements := [((0, 0), 1); ((1, 2), -4); ((1, 0), 3)] |}
              {| num_rows := 3; num_cols := 2;
                 elements := [((0, 1), 5); ((2, 1), 2); ((0, 0), 7)] |})
    as [(R & HR & _ & _ & Hget) _].
  - refine (bool_decide_unpack _ _). vm_compute. exact I.
  - refine (bool_decide_unpack _ _). vm_compute. exact I.
  - refine (bool_decide_unpack _ _). vm_compute. exact I.
  - reflexivity.
  - exists R. split; [exact HR |]. rewrite Hget. reflexivity.
Defined.

Lemma dict_lookup_filter (P : key → Prop) `{∀ k, Decision (P k)} (d : dict) k :
  P k → dict_lookup (filter (λ item, P item.1) d) k = dict_lookup d k.
Proof.
  intros Hk. induction d as [|[k' v'] d IH]; [done |].
  cbn [dict_lookup]. destruct (decide (k' = k)) as [->|Hne].
  - rewrite filter_cons_True by done. cbn [dict_lookup]. by rewrite decide_True.
  - destruct (decide (P k')).
    + rewrite filter_cons_True by done. cbn [dict_lookup].
      by rewrite decide_False.
    + by rewrite filter_cons_False.
Qed.

Lemma fold_left_ext_in {A B} (f g : A → B → A) l a :
  (∀ x acc, x ∈ l → f acc x = g acc x) → fold_left f l a = fold_left g l a.
Proof.
  revert a. induction l as [|x l IH]; intros a Hfg; [done |].
  cbn [fold_left]. rewrite Hfg by set_solver. apply IH. set_solver.
Qed.

Lemma within_cols_lookup B c k :
  0 <= k < num_cols B →
  dict_lookup (elements (within_cols B)) (c, k) = dict_lookup (elements B) (c, k).
Proof.
  intros Hk.
  exact (dict_lookup_filter (λ key : key, 0 <= key.2 < num_cols B)
           (elements B) (c, k) Hk).
Qed.

Lemma multiply_item_within_cols B res item :
  multiply_item (within_cols B) res item = multiply_item B res item.
Proof.
  destruct item as [[row col] value]. unfold multiply_item.
  cbn [within_cols num_cols]. apply fold_left_ext_in.
  intros k acc Hk%elem_of_range. unfold multiply_step.
  by rewrite within_cols_lookup.
Qed.

Lemma multiply_step_keys Bd row col value res k key :
  key ∈ (multiply_step Bd row col value res k).*1 →
  key ∈ res.*1 ∨ key.2 = k.
Proof.
  unfold multiply_step. destruct (dict_lookup Bd (col, k)); [|by left].
  destruct (dict_lookup res (row, k)) eqn:Hres;
    rewrite dict_setitem_keys, Hres; [by left |].
  rewrite elem_of_app, list_elem_of_singleton. intros [?| ->]; auto.
Qed.

Lemma multiply_inner_keys Bd row col value ks res key :
  key ∈ (fold_left (multiply_step Bd row col value) ks res).*1 →
  key ∈ res.*1 ∨ key.2 ∈ ks.
Proof.
  revert res. induction ks as [|k ks IH]; intros res; [by left |].
  cbn [fold_left]. intros [Hin|?]%IH; [|set_solver].
  apply multiply_step_keys in Hin as [?| ->]; set_solver.
Qed.

Lemma multiply_keys_in_range B items res key :
  key ∈ (fold_left (multiply_item B) items res).*1 →
  key ∈ res.*1 ∨ (0 <= key.2 < num_cols B).
Proof.
  revert res. induction items as [|[[row col] value] items IH]; intros res;
    [by left |].
  cbn [fold_left]. intros [Hin|?]%IH; [|by right].
  apply multiply_inner_keys in Hin as [?|?%elem_of_range]; auto.
Qed.

(** C10.  Stored entries of [B] whose column lies outside
    [range(B.num_cols)] never take part in [multiply A B]: the call returns
    what it returns on [B] without those entries ([within_cols B], which
    reads as [B] inside the range and as 0 outside), and every key [(r, k)]
    of the result has [0 <= k < B.num_cols]. *)
Theorem multiply_ignores_columns_out_of_range A B :
  num_cols A = num_rows B →
  multiply A B = multiply A (within_cols B)
  ∧ (∀ c k, get_element (within_cols B) c k
            = if decide (0 <= k < num_cols B) then get_element B c k else 0)
  ∧ ∃ R, multiply A B = Ok R
      ∧ ∀ r k, is_Some (dict_lookup (elements R) (r, k)) → 0 <= k < num_cols B.
Proof.
  intros Hdim. split_and!.
  - rewrite !multiply_Ok by done. cbn [within_cols num_cols]. do 2 f_equal.
    apply fold_left_ext_in. intros item acc _.
    symmetry. apply multiply_item_within_cols.
  - intros c k. unfold get_element, dict_get. case_decide as Hk.
    + by rewrite within_cols_lookup.
    + destruct (dict_lookup _ _) as [v|] eqn:Hv; [|done].
      apply dict_lookup_elem_of in Hv. cbn [within_cols elements] in Hv.
      apply list_elem_of_filter in Hv as [? _]. done.
  - eexists. split; [by apply multiply_Ok |]. cbn [elements].
    intros r k [v Hv]. apply dict_lookup_elem_of in Hv.
    apply (list_elem_of_fmap_2 fst) in Hv.
    apply multiply_keys_in_range in Hv as [[]%elem_of_nil|?]. done.
Qed.

Lemma multiply_ignores_columns_out_of_range_witness :
  multiply
    {| num_rows := 1; num_cols := 1; elements := [((0, 0), 2)] |}
    {| num_rows := 1; num_cols := 1; elements := [((0, 0), 3); ((0, 5), 9)] |}
  = multiply
      {| num_rows := 1; num_cols := 1; elements := [((0, 0), 2)] |}
      {| num_rows := 1; num_cols := 1; elements := [((0, 0), 3)] |}.
Proof.
  exact (proj1 (multiply_ignores_columns_out_of_range
                  {| num_rows := 1; num_cols := 1; elements := [((0, 0), 2)] |}
                  {| num_rows := 1; num_cols := 1;
                     elements := [((0, 0), 3); ((0, 5), 9)] |} eq_refl)).
Defined.

Lemma dims_differ_false A B :
  num_rows A = num_rows B → num_cols A = num_cols B → dims_differ A B = false.
Proof.
  intros Hr Hc. unfold dims_differ.
  by rewrite !bool_decide_eq_false_2 by auto.
Qed.

Lemma dims_differ_true A B :
  num_rows A ≠ num_rows B ∨ num_cols A ≠ num_cols B → dims_differ A B = true.
Proof.
  unfold dims_differ. intros [H|H].
  - by rewrite (bool_decide_eq_true_2 _ H).
  - rewrite (bool_decide_eq_true_2 _ H). apply orb_true_r.
Qed.

Lemma dims_cases A B :
  (num_rows A = num_rows B ∧ num_cols A = num_cols B)
  ∨ (num_rows A ≠ num_rows B ∨ num_cols A ≠ num_cols B).
Proof. lia. Qed.

Lemma add_cases A B :
  (num_rows A = num_rows B ∧ num_cols A = num_cols B
   ∧ ∃ R, add A B = Ok R ∧ num_rows R = num_rows A ∧ num_cols R = num_cols A)
  ∨ ((num_rows A ≠ num_rows B ∨ num_cols A ≠ num_cols B)
     ∧ add A B
       = Raise (ValueError "Matrices dimensions do not match for addition.")).
Proof.
  unfold add. destruct (dims_cases A B) as [[Hr Hc]|Hne].
  - left. rewrite dims_differ_false by done. eauto 10.
  - right. by rewrite dims_differ_true.
Qed.

Lemma subtract_cases A B :
  (num_rows A = num_rows B ∧ num_cols A = num_cols B
   ∧ ∃ R, subtract A B = Ok R
          ∧ num_rows R = num_rows A ∧ num_cols R = num_cols A)
  ∨ ((num_rows A ≠ num_rows B ∨ num_cols A ≠ num_cols B)
     ∧ subtract A B
       = Raise (ValueError "Matrices dimensions do not match for subtraction.")).
Proof.
  unfold subtract. destruct (dims_cases A B) as [[Hr Hc]|Hne].
  - left. rewrite dims_differ_false by done. eauto 10.
  - right. by rewrite dims_differ_true.
Qed.

Lemma multiply_cases A B :
  (num_cols A = num_rows B
   ∧ ∃ R, multiply A B = Ok R
          ∧ num_rows R = num_rows A ∧ num_cols R = num_cols B)
  ∨ (num_cols A ≠ num_rows B
     ∧ multiply A B
       = Raise (ValueError
                  "Matrices dimensions do not match for multiplication.")).
Proof.
  unfold multiply. destruct (decide (num_cols A = num_rows B)) as [Hm|Hm].
  - left. rewrite bool_decide_eq_false_2 by auto. eauto 10.
  - right. by rewrite bool_decide_eq_true_2.
Qed.

(** C4.  [add] and [subtract] raise their dimension [ValueError] exactly
    when the row counts or the column counts differ, [multiply] exactly when
    [A.num_cols <> B.num_rows], and they raise nothing else; they return a
    matrix exactly in the other case, of dimensions [(A.num_rows,
    A.num_cols)] for [add] and [subtract] and [(A.num_rows, B.num_cols)] for
    [multiply].  A call yields either the exception or the matrix, never
    both. *)
Theorem dimension_check A B :
  (∀ e, add A B = Raise e ↔
     e = ValueError "Matrices dimensions do not match for addition."
     ∧ (num_rows A ≠ num_rows B ∨ num_cols A ≠ num_cols B))
  ∧ (∀ e, subtract A B = Raise e ↔
     e = ValueError "Matrices dimensions do not match for subtraction."
     ∧ (num_rows A ≠ num_rows B ∨ num_cols A ≠ num_cols B))
  ∧ (∀ e, multiply A B = Raise e ↔
     e = ValueError "Matrices dimensions do not match for multiplication."
     ∧ num_cols A ≠ num_rows B)
  ∧ ((∃ R, add A B = Ok R ∧ num_rows R = num_rows A ∧ num_cols R = num_cols A) ↔
     num_rows A = num_rows B ∧ num_cols A = num_cols B)
  ∧ ((∃ R, subtract A B = Ok R
           ∧ num_rows R = num_rows A ∧ num_cols R = num_cols A) ↔
     num_rows A = num_rows B ∧ num_cols A = num_cols B)
  ∧ ((∃ R, multiply A B = Ok R
           ∧ num_rows R = num_rows A ∧ num_cols R = num_cols B) ↔
     num_cols A = num_rows B).
Proof.
  pose proof (add_cases A B) as Hadd.
  pose proof (subtract_cases A B) as Hsub.
  pose proof (multiply_cases A B) as Hmul.
  split_and!.
  - intros e. destruct Hadd as [(?&?&R&->&?)|[? ->]]; naive_solver.
  - intros e. destruct Hsub as [(?&?&R&->&?)|[? ->]]; naive_solver.
  - intros e. destruct Hmul as [(?&R&->&?)|[? ->]]; naive_solver.
  - destruct Hadd as [(?&?&R&->&?)|[? ->]]; naive_solver.
  - destruct Hsub as [(?&?&R&->&?)|[? ->]]; naive_solver.
  - destruct Hmul as [(?&R&->&?)|[? ->]]; naive_solver.
Qed.

Lemma dimension_check_witness :
  ∃ R, multiply
         {| num_rows := 2; num_cols := 3; elements := [((0, 0), 1)] |}
         {| num_rows := 3; num_cols := 4; elements := [((0, 1), 5)] |} = Ok R
       ∧ num_rows R = 2 ∧ num_cols R = 4.
Proof.
  destruct (dimension_check
              {| num_rows := 2; num_cols := 3; elements := [((0, 0), 1)] |}
              {| num_rows := 3; num_cols := 4; elements := [((0, 1), 5)] |})
    as (_ & _ & _ & _ & _ & Hmul).
  exact (proj2 Hmul eq_refl).
Defined.

(** ** Unique keys are an invariant

    Every dictionary the module builds has unique keys, so [dict_wf] is a
    property of all the matrices a program can hold. *)

Lemma multiply_item_wf B res item :
  dict_wf res → dict_wf (multiply_item B res item).
Proof.
  destruct item as [[row col] value]. unfold multiply_item.
  generalize (range (num_cols B)). intros ks. revert res.
  induction ks as [|k ks IH]; intros res Hwf; [done |].
  cbn [fold_left]. apply IH. unfold multiply_step.
  repeat case_match; auto using dict_setitem_wf.
Qed.

Lemma apply_wf op A B R :
  dict_wf (elements A) → apply op A B = Ok R → dict_wf (elements R).
Proof.
  intros HA. destruct op; cbn [apply].
  - unfold add. case_match; [done |]. intros [= <-]. cbn [elements].
    by apply (merge_wf Z.add id add_item add_item_eq).
  - unfold subtract. case_match; [done |]. intros [= <-]. cbn [elements].
    by apply (merge_wf Z.sub Z.opp subtract_item subtract_item_eq).
  - unfold multiply. case_match; [done |]. intros [= <-]. cbn [elements].
    generalize (elements A). intros items.
    assert (dict_wf []) as Hnil by apply NoDup_nil_2. revert Hnil.
    generalize (@nil (key * Z)). induction items as [|item items IH];
      intros res Hres; [done |].
    cbn [fold_left]. by apply IH, multiply_item_wf.
Qed.

Lemma set_element_wf M row col value :
  dict_wf (elements M) → dict_wf (elements (set_element M row col value)).
Proof. apply dict_setitem_wf. Qed.

(** ** Objects: the methods on a store *)

Section obj_facts.
Import Obj.
Implicit Types (σ : store) (d : dict).

Lemma bind_run {A B} (m : M A) (f : A → M B) σ a σ' :
  m σ = (Ok a, σ') → (m ≫= f) σ = f a σ'.
Proof. unfold mbind, M_bind, bind. by intros ->. Qed.

Lemma fresh_lookup σ : σ !! fresh (dom σ) = None.
Proof. apply not_elem_of_dom, is_fresh. Qed.

Lemma matrix_attrs_run σ self r c e :
  σ !! self = Some (MatrixObj r c e) → matrix_attrs self σ = (Ok (r, c, e), σ).
Proof. unfold matrix_attrs. by intros ->. Qed.

Lemma elements_of_run σ self r c e :
  σ !! self = Some (MatrixObj r c e) → elements_of self σ = (Ok e, σ).
Proof.
  intros H. unfold elements_of.
  by rewrite (bind_run _ _ _ _ _ (matrix_attrs_run _ _ _ _ _ H)).
Qed.

Lemma read_dict_run σ e d :
  σ !! e = Some (DictObj d) → read_dict e σ = (Ok d, σ).
Proof. unfold read_dict. by intros ->. Qed.

Lemma write_dict_run σ e d d' :
  σ !! e = Some (DictObj d) →
  write_dict e d' σ = (Ok (), <[e := DictObj d']> σ).
Proof. unfold write_dict. by intros ->. Qed.

Lemma set_elements_run σ self r c e e' :
  σ !! self = Some (MatrixObj r c e) →
  set_elements self e' σ = (Ok (), <[self := MatrixObj r c e']> σ).
Proof. unfold set_elements. by intros ->. Qed.

Lemma value_of_Some σ self M :
  value_of σ self = Some M ↔
  ∃ e, σ !! self = Some (MatrixObj (num_rows M) (num_cols M) e)
       ∧ σ !! e = Some (DictObj (elements M)).
Proof.
  unfold value_of. split.
  - destruct (σ !! self) as [[|r c e]|]; try done.
    destruct (σ !! e) as [[d|]|] eqn:He; try done.
    intros [= <-]. eauto.
  - intros (e & -> & ->). by destruct M.
Qed.

Lemma value_of_weaken σ σ' self M :
  σ ⊆ σ' → value_of σ self = Some M → value_of σ' self = Some M.
Proof.
  rewrite !value_of_Some. intros Hsub (e & H1 & H2).
  exists e. eauto using lookup_weaken.
Qed.

(** A loop that rewrites the dictionary at [er] with [step]. *)
Lemma for_each_dict_run {A} (body : A → M ()) (step : dict → A → dict)
    (xs : list A) (er : ref) σ d :
  σ !! er = Some (DictObj d) →
  (∀ x d', x ∈ xs →
     body x (<[er := DictObj d']> σ)
     = (Ok (), <[er := DictObj (step d' x)]> σ)) →
  for_each xs body σ = (Ok (), <[er := DictObj (fold_left step xs d)]> σ).
Proof.
  revert σ d. induction xs as [|x xs IH]; intros σ d Her Hbody.
  - cbn [for_each fold_left]. by rewrite insert_id.
  - cbn [for_each fold_left].
    assert (body x σ = (Ok (), <[er := DictObj (step d x)]> σ)) as Hx.
    { rewrite <-(insert_id σ er (DictObj d)) at 1 by done.
      apply Hbody. set_solver. }
    rewrite (bind_run _ _ _ _ _ Hx).
    rewrite (IH _ (step d x)).
    + by rewrite insert_insert_eq.
    + apply lookup_insert_eq.
    + intros y d' Hy. rewrite !insert_insert_eq. apply Hbody. set_solver.
Qed.
End obj_facts.

Section obj_arith.
Import Obj.
Implicit Types (σ : store) (d : dict).

Lemma lookup_Some_None_ne σ (i j : ref) x :
  σ !! i = Some x → σ !! j = None → i ≠ j.
Proof. congruence. Qed.

Lemma new_run σ r c :
  let e := fresh (dom σ) in
  let σ1 := <[e := DictObj []]> σ in
  let m := fresh (dom σ1) in
  new r c σ = (Ok m, <[m := MatrixObj r c e]> σ1).
Proof. done. Qed.

Lemma merge_run (update : dict → key * Z → dict) σ a b rA cA eA dA rB cB eB dB :
  σ !! a = Some (MatrixObj rA cA eA) → σ !! eA = Some (DictObj dA) →
  σ !! b = Some (MatrixObj rB cB eB) → σ !! eB = Some (DictObj dB) →
  returns_new σ
    ((result ← new rA cA;
      _ ← copy_elements result a;
      _ ← merge_items result b update;
      ret result) σ)
    rA cA (fold_left update dB dA).
Proof.
  intros Ha HeA Hb HeB.
  pose proof (new_run σ rA cA) as Hnew. cbv zeta in Hnew.
  set (e0 := fresh (dom σ)) in *.
  set (σ1 := <[e0 := DictObj []]> σ) in *.
  set (m := fresh (dom σ1)) in *.
  set (σ2 := <[m := MatrixObj rA cA e0]> σ1) in *.
  set (e' := fresh (dom σ2)).
  set (σ3 := <[e' := DictObj dA]> σ2).
  set (σ4 := <[m := MatrixObj rA cA e']> σ3).
  assert (σ !! e0 = None) as He0 by apply fresh_lookup.
  assert (σ1 !! m = None) as Hm1 by apply fresh_lookup.
  assert (σ2 !! e' = None) as He'2 by apply fresh_lookup.
  assert (σ ⊆ σ1) as H01 by by apply insert_subseteq.
  assert (σ1 ⊆ σ2) as H12 by by apply insert_subseteq.
  assert (σ2 ⊆ σ3) as H23 by by apply insert_subseteq.
  assert (σ ⊆ σ2) as H02 by by etrans.
  assert (σ !! m = None) as Hm0 by eauto using lookup_weaken_None.
  assert (σ !! e' = None) as He'0 by eauto using lookup_weaken_None.
  assert (σ2 !! m = Some (MatrixObj rA cA e0)) as Hm2 by apply lookup_insert_eq.
  assert (e' ≠ m) as Hne by (intros ->; congruence).
  assert (σ ⊆ σ4) as H04.
  { apply insert_subseteq_r; [done |]. by etrans. }
  assert (σ4 !! e' = Some (DictObj dA)) as He'4.
  { unfold σ4. rewrite lookup_insert_ne by done. apply lookup_insert_eq. }
  assert (σ4 !! m = Some (MatrixObj rA cA e')) as Hm4 by apply lookup_insert_eq.
  exists m, e'. eexists. split_and!; [|done|done| | |].
  - rewrite (bind_run _ _ _ _ _ Hnew).
    erewrite bind_run; cycle 1.
    { unfold copy_elements.
      erewrite bind_run by (eapply elements_of_run, lookup_weaken; eauto).
      erewrite bind_run by (eapply read_dict_run, lookup_weaken; eauto).
      erewrite bind_run by reflexivity.
      eapply set_elements_run.
      apply (lookup_weaken σ2 σ3); [exact Hm2 | exact H23]. }
    erewrite bind_run; cycle 1.
    { unfold merge_items.
      erewrite bind_run by (eapply elements_of_run, lookup_weaken; eauto).
      erewrite bind_run by (eapply read_dict_run, lookup_weaken; eauto).
      apply (for_each_dict_run _ update _ e' _ dA); [done |].
      intros x d' _.
      erewrite bind_run; cycle 1.
      { eapply elements_of_run. by rewrite lookup_insert_ne. }
      erewrite bind_run by (eapply read_dict_run, lookup_insert_eq).
      erewrite write_dict_run by apply lookup_insert_eq.
      by rewrite insert_insert_eq. }
    reflexivity.
  - by apply insert_subseteq_r.
  - by rewrite lookup_insert_ne.
  - apply lookup_insert_eq.
Qed.

Lemma multiply_run σ a b rA cA eA dA (B : SparseMatrix) eB :
  σ !! a = Some (MatrixObj rA cA eA) → σ !! eA = Some (DictObj dA) →
  σ !! b = Some (MatrixObj (num_rows B) (num_cols B) eB) →
  σ !! eB = Some (DictObj (elements B)) →
  returns_new σ
    ((result ← new rA (num_cols B);
      items ← read_dict eA;
      _ ← for_each items (λ '((row, col), value),
           '(_, n, _) ← matrix_attrs b;
           for_each (range n) (λ k,
             eo ← elements_of b;
             od ← read_dict eo;
             if dict_lookup od (col, k) is Some _ then
               er ← elements_of result;
               d ← read_dict er;
               write_dict er (multiply_step od row col value d k)
             else ret ()));
      ret result) σ)
    rA (num_cols B) (fold_left (multiply_item B) dA []).
Proof.
  intros Ha HeA Hb HeB.
  pose proof (new_run σ rA (num_cols B)) as Hnew. cbv zeta in Hnew.
  set (e0 := fresh (dom σ)) in *.
  set (σ1 := <[e0 := DictObj []]> σ) in *.
  set (m := fresh (dom σ1)) in *.
  set (σ2 := <[m := MatrixObj rA (num_cols B) e0]> σ1) in *.
  assert (σ !! e0 = None) as He0 by apply fresh_lookup.
  assert (σ1 !! m = None) as Hm1 by apply fresh_lookup.
  assert (σ ⊆ σ1) as H01 by by apply insert_subseteq.
  assert (σ1 ⊆ σ2) as H12 by by apply insert_subseteq.
  assert (σ ⊆ σ2) as H02 by by etrans.
  assert (σ !! m = None) as Hm0 by eauto using lookup_weaken_None.
  assert (m ≠ e0) as Hne.
  { intros Heq. rewrite Heq in Hm1. unfold σ1 in Hm1.
    by rewrite lookup_insert_eq in Hm1. }
  assert (σ2 !! e0 = Some (DictObj [])) as He02.
  { unfold σ2. rewrite lookup_insert_ne by done. apply lookup_insert_eq. }
  assert (σ2 !! m = Some (MatrixObj rA (num_cols B) e0)) as Hm2
    by apply lookup_insert_eq.
  assert (b ≠ e0) as Hb0 by eauto using lookup_Some_None_ne.
  assert (eB ≠ e0) as HeB0 by eauto using lookup_Some_None_ne.
  exists m, e0. eexists. split_and!; [|done|done| | |].
  - rewrite (bind_run _ _ _ _ _ Hnew).
    erewrite bind_run by (eapply read_dict_run, lookup_weaken; eauto).
    erewrite bind_run; cycle 1.
    { apply (for_each_dict_run _ (multiply_item B) _ e0 _ []); [done |].
      intros [[row col] value] d' _.
      erewrite bind_run; cycle 1.
      { eapply matrix_attrs_run. rewrite lookup_insert_ne by done.
        eapply lookup_weaken; eauto. }
      cbv beta iota.
      erewrite (for_each_dict_run _
                  (multiply_step (elements B) row col value) _ e0 _ d').
      + by rewrite insert_insert_eq.
      + apply lookup_insert_eq.
      + intros k d'' _. rewrite !insert_insert_eq.
        erewrite bind_run; cycle 1.
        { eapply elements_of_run. rewrite lookup_insert_ne by done.
          eapply lookup_weaken; eauto. }
        erewrite bind_run; cycle 1.
        { eapply read_dict_run. rewrite lookup_insert_ne by done.
          eapply lookup_weaken; eauto. }
        destruct (dict_lookup (elements B) (col, k)) as [b'|] eqn:Hb'.
        * erewrite bind_run; cycle 1.
          { eapply elements_of_run. by rewrite lookup_insert_ne. }
          erewrite bind_run by (eapply read_dict_run, lookup_insert_eq).
          erewrite write_dict_run by apply lookup_insert_eq.
          by rewrite insert_insert_eq.
        * unfold multiply_step. by rewrite Hb'. }
    reflexivity.
  - apply insert_subseteq_r; [done |]. by apply insert_subseteq_r.
  - by rewrite lookup_insert_ne.
  - apply lookup_insert_eq.
Qed.

End obj_arith.

(** The methods on instances compute the values of the value-level
    methods, in a store that extends the one they started from. *)
Lemma apply_run op (σ : Obj.store) a b A B :
  Obj.value_of σ a = Some A → Obj.value_of σ b = Some B →
  match apply op A B with
  | Ok R =>
      Obj.returns_new σ (Obj.apply op a b σ)
        (num_rows R) (num_cols R) (elements R)
  | Raise e => Obj.apply op a b σ = (Raise e, σ)
  end.
Proof.
  intros (eA & Ha & HeA)%value_of_Some (eB & Hb & HeB)%value_of_Some.
  destruct op; cbn [apply Obj.apply].
  - unfold add, Obj.add, dims_differ.
    rewrite (bind_run _ _ _ _ _ (matrix_attrs_run _ _ _ _ _ Ha)).
    rewrite (bind_run _ _ _ _ _ (matrix_attrs_run _ _ _ _ _ Hb)).
    destruct (_ || _); [done |]. cbn [num_rows num_cols elements].
    eapply merge_run; eauto.
  - unfold subtract, Obj.subtract, dims_differ.
    rewrite (bind_run _ _ _ _ _ (matrix_attrs_run _ _ _ _ _ Ha)).
    rewrite (bind_run _ _ _ _ _ (matrix_attrs_run _ _ _ _ _ Hb)).
    destruct (_ || _); [done |]. cbn [num_rows num_cols elements].
    eapply merge_run; eauto.
  - unfold multiply, Obj.multiply.
    rewrite (bind_run _ _ _ _ _ (matrix_attrs_run _ _ _ _ _ Ha)).
    rewrite (bind_run _ _ _ _ _ (matrix_attrs_run _ _ _ _ _ Hb)).
    destruct (bool_decide _); [done |]. cbn [num_rows num_cols elements].
    eapply multiply_run; eauto.
Qed.

Lemma set_element_run (σ : Obj.store) self M row col value :
  Obj.value_of σ self = Some M →
  ∃ e, σ !! self = Some (Obj.MatrixObj (num_rows M) (num_cols M) e)
    ∧ σ !! e = Some (Obj.DictObj (elements M)) ∧ self ≠ e
    ∧ Obj.set_element self row col value σ
      = (Ok (), <[e := Obj.DictObj (elements (set_element M row col value))]> σ).
Proof.
  intros (e & Hself & He)%value_of_Some. exists e. split_and!; [done.. | |].
  - intros ->. congruence.
  - unfold Obj.set_element.
    rewrite (bind_run _ _ _ _ _ (elements_of_run _ _ _ _ _ Hself)).
    rewrite (bind_run _ _ _ _ _ (read_dict_run _ _ _ He)).
    by rewrite (write_dict_run _ _ _ _ He).
Qed.

Lemma get_element_run (σ : Obj.store) self M row col :
  Obj.value_of σ self = Some M →
  Obj.get_element self row col σ = (Ok (get_element M row col), σ).
Proof.
  intros (e & Hself & He)%value_of_Some. unfold Obj.get_element.
  rewrite (bind_run _ _ _ _ _ (elements_of_run _ _ _ _ _ Hself)).
  by rewrite (bind_run _ _ _ _ _ (read_dict_run _ _ _ He)).
Qed.

(** C9.  On any instance and for any integers [row], [col] (negative or
    beyond the declared dimensions included), [get_element] returns the
    stored value, or 0 when the coordinate is absent, leaves the store as it
    was and does not raise; [set_element] does not raise either, and after
    it the instance has the same dimensions, [value] at [(row, col)]
    (inserted or overwritten, whatever the dimensions) and every other
    entry as before. *)
Theorem get_set_element_unchecked (σ : Obj.store) self M row col :
  Obj.value_of σ self = Some M →
  Obj.get_element self row col σ = (Ok (get_element M row col), σ)
  ∧ get_element M row col
    = match dict_lookup (elements M) (row, col) with Some v => v | None => 0 end
  ∧ ∀ value, ∃ σ',
      Obj.set_element self row col value σ = (Ok (), σ')
      ∧ Obj.value_of σ' self = Some (set_element M row col value)
      ∧ num_rows (set_element M row col value) = num_rows M
      ∧ num_cols (set_element M row col value) = num_cols M
      ∧ dict_lookup (elements (set_element M row col value)) (row, col)
        = Some value
      ∧ ∀ k, k ≠ (row, col) →
          dict_lookup (elements (set_element M row col value)) k
          = dict_lookup (elements M) k.
Proof.
  intros HM. split_and!.
  - by apply get_element_run.
  - unfold get_element, dict_get. by destruct (dict_lookup _ _).
  - intros value.
    destruct (set_element_run σ self M row col value HM)
      as (e & Hself & He & Hne & ->).
    eexists. split_and!; [done | | done | done | |].
    + apply value_of_Some. exists e. cbn [set_element num_rows num_cols elements].
      rewrite lookup_insert_ne by done. split; [done |].
      apply lookup_insert_eq.
    + apply dict_lookup_setitem_eq.
    + intros k Hk. by apply dict_lookup_setitem_ne.
Qed.

Lemma get_set_element_unchecked_witness :
  let σ : Obj.store :=
    {[ 0%nat := Obj.MatrixObj 2 2 1; 1%nat := Obj.DictObj [((0, 1), 7)] ]} in
  Obj.get_element 0 5 (-3) σ = (Ok 0, σ)
  ∧ ∃ σ', Obj.set_element 0 5 (-3) 9 σ = (Ok (), σ')
          ∧ Obj.get_element 0 5 (-3) σ' = (Ok 9, σ').
Proof.
  intros σ.
  destruct (get_set_element_unchecked σ 0%nat
              {| num_rows := 2; num_cols := 2; elements := [((0, 1), 7)] |}
              5 (-3) eq_refl) as (Hget & _ & Hset).
  split; [exact Hget |].
  destruct (Hset 9) as (σ' & Hrun & Hval & _).
  exists σ'. split; [exact Hrun |].
  exact (get_element_run σ' 0%nat _ 5 (-3) Hval).
Defined.

(** C7.  [add], [subtract] and [multiply] on two instances [a] and [b]
    (which may be the same, or share a dictionary) change no object of the
    store they start from: every object is what it was, so both operands
    keep their dimensions and entries.  On success the result is a new
    instance with a new dictionary of its own, holding the value of the
    value-level method; and a later [set_element] on the result still
    leaves every earlier object, the operands among them, unchanged.  On a
    dimension error the store is untouched. *)
Theorem arithmetic_preserves_operands op (σ : Obj.store) a b A B :
  Obj.value_of σ a = Some A → Obj.value_of σ b = Some B →
  ∃ res σ',
    Obj.apply op a b σ = (res, σ')
    ∧ σ ⊆ σ'
    ∧ Obj.value_of σ' a = Some A ∧ Obj.value_of σ' b = Some B
    ∧ match res with
      | Raise e => apply op A B = Raise e ∧ σ' = σ
      | Ok m =>
          ∃ R e, apply op A B = Ok R
            ∧ σ !! m = None ∧ σ !! e = None
            ∧ σ' !! m = Some (Obj.MatrixObj (num_rows R) (num_cols R) e)
            ∧ σ' !! e = Some (Obj.DictObj (elements R))
            ∧ ∀ row col value, ∃ σ'',
                Obj.set_element m row col value σ' = (Ok (), σ'')
                ∧ σ ⊆ σ''
                ∧ Obj.value_of σ'' a = Some A ∧ Obj.value_of σ'' b = Some B
      end.
Proof.
  intros Ha Hb. pose proof (apply_run op σ a b A B Ha Hb) as Hrun.
  destruct (apply op A B) as [R|exn].
  - destruct Hrun as (m & e & σ' & -> & Hm & He & Hsub & Hm' & He').
    exists (Ok m), σ'. split_and!; eauto using value_of_weaken.
    exists R, e. split_and!; [done.. |]. intros row col value.
    assert (Obj.value_of σ' m = Some R) as HR.
    { apply value_of_Some. eauto. }
    destruct (set_element_run σ' m R row col value HR)
      as (e2 & Hm2 & He2 & _ & ->).
    assert (e2 = e) as -> by congruence.
    assert (σ ⊆ <[e := Obj.DictObj (elements (set_element R row col value))]> σ')
      as Hsub' by by apply insert_subseteq_r.
    eexists. split_and!; eauto using value_of_weaken.
  - exists (Raise exn), σ. by rewrite Hrun.
Qed.

Lemma arithmetic_preserves_operands_witness :
  let A := {| num_rows := 2; num_cols := 2; elements := [((0, 1), 7)] |} in
  let σ : Obj.store :=
    {[ 0%nat := Obj.MatrixObj 2 2 1; 1%nat := Obj.DictObj [((0, 1), 7)] ]} in
  ∃ res σ', Obj.apply Add 0%nat 0%nat σ = (res, σ')
            ∧ Obj.value_of σ' 0%nat = Some A.
Proof.
  intros A σ.
  destruct (arithmetic_preserves_operands Add σ 0%nat 0%nat A A eq_refl eq_refl)
    as (res & σ' & Hrun & _ & HA & _).
  exists res, σ'. exact (conj Hrun HA).
Defined.

(** ** Characters and strings *)

Lemma is_digit_ord c : is_digit c = true ↔ 48 <= ord c <= 57.
Proof. unfold is_digit. rewrite andb_true_iff, !Z.leb_le. done. Qed.

Lemma ord_eqb c1 c2 : Ascii.eqb c1 c2 = bool_decide (ord c1 = ord c2).
Proof.
  destruct (Ascii.eqb_spec c1 c2) as [->|Hne].
  - by rewrite bool_decide_eq_true_2.
  - rewrite bool_decide_eq_false_2; [done |]. intros Heq. apply Hne.
    unfold ord in Heq. apply N2Z.inj in Heq.
    by rewrite <-(ascii_N_embedding c1), <-(ascii_N_embedding c2), Heq.
Qed.

Lemma ord_digit_char d : 0 <= d <= 9 → ord (digit_char d) = d + 48.
Proof.
  intros Hd. unfold ord, digit_char.
  rewrite N_ascii_embedding by lia. lia.
Qed.

Lemma is_digit_digit_char d : 0 <= d <= 9 → is_digit (digit_char d) = true.
Proof. intros Hd. apply is_digit_ord. rewrite ord_digit_char; lia. Qed.

Lemma digit_value_digit_char d : 0 <= d <= 9 → digit_value (digit_char d) = d.
Proof. intros Hd. unfold digit_value. rewrite ord_digit_char; lia. Qed.

Lemma int_char_ord c : int_char c → ord c = 45 ∨ 48 <= ord c <= 57.
Proof. intros [->|?%is_digit_ord]; [by left | by right]. Qed.

Lemma int_char_not_space c : int_char c → isspace c = false.
Proof.
  intros Hc%int_char_ord. unfold isspace. cbv zeta.
  repeat match goal with
         | |- context [?a <=? ?b] => destruct (Z.leb_spec a b)
         | |- context [?a =? ?b] => destruct (Z.eqb_spec a b)
         end; simpl; try done; lia.
Qed.

Lemma int_char_ne c c' :
  int_char c → ord c' ≠ 45 → ¬ (48 <= ord c' <= 57) → Ascii.eqb c c' = false.
Proof.
  intros Hc%int_char_ord H1 H2. rewrite ord_eqb.
  apply bool_decide_eq_false_2. lia.
Qed.

(** ** Decimal rendering and [int()] *)

Lemma digits_value_snoc ds c acc :
  digits_value (ds ++ [c]) acc = 10 * digits_value ds acc + digit_value c.
Proof. unfold digits_value. by rewrite fold_left_app. Qed.

Lemma int_digits_all_digits ds acc p :
  Forall (λ c, is_digit c = true) ds → ds ≠ [] ∨ p = true →
  int_digits acc p ds = Some (digits_value ds acc).
Proof.
  intros Hds. revert acc p.
  induction Hds as [|c ds Hc Hds IH]; intros acc p Hp.
  - by destruct Hp as [?| ->].
  - cbn [int_digits]. rewrite Hc. apply IH. by right.
Qed.

Lemma digits_of_S fuel n acc :
  digits_of (S fuel) n acc
  = if n <? 10 then digit_char (n mod 10) :: acc
    else digits_of fuel (n / 10) (digit_char (n mod 10) :: acc).
Proof. done. Qed.

Lemma digits_of_spec f n acc :
  0 <= n < 10 ^ Z.of_nat (S f) →
  ∃ ds, digits_of (S f) n acc = ds ++ acc ∧ ds ≠ []
        ∧ Forall (λ c, is_digit c = true) ds ∧ digits_value ds 0 = n.
Proof.
  revert n acc. induction f as [|f IH]; intros n acc Hn.
  - change (10 ^ Z.of_nat 1) with 10 in Hn.
    rewrite digits_of_S, (proj2 (Z.ltb_lt n 10)) by lia.
    exists [digit_char (n mod 10)]. rewrite Z.mod_small by lia.
    split_and!; [done | done | |].
    + constructor; [|done]. apply is_digit_digit_char. lia.
    + unfold digits_value. cbn [fold_left].
      rewrite digit_value_digit_char; lia.
  - assert (0 <= n mod 10 <= 9) as Hmod by (pose proof (Z.mod_pos_bound n 10); lia).
    rewrite digits_of_S.
    destruct (Z.ltb_spec n 10) as [Hlt|Hge].
    + exists [digit_char (n mod 10)]. split_and!; [done | done | |].
      * constructor; [|done]. by apply is_digit_digit_char.
      * unfold digits_value. cbn [fold_left].
        rewrite digit_value_digit_char, Z.mod_small; lia.
    + destruct (IH (n / 10) (digit_char (n mod 10) :: acc)) as (ds & -> & ? & Hds & Hval).
      { split; [apply Z.div_pos; lia |].
        apply Z.div_lt_upper_bound; [lia |].
        rewrite (Nat2Z.inj_succ (S f)), Z.pow_succ_r in Hn by lia. lia. }
      exists (ds ++ [digit_char (n mod 10)]). split_and!.
      * by rewrite <-app_assoc.
      * by destruct ds.
      * apply Forall_app. split; [done |].
        constructor; [|done]. by apply is_digit_digit_char.
      * rewrite digits_value_snoc, Hval, digit_value_digit_char by done.
        pose proof (Z.div_mod n 10). lia.
Qed.

Lemma digits_fuel n : 0 <= n → n < 10 ^ Z.of_nat (S (Z.to_nat (Z.log2 n))).
Proof.
  intros Hn. rewrite Nat2Z.inj_succ, Z2Nat.id by apply Z.log2_nonneg.
  destruct (decide (n = 0)) as [->|?]; [done |].
  pose proof (Z.log2_spec n) as Hlog. pose proof (Z.log2_nonneg n).
  assert (2 ^ Z.succ (Z.log2 n) <= 10 ^ Z.succ (Z.log2 n)).
  { apply Z.pow_le_mono_l. lia. }
  lia.
Qed.

Lemma str_of_int_spec n :
  ∃ ds, str_of_int n = (if n <? 0 then ["-"%char] else []) ++ ds
        ∧ ds ≠ [] ∧ Forall (λ c, is_digit c = true) ds
        ∧ digits_value ds 0 = Z.abs n.
Proof.
  unfold str_of_int. destruct (Z.ltb_spec n 0) as [Hneg|Hpos].
  - destruct (digits_of_spec (Z.to_nat (Z.log2 (- n))) (- n) [])
      as (ds & -> & ? & ? & ?).
    { split; [lia | apply digits_fuel; lia]. }
    exists ds. rewrite app_nil_r. split_and!; [done.. | lia].
  - destruct (digits_of_spec (Z.to_nat (Z.log2 n)) n []) as (ds & -> & ? & ? & ?).
    { split; [lia | by apply digits_fuel]. }
    exists ds. rewrite app_nil_r. split_and!; [done.. | lia].
Qed.

Lemma str_of_int_chars n : Forall int_char (str_of_int n).
Proof.
  destruct (str_of_int_spec n) as (ds & -> & _ & Hds & _).
  apply Forall_app. split.
  - destruct (n <? 0); [|done]. constructor; [by left | done].
  - eapply Forall_impl; [done |]. intros c ?. by right.
Qed.

Lemma str_of_int_cons n : ∃ c s, str_of_int n = c :: s.
Proof.
  destruct (str_of_int_spec n) as (ds & -> & ? & _).
  destruct (n <? 0), ds; naive_solver.
Qed.

Lemma drop_while_app_stop {A} (p : A → bool) ws x s :
  Forall (λ c, p c = true) ws → p x = false →
  drop_while p (ws ++ x :: s) = x :: s.
Proof.
  intros Hws Hx. induction Hws as [|c ws Hc _ IH]; cbn [drop_while app].
  - by rewrite Hx.
  - by rewrite Hc.
Qed.

Lemma int_char_not_int_space c : int_char c → int_isspace c = false.
Proof.
  intros Hc%int_char_ord. unfold int_isspace. cbv zeta.
  repeat match goal with
         | |- context [?a <=? ?b] => destruct (Z.leb_spec a b)
         | |- context [?a =? ?b] => destruct (Z.eqb_spec a b)
         end; simpl; try done; lia.
Qed.

(** [int()] reads back what [str()] wrote, also after leading blanks. *)
Lemma int_str_of_int ws n :
  Forall (λ c, int_isspace c = true) ws → int (ws ++ str_of_int n) = Ok n.
Proof.
  intros Hws. pose proof (str_of_int_chars n) as Hchars.
  destruct (str_of_int_spec n) as (ds & Heq & Hne & Hds & Hval).
  unfold int. rewrite Heq in Hchars |- *.
  destruct (Z.ltb_spec n 0) as [Hneg|Hpos]; cbn [app].
  - rewrite drop_while_app_stop by done.
    change (Ascii.eqb "-" "-") with true. cbv iota beta.
    rewrite int_digits_all_digits by auto. rewrite Hval. f_equal. lia.
  - destruct ds as [|d ds]; [done |]. apply Forall_cons in Hds as [Hd Hds].
    rewrite drop_while_app_stop;
      [|done | apply int_char_not_int_space; by right].
    apply is_digit_ord in Hd as Hord.
    rewrite !ord_eqb, !bool_decide_eq_false_2
      by (change (ord "-") with 45; change (ord "+") with 43; lia).
    cbv iota beta.
    rewrite int_digits_all_digits; [|by constructor; [apply is_digit_ord|]|by left].
    rewrite Hval. f_equal. lia.
Qed.

(** ** Stripping, splitting, lines *)

Lemma lstrip_id s c : head s = Some c → isspace c = false → lstrip s = s.
Proof. destruct s; intros [= ->] Hc; unfold lstrip; cbn. by rewrite Hc. Qed.

Lemma rstrip_id s c : last s = Some c → isspace c = false → rstrip s = s.
Proof.
  intros Hlast Hc. unfold rstrip.
  destruct s as [|c0 s _] using rev_ind; [done |].
  rewrite last_snoc in Hlast. injection Hlast as ->.
  rewrite rev_unit. cbn [drop_while]. rewrite Hc.
  by rewrite <-rev_unit, rev_involutive.
Qed.

Lemma rstrip_snoc_space s c : isspace c = true → rstrip (s ++ [c]) = rstrip s.
Proof. intros Hc. unfold rstrip. rewrite rev_unit. cbn. by rewrite Hc. Qed.

Lemma strip_line s c1 c2 :
  head s = Some c1 → isspace c1 = false →
  last s = Some c2 → isspace c2 = false →
  strip (s ++ [LF]) = s.
Proof.
  intros. unfold strip. rewrite rstrip_snoc_space by done.
  erewrite rstrip_id by done. by eapply lstrip_id.
Qed.

Lemma split_no_sep sep s :
  Forall (λ c, Ascii.eqb c sep = false) s → split sep s = [s].
Proof.
  induction 1 as [|c s Hc _ IH]; [done |]. cbn [split]. by rewrite Hc, IH.
Qed.

Lemma split_app sep a rest :
  Forall (λ c, Ascii.eqb c sep = false) a →
  split sep (a ++ sep :: rest) = a :: split sep rest.
Proof.
  induction 1 as [|c s Hc _ IH]; cbn [split app].
  - by rewrite Ascii.eqb_refl.
  - by rewrite Hc, IH.
Qed.

Lemma translate_newlines_id s :
  Forall (λ c, Ascii.eqb c CR = false) s → translate_newlines false s = s.
Proof.
  induction 1 as [|c s Hc _ IH]; [done |]. cbn [translate_newlines].
  rewrite Hc, IH.
  destruct (Ascii.eqb c LF) eqn:Heq; [|done]. by apply Ascii.eqb_eq in Heq as ->.
Qed.

Lemma lines_keepends_app b rest :
  Forall (λ c, Ascii.eqb c LF = false) b →
  lines_keepends (b ++ LF :: rest) = (b ++ [LF]) :: lines_keepends rest.
Proof.
  induction 1 as [|c s Hc _ IH]; cbn [lines_keepends app].
  - by rewrite Ascii.eqb_refl.
  - by rewrite Hc, IH.
Qed.

Lemma mjoin_cons {A} (x : list A) (l : list (list A)) :
  mjoin (x :: l) = x ++ mjoin l.
Proof. done. Qed.

Lemma lines_keepends_join bodies :
  Forall (Forall (λ c, Ascii.eqb c LF = false)) bodies →
  lines_keepends (mjoin ((λ b, b ++ [LF]) <$> bodies))
  = (λ b, b ++ [LF]) <$> bodies.
Proof.
  induction 1 as [|b bodies Hb _ IH]; [done |].
  rewrite fmap_cons, mjoin_cons, <-app_assoc. cbn [app].
  by rewrite lines_keepends_app, IH.
Qed.

Lemma readlines_join bodies :
  Forall (Forall (λ c, Ascii.eqb c LF = false)) bodies →
  Forall (Forall (λ c, Ascii.eqb c CR = false)) bodies →
  readlines (mjoin ((λ b, b ++ [LF]) <$> bodies)) = (λ b, b ++ [LF]) <$> bodies.
Proof.
  intros HLF HCR. unfold readlines.
  rewrite translate_newlines_id; [by apply lines_keepends_join |].
  clear HLF. induction HCR as [|b bodies Hb _ IH]; [done |].
  rewrite fmap_cons, mjoin_cons, <-app_assoc.
  apply Forall_app. split; [done |]. by constructor.
Qed.

(** ** The formatter *)

Global Instance item_le_trans : Transitive item_le.
Proof. intros [[??]?] [[??]?] [[??]?]; unfold item_le; lia. Qed.

Global Instance item_le_total : Total item_le.
Proof. intros [[??]?] [[??]?]; unfold item_le; lia. Qed.

Lemma sorted_perm items : sorted items ≡ₚ items.
Proof. apply merge_sort_Permutation. Qed.

Lemma sorted_wf items : dict_wf items → dict_wf (sorted items).
Proof. unfold dict_wf. by rewrite sorted_perm. Qed.

Lemma sorted_keys_ascending items :
  dict_wf items → StronglySorted key_lt (sorted items).*1.
Proof.
  intros Hwf%sorted_wf.
  pose proof (StronglySorted_merge_sort item_le items) as Hs.
  fold (sorted items) in Hs. revert Hwf. unfold dict_wf.
  induction Hs as [|[[r c] v] l Hs IH Hall]; intros Hwf; [constructor |].
  rewrite fmap_cons in Hwf |- *. cbn [fst] in Hwf |- *.
  apply NoDup_cons in Hwf as [Hnotin Hwf].
  constructor; [by apply IH |].
  apply Forall_fmap, Forall_forall. intros [[r' c'] v'] Hin.
  rewrite Forall_forall in Hall. specialize (Hall _ Hin).
  assert ((r, c) ≠ (r', c')) as Hne.
  { intros [= -> ->]. apply Hnotin. by apply (list_elem_of_fmap_2 fst) in Hin. }
  unfold key_lt. cbn in Hall |- *.
  destruct (decide (r = r')), (decide (c = c')); [congruence | lia..].
Qed.

Lemma format_item_text item : format_item item = item_text item ++ [LF].
Proof.
  destruct item as [[r c] v]. unfold format_item, item_text. cbn [fst snd].
  by rewrite <-!app_assoc.
Qed.

Lemma fold_left_append (out : str) (chunks : list str) :
  fold_left (λ out chunk, out ++ chunk) chunks out = out ++ mjoin chunks.
Proof.
  revert out. induction chunks as [|x chunks IH]; intros out; cbn [fold_left].
  - by rewrite app_nil_r.
  - by rewrite IH, mjoin_cons, app_assoc.
Qed.

Lemma str_unfold M :
  __str__ M = format_header M ++ mjoin (format_item <$> sorted (elements M)).
Proof.
  unfold __str__. rewrite <-fold_left_append.
  generalize (format_header M). induction (sorted (elements M)) as [|x l IH];
    intros out; [done |].
  rewrite fmap_cons. cbn [fold_left]. apply IH.
Qed.

(** C6.  [__str__] produces [rows=<num_rows>], newline, [cols=<num_cols>],
    newline, then one line [(<row>, <col>, <value>)] with [", "] after the
    row and after the column and a newline at its end for every stored
    entry, those with value 0 included, the lines in strictly ascending
    order of [(row, col)], row first. *)
Theorem str_sorted_lines M :
  dict_wf (elements M) →
  ∃ items,
    items ≡ₚ elements M
    ∧ StronglySorted key_lt items.*1
    ∧ (∀ k, dict_lookup (elements M) k = Some 0 → (k, 0) ∈ items)
    ∧ __str__ M
      = txt "rows=" ++ str_of_int (num_rows M) ++ [LF]
        ++ txt "cols=" ++ str_of_int (num_cols M) ++ [LF]
        ++ mjoin ((λ item : key * Z,
                     txt "(" ++ str_of_int item.1.1 ++ txt ", "
                     ++ str_of_int item.1.2 ++ txt ", "
                     ++ str_of_int item.2 ++ txt ")" ++ [LF]) <$> items).
Proof.
  intros Hwf. exists (sorted (elements M)). split_and!.
  - apply sorted_perm.
  - by apply sorted_keys_ascending.
  - intros k Hk%dict_lookup_elem_of. by rewrite sorted_perm.
  - rewrite str_unfold. unfold format_header. rewrite <-!app_assoc.
    do 7 f_equal. apply list_fmap_ext. by intros _ [[r c] v] _.
Qed.

Lemma str_sorted_lines_witness :
  ∃ items,
    items ≡ₚ [((1, 1), -5); ((0, 12), 0); ((0, -3), 100)]
    ∧ StronglySorted key_lt items.*1
    ∧ (∀ k, dict_lookup [((1, 1), -5); ((0, 12), 0); ((0, -3), 100)] k = Some 0 →
            (k, 0) ∈ items)
    ∧ __str__ {| num_rows := 2; num_cols := 2;
                 elements := [((1, 1), -5); ((0, 12), 0); ((0, -3), 100)] |}
      = txt "rows=" ++ str_of_int 2 ++ [LF]
        ++ txt "cols=" ++ str_of_int 2 ++ [LF]
        ++ mjoin ((λ item : key * Z,
                     txt "(" ++ str_of_int item.1.1 ++ txt ", "
                     ++ str_of_int item.1.2 ++ txt ", "
                     ++ str_of_int item.2 ++ txt ")" ++ [LF]) <$> items).
Proof.
  apply (str_sorted_lines
           {| num_rows := 2; num_cols := 2;
              elements := [((1, 1), -5); ((0, 12), 0); ((0, -3), 100)] |}).
  refine (bool_decide_unpack _ _). vm_compute. exact I.
Defined.

(** ** Reading back what the formatter wrote *)

Lemma str_of_int_no c' n :
  Ascii.eqb c' "-" = false → is_digit c' = false →
  Forall (λ c, Ascii.eqb c c' = false) (str_of_int n).
Proof.
  intros Hminus Hdigit. eapply Forall_impl; [apply str_of_int_chars |].
  intros c Hc. apply int_char_ne; [done | |].
  - rewrite ord_eqb in Hminus. by apply bool_decide_eq_false_1 in Hminus.
  - intros ?%is_digit_ord. congruence.
Qed.

Lemma str_of_int_last n : ∃ c, last (str_of_int n) = Some c ∧ isspace c = false.
Proof.
  destruct (str_of_int_cons n) as (c0 & s & Heq).
  destruct (last (str_of_int n)) as [c|] eqn:Hlast.
  - exists c. split; [done |]. apply int_char_not_space.
    apply last_Some in Hlast as [l' Hl'].
    pose proof (str_of_int_chars n) as Hall. rewrite Hl' in Hall.
    by apply Forall_app in Hall as [_ [? _]%Forall_cons].
  - apply last_None in Hlast. congruence.
Qed.

(** Proves that a separator does not occur in a formatted line. *)
Ltac solve_no_char :=
  repeat first
    [ apply Forall_nil_2
    | apply Forall_cons; split; [reflexivity |]
    | apply Forall_app; split
    | apply str_of_int_no; reflexivity ].

Lemma int_str_of_int_plain n : int (str_of_int n) = Ok n.
Proof. apply (int_str_of_int []). constructor. Qed.

Lemma int_str_of_int_space n : int (" "%char :: str_of_int n) = Ok n.
Proof. apply (int_str_of_int [" "%char]). by constructor. Qed.

Lemma header_value_format name n i lines :
  Forall (λ c, Ascii.eqb c "=" = false) (txt name) →
  (∃ c, head (txt name) = Some c ∧ isspace c = false) →
  lines !! i = Some (header_text name n ++ [LF]) →
  header_value lines i = Ok n.
Proof.
  intros Hname (c1 & Hhead & Hc1) Hi. unfold header_value, index.
  rewrite Hi. cbn [mbind result_bind].
  destruct (str_of_int_last n) as (c2 & Hlast & Hc2).
  rewrite (strip_line _ c1 c2); [|
    |done
    |unfold header_text; by rewrite !last_app, Hlast
    |done].
  - unfold header_text. change (txt "=") with ["="%char]. cbn [app].
    rewrite split_app by done.
    rewrite split_no_sep by (apply str_of_int_no; reflexivity).
    cbn [lookup list_lookup]. apply int_str_of_int_plain.
  - unfold header_text. destruct (txt name); [done |]. done.
Qed.

Lemma endswith_snoc c s : endswith c (s ++ [c]) = true.
Proof. unfold endswith. rewrite rev_unit. cbn. apply Ascii.eqb_refl. Qed.

Lemma item_text_shape r c v :
  item_text ((r, c), v)
  = "("%char :: (str_of_int r ++ ","%char :: " "%char :: str_of_int c
                 ++ ","%char :: " "%char :: str_of_int v) ++ [")"%char].
Proof.
  unfold item_text. cbn [fst snd txt list_ascii_of_string app].
  by repeat (rewrite <-app_assoc; cbn [app]).
Qed.

Lemma load_line_format d item :
  load_line d (item_text item ++ [LF])
  = Ok (dict_setitem d item.1 item.2).
Proof.
  destruct item as [[r c] v]. unfold load_line.
  rewrite (strip_line _ "(" ")"); [|done | done | | done].
  2:{ rewrite item_text_shape, app_comm_cons. apply last_snoc. }
  rewrite item_text_shape.
  rewrite (app_comm_cons _ _ "("%char), endswith_snoc.
  cbn [startswith andb negb Ascii.eqb Bool.eqb app].
  unfold slice_1_m1. cbn [tail]. rewrite removelast_last.
  rewrite split_app by (apply str_of_int_no; reflexivity).
  change (" "%char :: str_of_int c ++ ?t) with ((" "%char :: str_of_int c) ++ t).
  rewrite (split_app _ (" "%char :: str_of_int c)) by solve_no_char.
  rewrite (split_no_sep _ (" "%char :: str_of_int v)) by solve_no_char.
  unfold unpack3_ints.
  by rewrite int_str_of_int_plain, !int_str_of_int_space.
Qed.

Lemma for_each_load_line_format items d :
  for_each ((λ b, b ++ [LF]) <$> (item_text <$> items)) load_line d
  = Ok (fold_left (λ d item, dict_setitem d item.1 item.2) items d).
Proof.
  revert d. induction items as [|item items IH]; intros d; [done |].
  rewrite !fmap_cons. cbn [for_each fold_left]. rewrite load_line_format.
  apply IH.
Qed.

Lemma dict_setitem_new (d : dict) k v :
  k ∉ d.*1 → dict_setitem d k v = d ++ [(k, v)].
Proof.
  induction d as [|[k' v'] d IH]; [done |].
  rewrite fmap_cons, not_elem_of_cons. cbn [fst]. intros [Hne Hnotin].
  cbn [dict_setitem app]. rewrite decide_False by done. by rewrite IH.
Qed.

Lemma fold_setitem_new (items d : dict) :
  NoDup (d.*1 ++ items.*1) →
  fold_left (λ d item, dict_setitem d item.1 item.2) items d = d ++ items.
Proof.
  revert d. induction items as [|[k v] items IH]; intros d Hwf.
  - by rewrite app_nil_r.
  - cbn [fold_left fst snd]. rewrite fmap_cons in Hwf. cbn [fst] in Hwf.
    rewrite dict_setitem_new.
    + rewrite IH; [by rewrite <-app_assoc |].
      by rewrite fmap_app, <-app_assoc.
    + apply NoDup_app in Hwf as (_ & Hdisj & _). intros Hin.
      apply (Hdisj _ Hin). by left.
Qed.

Lemma str_lines M :
  __str__ M
  = mjoin ((λ b, b ++ [LF]) <$>
             (header_text "rows" (num_rows M) :: header_text "cols" (num_cols M)
              :: (item_text <$> sorted (elements M)))).
Proof.
  rewrite str_unfold, !fmap_cons, !mjoin_cons, <-list_fmap_compose.
  rewrite (list_fmap_ext format_item ((λ b, b ++ [LF]) ∘ item_text) _
             (λ _ item _, format_item_text item)).
  unfold format_header, header_text. cbn [txt list_ascii_of_string app].
  by repeat (rewrite <-app_assoc; cbn [app]).
Qed.

Lemma load_matrix_str M :
  dict_wf (elements M) →
  load_matrix (__str__ M)
  = Ok {| num_rows := num_rows M; num_cols := num_cols M;
          elements := sorted (elements M) |}.
Proof.
  intros Hwf. unfold load_matrix. rewrite str_lines, readlines_join.
  - rewrite !fmap_cons.
    rewrite (header_value_format "rows" (num_rows M) 0); [| |by eexists|done].
    2:{ by repeat constructor. }
    rewrite (header_value_format "cols" (num_cols M) 1); [| |by eexists|done].
    2:{ by repeat constructor. }
    cbn [mbind result_bind drop]. rewrite drop_0.
    rewrite for_each_load_line_format, fold_setitem_new; [done |].
    by apply sorted_wf.
  - apply Forall_cons; split; [unfold header_text; solve_no_char |].
    apply Forall_cons; split; [unfold header_text; solve_no_char |].
    apply Forall_fmap, Forall_forall. intros [[r c] v] _.
    unfold item_text. cbn [fst snd compose]. solve_no_char.
  - apply Forall_cons; split; [unfold header_text; solve_no_char |].
    apply Forall_cons; split; [unfold header_text; solve_no_char |].
    apply Forall_fmap, Forall_forall. intros [[r c] v] _.
    unfold item_text. cbn [fst snd compose]. solve_no_char.
Qed.

(** C3.  Loading the text [__str__] produced for [M] returns a matrix with
    the dimensions of [M] and a dictionary equal to [M.elements] as a
    mapping (the same keys with the same values; the parser inserts them in
    sorted order), whatever the sign of the dimensions, coordinates and
    values, stored zeros included. *)
Theorem format_parse_roundtrip M :
  dict_wf (elements M) →
  ∃ M', load_matrix (__str__ M) = Ok M'
    ∧ num_rows M' = num_rows M ∧ num_cols M' = num_cols M
    ∧ dict_eq (elements M') (elements M)
    ∧ elements M' ≡ₚ elements M.
Proof.
  intros Hwf. eexists. split; [by apply load_matrix_str |].
  cbn [num_rows num_cols elements]. split_and!; [done | done | |].
  - apply dict_eq_perm; [by apply sorted_wf | done | apply sorted_perm].
  - apply sorted_perm.
Qed.

Lemma format_parse_roundtrip_witness :
  ∃ M', load_matrix
          (__str__ {| num_rows := 3; num_cols := -2;
                      elements := [((1, 1), -5); ((0, 12), 0); ((-4, 3), 100)] |})
        = Ok M'
      ∧ num_rows M' = 3 ∧ num_cols M' = -2
      ∧ dict_eq (elements M') [((1, 1), -5); ((0, 12), 0); ((-4, 3), 100)]
      ∧ elements M' ≡ₚ [((1, 1), -5); ((0, 12), 0); ((-4, 3), 100)].
Proof.
  apply (format_parse_roundtrip
           {| num_rows := 3; num_cols := -2;
              elements := [((1, 1), -5); ((0, 12), 0); ((-4, 3), 100)] |}).
  refine (bool_decide_unpack _ _). vm_compute. exact I.
Defined.

(** ** The parser accepts exactly the syntax of the format *)

Lemma drop_while_split {A} (p : A → bool) (l : list A) :
  ∃ ws, l = ws ++ drop_while p l ∧ Forall (λ c, p c = true) ws.
Proof.
  induction l as [|x l (ws & IH & Hws)]; [by exists [] |].
  cbn [drop_while]. destruct (p x) eqn:Hx.
  - exists (x :: ws). split; [cbn; by rewrite <-IH | by constructor].
  - by exists [].
Qed.

Lemma forallb_Forall {A} (p : A → bool) l :
  forallb p l = true ↔ Forall (λ c, p c = true) l.
Proof. rewrite forallb_forall, Forall_forall. by setoid_rewrite list_elem_of_In. Qed.

Lemma int_digits_sound acc p s n :
  int_digits acc p s = Some n →
  ∃ ds ws, s = ds ++ ws ∧ Forall (λ c, int_isspace c = true) ws
           ∧ digits_rest p ds.
Proof.
  revert acc p. induction s as [|c s IH]; intros acc p; cbn [int_digits].
  - destruct p; [|done]. intros _. exists [], []. split_and!; [done.. |].
    by left.
  - destruct (is_digit c) eqn:Hc.
    + intros (ds & ws & -> & Hws & Hds)%IH.
      exists (c :: ds), ws. split_and!; [done.. |].
      assert (digit_groups (c :: ds)) as Hgroups.
      { destruct Hds as [->|[?|(s' & -> & ?)]]; by constructor. }
      destruct p; [by right; left | done].
    + destruct (Ascii.eqb_spec c "_") as [->|_].
      * destruct p; [|done]. intros (ds & ws & -> & Hws & Hds)%IH.
        exists ("_"%char :: ds), ws. split_and!; [done.. |].
        right; right. by exists ds.
      * destruct (int_isspace c) eqn:Hsp; [|done].
        destruct p; [|done]. cbn [andb].
        destruct (forallb int_isspace s) eqn:Hall; [|done]. intros _.
        exists [], (c :: s). split_and!; [done | | by left].
        constructor; [done |]. by apply forallb_Forall.
Qed.

Lemma int_sound s n : int s = Ok n → int_literal s.
Proof.
  unfold int. destruct (drop_while_split int_isspace s) as (ws1 & Hs & Hws1).
  destruct (drop_while int_isspace s) as [|c r] eqn:Hdrop.
  { simpl. done. }
  assert (∀ sign body,
            c :: r = sign ++ body →
            sign = [] ∨ sign = ["+"%char] ∨ sign = ["-"%char] →
            is_Some (int_digits 0 false body) → int_literal s) as Hbody.
  { intros sign body Heq Hsign [m (ds & ws2 & -> & Hws2 & Hds)%int_digits_sound].
    exists ws1, sign, ds, ws2. rewrite Hs, Heq. done. }
  destruct (Ascii.eqb_spec c "-") as [->|_].
  { destruct (int_digits 0 false r) eqn:Hd; [|done]. intros _.
    apply (Hbody ["-"%char] r); eauto. }
  destruct (Ascii.eqb_spec c "+") as [->|_].
  { destruct (int_digits 0 false r) eqn:Hd; [|done]. intros _.
    apply (Hbody ["+"%char] r); eauto. }
  destruct (int_digits 0 false (c :: r)) eqn:Hd; [|done]. intros _.
  apply (Hbody [] (c :: r)); eauto.
Qed.

Lemma int_space_not_digit c :
  int_isspace c = true → is_digit c = false ∧ Ascii.eqb c "_" = false.
Proof.
  unfold int_isspace, is_digit. rewrite ord_eqb. change (ord "_") with 95.
  cbv zeta. intros Hsp. split.
  - apply andb_false_iff. rewrite !Z.leb_gt.
    repeat match type of Hsp with
           | context [?a <=? ?b] => destruct (Z.leb_spec a b)
           | context [?a =? ?b] => destruct (Z.eqb_spec a b)
           end; simpl in Hsp; try done; lia.
  - apply bool_decide_eq_false_2.
    repeat match type of Hsp with
           | context [?a <=? ?b] => destruct (Z.leb_spec a b)
           | context [?a =? ?b] => destruct (Z.eqb_spec a b)
           end; simpl in Hsp; try done; lia.
Qed.

Lemma int_digits_blanks acc ws :
  Forall (λ c, int_isspace c = true) ws → int_digits acc true ws = Some acc.
Proof.
  destruct 1 as [|c ws Hc Hws]; [done |]. cbn [int_digits].
  destruct (int_space_not_digit c Hc) as [-> ->]. rewrite Hc. cbn [andb].
  by rewrite (proj2 (forallb_Forall _ _) Hws).
Qed.

Lemma int_digits_complete ds ws acc p :
  digit_groups ds → Forall (λ c, int_isspace c = true) ws →
  is_Some (int_digits acc p (ds ++ ws)).
Proof.
  intros Hds Hws. revert acc p.
  induction Hds as [d Hd|d s Hd _ IH|d s Hd _ IH]; intros acc p;
    cbn [int_digits app]; rewrite Hd.
  - rewrite int_digits_blanks by done. eauto.
  - apply IH.
  - assert (is_digit "_" = false) as -> by done.
    cbn [int_digits Ascii.eqb Bool.eqb]. apply IH.
Qed.

Lemma digit_groups_head ds :
  digit_groups ds → ∃ d s, ds = d :: s ∧ is_digit d = true.
Proof. destruct 1; eauto. Qed.

Lemma int_complete s : int_literal s → ∃ n, int s = Ok n.
Proof.
  intros (ws1 & sign & ds & ws2 & -> & Hws1 & Hws2 & Hsign & Hds).
  pose proof (λ acc p, int_digits_complete ds ws2 acc p Hds Hws2) as Hdigits.
  destruct (digit_groups_head ds Hds) as (d & ds' & Heq & Hd).
  apply is_digit_ord in Hd as Hord.
  assert (int_isspace d = false) as Hdsp.
  { apply int_char_not_int_space. by right. }
  unfold int. destruct Hsign as [->|[->| ->]]; cbn [app].
  - subst ds. cbn [app]. rewrite drop_while_app_stop by done.
    rewrite !ord_eqb, !bool_decide_eq_false_2
      by (change (ord "-") with 45; change (ord "+") with 43; lia).
    destruct (Hdigits 0 false) as [n Hn]. cbn [app] in Hn. rewrite Hn. eauto.
  - rewrite drop_while_app_stop by done.
    cbn [Ascii.eqb Bool.eqb]. destruct (Hdigits 0 false) as [n ->]. eauto.
  - rewrite drop_while_app_stop by done.
    cbn [Ascii.eqb Bool.eqb]. destruct (Hdigits 0 false) as [n ->]. eauto.
Qed.

Lemma int_literal_iff s : int_literal s ↔ ∃ n, int s = Ok n.
Proof. split; [apply int_complete | intros [n ?]; by eapply int_sound]. Qed.

Lemma split_nonempty sep s : split sep s ≠ [].
Proof.
  destruct s as [|c s]; cbn [split]; [done |].
  destruct (Ascii.eqb c sep); [done |]. by destruct (split sep s).
Qed.

Lemma split_cons_inv sep s f fs :
  split sep s = f :: fs →
  no_char sep f
  ∧ ((fs = [] ∧ s = f) ∨ (∃ s', s = f ++ sep :: s' ∧ split sep s' = fs)).
Proof.
  revert f fs. induction s as [|c s IH]; intros f fs; cbn [split].
  - intros [= <- <-]. split; [constructor | by left].
  - destruct (Ascii.eqb_spec c sep) as [->|Hne].
    + intros [= <- <-]. split; [constructor |]. right. by exists s.
    + destruct (split sep s) as [|f' fs'] eqn:Hsplit.
      { by apply split_nonempty in Hsplit. }
      intros [= <- <-]. destruct (IH f' fs' eq_refl) as [Hf' Hcases]. split.
      * constructor; [|done]. by apply Ascii.eqb_neq.
      * destruct Hcases as [[-> ->]|(s' & -> & <-)]; [by left |].
        right. by exists s'.
Qed.

(** *** Header lines *)

Lemma header_value_Raise lines i e :
  header_value lines i = Raise e → e = IndexError ∨ ∃ s, e = InvalidLiteral s.
Proof.
  unfold header_value, index.
  destruct (lines !! i) as [line|]; cbn [mbind result_bind].
  - destruct (split "=" (strip line) !! 1%nat) as [field|];
      cbn [mbind result_bind].
    + unfold int. repeat case_match; intros [= <-]; eauto.
    + intros [= <-]. by left.
  - intros [= <-]. by left.
Qed.

Lemma header_value_Ok lines i n : header_value lines i = Ok n → header_ok lines i.
Proof.
  unfold header_value, index, header_ok.
  destruct (lines !! i) as [line|]; cbn [mbind result_bind]; [|done].
  destruct (split "=" (strip line)) as [|name [|field fs]] eqn:Hsplit;
    cbn [lookup list_lookup mbind result_bind]; [done.. |].
  intros Hint%int_sound. exists line. split; [done |].
  apply split_cons_inv in Hsplit as [Hname [[[=] _]|(s' & -> & Hsplit)]].
  apply split_cons_inv in Hsplit as [Hfield Hrest].
  destruct Hrest as [[-> ->]|(s'' & -> & _)].
  - exists name, field, []. rewrite app_nil_r. split_and!; auto.
  - exists name, field, ("="%char :: s''). split_and!; auto.
Qed.

Lemma header_ok_value lines i : header_ok lines i → ∃ n, header_value lines i = Ok n.
Proof.
  intros (line & Hline & name & field & rest & Heq & Hname & Hfield & Hrest & Hint).
  apply int_complete in Hint as [n Hn]. exists n.
  unfold header_value, index. rewrite Hline. cbn [mbind result_bind].
  rewrite Heq.
  rewrite split_app by done.
  destruct Hrest as [->|Hhead].
  - rewrite app_nil_r, split_no_sep by done. done.
  - destruct rest as [|c rest]; [done |]. injection Hhead as ->.
    rewrite split_app by done. done.
Qed.

(** *** Entry lines *)

Lemma int_Raise s e : int s = Raise e → is_ValueError e = true.
Proof. unfold int. repeat case_match; by intros [= <-]. Qed.

(** Runs the next [int] of an unpacking. *)
Ltac step_int :=
  match goal with
  | |- context [int ?s] =>
      let H := fresh "Hint" in
      destruct (int s) eqn:H; cbn [mbind result_bind];
      [|try (apply int_Raise in H)]
  end.

Lemma unpack3_ints_Ok fields r c v :
  unpack3_ints fields = Ok (r, c, v) →
  ∃ a b c', fields = [a; b; c']
            ∧ int a = Ok r ∧ int b = Ok c ∧ int c' = Ok v.
Proof.
  unfold unpack3_ints.
  destruct fields as [|a [|b [|c' [|d rest]]]]; [done | ..];
    repeat step_int; try done.
  intros [= -> -> ->]. eauto 10.
Qed.

Lemma unpack3_ints_Raise fields e :
  unpack3_ints fields = Raise e → is_ValueError e = true.
Proof.
  unfold unpack3_ints.
  destruct fields as [|a [|b [|c' [|d rest]]]]; [by intros [= <-] | ..];
    repeat step_int; by intros [= <-].
Qed.

Lemma unpack3_ints_complete a b c :
  int_literal a → int_literal b → int_literal c →
  ∃ r c' v, unpack3_ints [a; b; c] = Ok (r, c', v).
Proof.
  intros [r Hr]%int_complete [c' Hc]%int_complete [v Hv]%int_complete.
  exists r, c', v. unfold unpack3_ints. by rewrite Hr, Hc, Hv.
Qed.

Lemma wrapped_inv c1 c2 s :
  c1 ≠ c2 → startswith c1 s = true → endswith c2 s = true →
  ∃ mid, s = c1 :: mid ++ [c2].
Proof.
  intros Hne Hstart Hend. destruct s as [|c s]; [done |].
  apply Ascii.eqb_eq in Hstart as ->.
  destruct s as [|c' s _] using rev_ind.
  - unfold endswith in Hend. cbn in Hend. by apply Ascii.eqb_eq in Hend.
  - unfold endswith in Hend. rewrite app_comm_cons, rev_unit in Hend.
    apply Ascii.eqb_eq in Hend as ->. by exists s.
Qed.

Lemma load_line_Raise d line e : load_line d line = Raise e → e = wrong_format.
Proof.
  unfold load_line. destruct (strip line) as [|c s]; [done |].
  destruct (negb _); [by intros [= <-] |].
  destruct (unpack3_ints _) as [[[r c'] v]|e'] eqn:Hunpack;
    cbn [try_except mbind result_bind]; [done |].
  apply unpack3_ints_Raise in Hunpack as ->. by intros [= <-].
Qed.

Lemma load_line_Ok d line d' :
  load_line d line = Ok d' → strip line = [] ∨ entry_syntax (strip line).
Proof.
  unfold load_line. destruct (strip line) as [|c0 s] eqn:Hstrip; [by left |].
  destruct (startswith "(" (c0 :: s)) eqn:Hstart; [|done].
  destruct (endswith ")" (c0 :: s)) eqn:Hend; [|done]. cbn [andb negb].
  destruct (wrapped_inv "(" ")" _ ltac:(done) Hstart Hend) as [mid Hmid].
  rewrite Hmid. unfold slice_1_m1. cbn [tail]. rewrite removelast_last.
  destruct (unpack3_ints _) as [[[r c'] v]|e'] eqn:Hunpack;
    cbn [try_except mbind result_bind]; [|by case_match].
  intros _. right.
  apply unpack3_ints_Ok in Hunpack as (a & b & c & Hsplit & Ha & Hb & Hc).
  apply split_cons_inv in Hsplit as [Hna [[[=] _]|(s1 & -> & Hsplit)]].
  apply split_cons_inv in Hsplit as [Hnb [[[=] _]|(s2 & -> & Hsplit)]].
  apply split_cons_inv in Hsplit as [Hnc [[_ ->]|(s3 & _ & Hsplit)]].
  - exists a, b, c. split_and!; eauto using int_sound.
    by repeat (rewrite <-app_assoc; cbn [app]).
  - by apply split_nonempty in Hsplit.
Qed.

Lemma entry_syntax_load_line d line :
  entry_syntax (strip line) → ∃ d', load_line d line = Ok d'.
Proof.
  intros (a & b & c & Heq & Hna & Hnb & Hnc & Ha & Hb & Hc).
  unfold load_line. rewrite Heq.
  replace (a ++ ","%char :: b ++ ","%char :: c ++ [")"%char])
    with ((a ++ ","%char :: b ++ ","%char :: c) ++ [")"%char])
    by (by repeat (rewrite <-app_assoc; cbn [app])).
  rewrite (app_comm_cons _ _ "("%char), endswith_snoc.
  cbn [startswith andb negb Ascii.eqb Bool.eqb app].
  unfold slice_1_m1. cbn [tail]. rewrite removelast_last.
  rewrite !split_app, split_no_sep by done.
  destruct (unpack3_ints_complete a b c Ha Hb Hc) as (r & c' & v & ->).
  cbn [try_except mbind result_bind]. eauto.
Qed.

Lemma load_line_Ok_iff d line :
  (∃ d', load_line d line = Ok d') ↔
  strip line = [] ∨ entry_syntax (strip line).
Proof.
  split.
  - intros [d' ?]. by eapply load_line_Ok.
  - intros [Hblank|?]; [|by apply entry_syntax_load_line].
    unfold load_line. rewrite Hblank. eauto.
Qed.

Lemma for_each_load_line_Raise lines d e :
  for_each lines load_line d = Raise e → e = wrong_format.
Proof.
  revert d. induction lines as [|l lines IH]; intros d; cbn [for_each]; [done |].
  destruct (load_line d l) as [d1|e1] eqn:Hl; cbn [mbind result_bind].
  - apply IH.
  - intros [= <-]. by eapply load_line_Raise.
Qed.

Lemma for_each_load_line_bad lines d line :
  line ∈ lines → strip line ≠ [] → ¬ entry_syntax (strip line) →
  for_each lines load_line d = Raise wrong_format.
Proof.
  intros Hin Hblank Hsyntax. revert d.
  induction lines as [|l lines IH]; intros d; [by apply elem_of_nil in Hin |].
  cbn [for_each].
  destruct (load_line d l) as [d1|e1] eqn:Hl; cbn [mbind result_bind].
  - apply IH. apply elem_of_cons in Hin as [->|?]; [|done].
    apply load_line_Ok in Hl. tauto.
  - by apply load_line_Raise in Hl as ->.
Qed.

(** *** Whole files *)

Lemma load_matrix_headers_Ok content rows cols :
  header_value (readlines content) 0 = Ok rows →
  header_value (readlines content) 1 = Ok cols →
  load_matrix content
  = match for_each (drop 2 (readlines content)) load_line [] with
    | Ok elems => Ok {| num_rows := rows; num_cols := cols; elements := elems |}
    | Raise e => Raise (ReadingError e)
    end.
Proof.
  intros Hrows Hcols. unfold load_matrix. rewrite Hrows, Hcols.
  cbn [mbind result_bind]. by destruct (for_each _ _ _).
Qed.

Lemma load_matrix_header_Raise content e :
  header_value (readlines content) 0 = Raise e
  ∨ (∃ rows, header_value (readlines content) 0 = Ok rows
             ∧ header_value (readlines content) 1 = Raise e) →
  load_matrix content = Raise (ReadingError e).
Proof.
  unfold load_matrix. intros [->|(rows & -> & ->)]; done.
Qed.

Lemma load_line_wf d line d' :
  dict_wf d → load_line d line = Ok d' → dict_wf d'.
Proof.
  intros Hwf. unfold load_line. destruct (strip line) as [|c s].
  { by intros [= <-]. }
  destruct (negb _); [done |].
  destruct (unpack3_ints _) as [[[r c'] v]|e];
    cbn [try_except mbind result_bind]; [|by case_match].
  intros [= <-]. by apply dict_setitem_wf.
Qed.

Lemma load_matrix_wf content M :
  load_matrix content = Ok M → dict_wf (elements M).
Proof.
  unfold load_matrix.
  destruct (header_value _ 0) as [rows|]; cbn [try_except mbind result_bind];
    [|done].
  destruct (header_value _ 1) as [cols|]; cbn [try_except mbind result_bind];
    [|done].
  destruct (for_each _ _ _) as [elems|] eqn:Hloop;
    cbn [try_except mbind result_bind]; [|done].
  intros [= <-]. cbn [elements]. revert Hloop.
  assert (dict_wf []) as Hnil by apply NoDup_nil_2. revert Hnil.
  generalize (@nil (key * Z)) (drop 2 (readlines content)).
  intros d lines. revert d. induction lines as [|l lines IH]; intros d Hd.
  - by intros [= <-].
  - cbn [for_each]. destruct (load_line d l) as [d1|] eqn:Hl;
      cbn [mbind result_bind]; [|done].
    apply IH. by eapply load_line_wf.
Qed.

(** C5.  When both header lines parse, a line after them that is not blank
    and, once stripped, is not [(a,b,c)] with [a], [b], [c] integers in the
    syntax of [int()] (blanks, an optional sign, decimal digits, where
    [int()] also lets one underscore stand between two digits) makes
    [load_matrix] raise the [ValueError] that wraps
    ["Input file has wrong format"], so that no matrix is returned, whatever
    the other lines are.  So do the entry lines [(1,2)], [(1,x,3)] and
    [1,1,3]. *)
Theorem malformed_entry_rejected content rows cols line :
  header_value (readlines content) 0 = Ok rows →
  header_value (readlines content) 1 = Ok cols →
  line ∈ drop 2 (readlines content) →
  strip line ≠ [] → ¬ entry_syntax (strip line) →
  load_matrix content
  = Raise (ReadingError (ValueError "Input file has wrong format"))
  ∧ load_matrix (file ["rows=2"; "cols=2"; "(1,2)"]%string)
    = Raise (ReadingError (ValueError "Input file has wrong format"))
  ∧ load_matrix (file ["rows=2"; "cols=2"; "(0,0,5)"; "(1,x,3)"]%string)
    = Raise (ReadingError (ValueError "Input file has wrong format"))
  ∧ load_matrix (file ["rows=2"; "cols=2"; "1,1,3"]%string)
    = Raise (ReadingError (ValueError "Input file has wrong format")).
Proof.
  intros Hrows Hcols Hin Hblank Hsyntax. split; [|by vm_compute].
  rewrite (load_matrix_headers_Ok _ _ _ Hrows Hcols).
  by rewrite (for_each_load_line_bad _ _ _ Hin Hblank Hsyntax).
Qed.

Lemma malformed_entry_rejected_witness :
  load_matrix (file ["rows=2"; "cols=2"; "(0, 1, 7)"; ""; "(1,2)"]%string)
  = Raise (ReadingError (ValueError "Input file has wrong format")).
Proof.
  refine (proj1 (malformed_entry_rejected
                   (file ["rows=2"; "cols=2"; "(0, 1, 7)"; ""; "(1,2)"]%string)
                   2 2 (txt "(1,2)" ++ [LF]) eq_refl eq_refl _ _ _)).
  - vm_compute. do 2 apply list_elem_of_further. apply list_elem_of_here.
  - vm_compute. discriminate.
  - intros Hsyntax.
    destruct (entry_syntax_load_line [] _ Hsyntax) as [d' Hd'].
    vm_compute in Hd'. discriminate.
Defined.

(** C2, as the code has it.  [load_matrix] raises the [ValueError] that
    wraps an [IndexError] or an [int()] failure exactly when line 1 or
    line 2 is missing or, once stripped, is not some text without [=],
    then [=], then an integer in the syntax of [int()] that ends the line
    or is followed by another [=].  The text before the first [=] is not
    compared with [rows] or [cols], and what follows a second [=] is not
    read. *)
Theorem malformed_header_rejected content :
  ¬ (header_ok (readlines content) 0 ∧ header_ok (readlines content) 1) ↔
  ∃ e, load_matrix content = Raise (ReadingError e) ∧ header_error e.
Proof.
  split.
  - intros Hbad.
    destruct (header_value (readlines content) 0) as [rows|e] eqn:Hrows.
    + destruct (header_value (readlines content) 1) as [cols|e] eqn:Hcols.
      * destruct Hbad. eauto using header_value_Ok.
      * exists e. split; [|by eapply header_value_Raise].
        apply load_matrix_header_Raise. eauto.
    + exists e. split; [|by eapply header_value_Raise].
      apply load_matrix_header_Raise. eauto.
  - intros (e & Hload & He) [[rows Hrows]%header_ok_value [cols Hcols]%header_ok_value].
    rewrite (load_matrix_headers_Ok _ _ _ Hrows Hcols) in Hload.
    destruct (for_each _ _ _) as [elems|e'] eqn:Hloop; [done |].
    apply for_each_load_line_Raise in Hloop as ->.
    injection Hload as <-. by destruct He as [?|[? ?]].
Qed.

Lemma malformed_header_rejected_witness :
  ∃ e, load_matrix (file ["rows=two"; "cols=2"]%string) = Raise (ReadingError e)
       ∧ header_error e.
Proof.
  apply (proj1 (malformed_header_rejected (file ["rows=two"; "cols=2"]%string))).
  intros [[rows Hrows]%header_ok_value _].
  vm_compute in Hrows. discriminate.
Defined.

(** The key of a header line is not checked, and [rows=5=6] is read as 5
    rows. *)
Lemma header_key_and_tail_unchecked :
  load_matrix (file ["size=3"; "cols=2"]%string)
  = Ok {| num_rows := 3; num_cols := 2; elements := [] |}
  ∧ load_matrix (file ["rows=5=6"; "cols=1"]%string)
    = Ok {| num_rows := 5; num_cols := 1; elements := [] |}.
Proof. split; by vm_compute. Qed.

(** * Further properties *)

(** ** Addition and subtraction, entry by entry *)

Lemma subtract_Ok A B :
  num_rows A = num_rows B → num_cols A = num_cols B →
  subtract A B
  = Ok {| num_rows := num_rows A; num_cols := num_cols A;
          elements := fold_left subtract_item (elements B) (elements A) |}.
Proof. intros Hr Hc. unfold subtract. by rewrite dims_differ_false. Qed.

Lemma add_lookup (A B : dict) k :
  dict_wf B →
  dict_lookup (fold_left add_item B A) k
  = match dict_lookup A k, dict_lookup B k with
    | Some a, Some b => Some (a + b)
    | None, Some b => Some b
    | o, None => o
    end.
Proof.
  intros HB. rewrite (merge_lookup Z.add id add_item add_item_eq) by done.
  by destruct (dict_lookup B k), (dict_lookup A k).
Qed.

Lemma subtract_lookup (A B : dict) k :
  dict_wf B →
  dict_lookup (fold_left subtract_item B A) k
  = match dict_lookup A k, dict_lookup B k with
    | Some a, Some b => Some (a - b)
    | None, Some b => Some (- b)
    | o, None => o
    end.
Proof.
  intros HB.
  rewrite (merge_lookup Z.sub Z.opp subtract_item subtract_item_eq) by done.
  by destruct (dict_lookup B k), (dict_lookup A k).
Qed.

Lemma dict_get_add (A B : dict) k :
  dict_wf B →
  dict_get (fold_left add_item B A) k 0 = dict_get A k 0 + dict_get B k 0.
Proof.
  intros HB. unfold dict_get. rewrite add_lookup by done.
  destruct (dict_lookup A k), (dict_lookup B k); simpl; lia.
Qed.

Lemma dict_get_subtract (A B : dict) k :
  dict_wf B →
  dict_get (fold_left subtract_item B A) k 0 = dict_get A k 0 - dict_get B k 0.
Proof.
  intros HB. unfold dict_get. rewrite subtract_lookup by done.
  destruct (dict_lookup A k), (dict_lookup B k); simpl; lia.
Qed.

(** X1.  For matrices of equal dimensions, [add] and [subtract] return a
    matrix of those dimensions that reads, at every coordinate, as the sum
    and as the difference of what the operands read there. *)
Theorem add_subtract_pointwise A B :
  dict_wf (elements B) →
  num_rows A = num_rows B → num_cols A = num_cols B →
  ∃ S D, add A B = Ok S ∧ subtract A B = Ok D
    ∧ num_rows S = num_rows A ∧ num_cols S = num_cols A
    ∧ num_rows D = num_rows A ∧ num_cols D = num_cols A
    ∧ ∀ r c,
        get_element S r c = get_element A r c + get_element B r c
        ∧ get_element D r c = get_element A r c - get_element B r c.
Proof.
  intros HB Hr Hc. eexists _, _.
  split; [by apply add_Ok |]. split; [by apply subtract_Ok |].
  split_and!; [done.. |]. intros r c. unfold get_element. cbn [elements].
  by rewrite dict_get_add, dict_get_subtract.
Qed.

Lemma add_subtract_pointwise_witness :
  ∃ S D,
    add {| num_rows := 2; num_cols := 2; elements := [((0, 0), 1); ((1, 1), 2)] |}
        {| num_rows := 2; num_cols := 2; elements := [((1, 1), 5); ((0, 1), -3)] |}
    = Ok S
    ∧ subtract
        {| num_rows := 2; num_cols := 2; elements := [((0, 0), 1); ((1, 1), 2)] |}
        {| num_rows := 2; num_cols := 2; elements := [((1, 1), 5); ((0, 1), -3)] |}
      = Ok D
    ∧ get_element S 1 1 = 7 ∧ get_element D 1 1 = -3.
Proof.
  destruct (add_subtract_pointwise
              {| num_rows := 2; num_cols := 2;
                 elements := [((0, 0), 1); ((1, 1), 2)] |}
              {| num_rows := 2; num_cols := 2;
                 elements := [((1, 1), 5); ((0, 1), -3)] |})
    as (S & D & HS & HD & _ & _ & _ & _ & Hget).
  - refine (bool_decide_unpack _ _). vm_compute. exact I.
  - reflexivity.
  - reflexivity.
  - exists S, D. destruct (Hget 1 1) as [-> ->]. by split_and!.
Defined.

(** ** Which keys the results store, and in which order *)

Lemma filter_ext_in {A} (P Q : A → Prop) `{∀ x, Decision (P x)}
    `{∀ x, Decision (Q x)} (l : list A) :
  (∀ x, x ∈ l → P x ↔ Q x) → filter P l = filter Q l.
Proof.
  induction l as [|x l IH]; intros HPQ; [done |].
  destruct (decide (P x)) as [HP|HP].
  - rewrite !filter_cons_True; [|by apply HPQ; [left |] | done].
    f_equal. apply IH. intros y Hy. apply HPQ. by right.
  - rewrite !filter_cons_False; [|rewrite <-HPQ; [done | left] | done].
    apply IH. intros y Hy. apply HPQ. by right.
Qed.

Section merge_order.
Variables (op : Z → Z → Z) (inj : Z → Z) (step : dict → key * Z → dict).
Hypothesis step_eq : ∀ res k v,
  step res (k, v) =
    match dict_lookup res k with
    | Some old => dict_setitem res k (op old v)
    | None => dict_setitem res k (inj v)
    end.

(** The keys of [self] keep their places; the new keys of [other] follow,
    in the order of [other]. *)
Lemma merge_keys (items res : dict) :
  dict_wf items →
  (fold_left step items res).*1
  = res.*1 ++ filter (λ k, k ∉ res.*1) items.*1.
Proof.
  unfold dict_wf. revert res.
  induction items as [|[k0 v0] items IH]; intros res Hwf.
  - by rewrite app_nil_r.
  - rewrite fmap_cons in Hwf |- *. cbn [fst] in Hwf |- *.
    apply NoDup_cons in Hwf as [Hk0 Hwf].
    cbn [fold_left]. rewrite IH by done. rewrite step_eq.
    destruct (dict_lookup res k0) as [old|] eqn:Hlook.
    + assert (k0 ∈ res.*1) as Hin.
      { apply dict_lookup_elem_of in Hlook.
        by apply (list_elem_of_fmap_2 fst) in Hlook. }
      rewrite dict_setitem_keys, Hlook.
      by rewrite (filter_cons_False _ k0) by (by intros []).
    + apply dict_lookup_None in Hlook as Hnotin.
      rewrite dict_setitem_keys, Hlook.
      rewrite (filter_cons_True _ k0) by done.
      rewrite <-app_assoc. cbn [app]. do 2 f_equal.
      apply filter_ext_in. intros k Hk.
      rewrite elem_of_app, list_elem_of_singleton.
      split; [tauto |]. intros Hres [?| ->]; tauto.
Qed.
End merge_order.

Lemma dict_ext (d1 d2 : dict) :
  dict_wf d1 → d1.*1 = d2.*1 →
  (∀ k, k ∈ d1.*1 → dict_lookup d1 k = dict_lookup d2 k) → d1 = d2.
Proof.
  unfold dict_wf. revert d2.
  induction d1 as [|[k v] d1 IH]; intros [|[k' v'] d2] Hwf Hkeys Hlook;
    try done.
  rewrite !fmap_cons in Hkeys, Hwf. cbn [fst] in Hkeys, Hwf.
  injection Hkeys as <- Hkeys. apply NoDup_cons in Hwf as [Hk Hwf].
  pose proof (Hlook k) as Hv. cbn [dict_lookup] in Hv.
  rewrite fmap_cons in Hv. rewrite !decide_True in Hv by done.
  injection (Hv ltac:(by left)) as <-. f_equal.
  apply IH; [done.. |]. intros k' Hk'.
  specialize (Hlook k'). rewrite fmap_cons in Hlook.
  cbn [dict_lookup fst] in Hlook.
  rewrite !decide_False in Hlook by (intros ->; done).
  apply Hlook. by right.
Qed.

Lemma filter_none {A} (P : A → Prop) `{∀ x, Decision (P x)} (l : list A) :
  (∀ x, x ∈ l → ¬ P x) → filter P l = [].
Proof.
  induction l as [|x l IH]; intros HP; [done |].
  rewrite filter_cons_False by (apply HP; by left).
  apply IH. intros y Hy. apply HP. by right.
Qed.

Lemma filter_all {A} (P : A → Prop) `{∀ x, Decision (P x)} (l : list A) :
  (∀ x, x ∈ l → P x) → filter P l = l.
Proof.
  induction l as [|x l IH]; intros HP; [done |].
  rewrite filter_cons_True by (apply HP; by left).
  f_equal. apply IH. intros y Hy. apply HP. by right.
Qed.

Lemma filter_not_elem_of_self (l : list key) : filter (λ k, k ∉ l) l = [].
Proof. apply filter_none. by intros k Hk Hnot. Qed.

Lemma dict_lookup_fmap_value (f : Z → Z) (d : dict) k :
  dict_lookup ((λ item, (item.1, f item.2)) <$> d) k = f <$> dict_lookup d k.
Proof.
  induction d as [|[k' v'] d IH]; [done |].
  rewrite fmap_cons. cbn [dict_lookup fst snd]. by case_decide.
Qed.

Lemma dict_lookup_is_Some (d : dict) k : is_Some (dict_lookup d k) ↔ k ∈ d.*1.
Proof.
  rewrite <-not_eq_None_Some, dict_lookup_None.
  destruct (decide (k ∈ d.*1)); naive_solver.
Qed.

(** X2.  [add] and [subtract] store every key of [self], in the order of
    [self], followed by the keys of [other] that [self] does not have, in
    the order of [other]: no key is dropped, also where the values cancel,
    and no other key appears. *)
Theorem add_subtract_keys A B :
  dict_wf (elements B) →
  num_rows A = num_rows B → num_cols A = num_cols B →
  ∃ S D, add A B = Ok S ∧ subtract A B = Ok D
    ∧ (elements S).*1
      = (elements A).*1 ++ filter (λ k, k ∉ (elements A).*1) (elements B).*1
    ∧ (elements D).*1 = (elements S).*1.
Proof.
  intros HB Hr Hc. eexists _, _.
  split; [by apply add_Ok |]. split; [by apply subtract_Ok |].
  cbn [elements].
  rewrite (merge_keys Z.add id add_item add_item_eq) by done.
  by rewrite (merge_keys Z.sub Z.opp subtract_item subtract_item_eq) by done.
Qed.

Lemma add_subtract_keys_witness :
  ∃ S D,
    add {| num_rows := 2; num_cols := 2; elements := [((1, 1), 2); ((0, 0), 1)] |}
        {| num_rows := 2; num_cols := 2; elements := [((0, 1), 4); ((1, 1), -2)] |}
    = Ok S
    ∧ subtract
        {| num_rows := 2; num_cols := 2; elements := [((1, 1), 2); ((0, 0), 1)] |}
        {| num_rows := 2; num_cols := 2; elements := [((0, 1), 4); ((1, 1), -2)] |}
      = Ok D
    ∧ (elements S).*1 = [(1, 1); (0, 0); (0, 1)]
    ∧ (elements D).*1 = [(1, 1); (0, 0); (0, 1)].
Proof.
  destruct (add_subtract_keys
              {| num_rows := 2; num_cols := 2;
                 elements := [((1, 1), 2); ((0, 0), 1)] |}
              {| num_rows := 2; num_cols := 2;
                 elements := [((0, 1), 4); ((1, 1), -2)] |})
    as (S & D & HS & HD & HkS & HkD).
  - refine (bool_decide_unpack _ _). vm_compute. exact I.
  - reflexivity.
  - reflexivity.
  - exists S, D. rewrite HkD, HkS. by split_and!.
Defined.

(** X3.  [subtract A A] keeps every key of [A], in place, with the value 0
    stored: the zeros are kept as entries, not removed. *)
Theorem subtract_self_stores_zeros A :
  dict_wf (elements A) →
  subtract A A
  = Ok {| num_rows := num_rows A; num_cols := num_cols A;
          elements := (λ item, (item.1, 0)) <$> elements A |}.
Proof.
  intros HA. rewrite subtract_Ok by done. do 2 f_equal.
  apply dict_ext.
  - by apply (merge_wf Z.sub Z.opp subtract_item subtract_item_eq).
  - rewrite (merge_keys Z.sub Z.opp subtract_item subtract_item_eq) by done.
    rewrite filter_not_elem_of_self, app_nil_r, <-list_fmap_compose.
    by apply list_fmap_ext.
  - intros k Hk.
    rewrite (merge_keys Z.sub Z.opp subtract_item subtract_item_eq) in Hk
      by done.
    rewrite filter_not_elem_of_self, app_nil_r in Hk.
    apply dict_lookup_is_Some in Hk as [a Ha].
    rewrite subtract_lookup by done.
    rewrite (dict_lookup_fmap_value (λ _, 0)), Ha. cbn. f_equal. lia.
Qed.

Lemma subtract_self_stores_zeros_witness :
  subtract
    {| num_rows := 2; num_cols := 2; elements := [((1, 1), 2); ((0, 0), -7)] |}
    {| num_rows := 2; num_cols := 2; elements := [((1, 1), 2); ((0, 0), -7)] |}
  = Ok {| num_rows := 2; num_cols := 2;
          elements := [((1, 1), 0); ((0, 0), 0)] |}.
Proof.
  apply (subtract_self_stores_zeros
           {| num_rows := 2; num_cols := 2;
              elements := [((1, 1), 2); ((0, 0), -7)] |}).
  refine (bool_decide_unpack _ _). vm_compute. exact I.
Defined.

(** X4.  A matrix without entries is neutral for [add] on both sides, and
    on the right for [subtract]: the result has the entries of the other
    operand, the same values at the same places. *)
Theorem add_empty_neutral A Z :
  dict_wf (elements A) → elements Z = [] →
  num_rows A = num_rows Z → num_cols A = num_cols Z →
  add A Z = Ok A ∧ subtract A Z = Ok A ∧ add Z A = Ok A.
Proof.
  intros HA HZ Hr Hc. split_and!.
  - rewrite add_Ok, HZ by done. by destruct A.
  - rewrite subtract_Ok, HZ by done. by destruct A.
  - rewrite add_Ok, HZ, <-Hr, <-Hc by done. destruct A as [r c d].
    cbn [num_rows num_cols elements] in *. do 2 f_equal.
    apply dict_ext.
    + apply (merge_wf Z.add id add_item add_item_eq). apply NoDup_nil_2.
    + rewrite (merge_keys Z.add id add_item add_item_eq) by done.
      cbn [fmap list_fmap app]. apply filter_all.
      intros k _. apply not_elem_of_nil.
    + intros k _. rewrite add_lookup by done. cbn [dict_lookup].
      by destruct (dict_lookup d k).
Qed.

Lemma add_empty_neutral_witness :
  add {| num_rows := 2; num_cols := 2; elements := [] |}
      {| num_rows := 2; num_cols := 2; elements := [((1, 1), 2); ((0, 0), -7)] |}
  = Ok {| num_rows := 2; num_cols := 2;
          elements := [((1, 1), 2); ((0, 0), -7)] |}.
Proof.
  refine (proj2 (proj2 (add_empty_neutral
            {| num_rows := 2; num_cols := 2;
               elements := [((1, 1), 2); ((0, 0), -7)] |}
            {| num_rows := 2; num_cols := 2; elements := [] |}
            _ eq_refl eq_refl eq_refl))).
  refine (bool_decide_unpack _ _). vm_compute. exact I.
Defined.

(** X5.  Subtracting [B] from [add A B], or adding [B] to [subtract A B],
    gives a matrix that reads as [A] at every coordinate. *)
Theorem add_subtract_cancel A B :
  dict_wf (elements B) →
  num_rows A = num_rows B → num_cols A = num_cols B →
  ∃ S D R1 R2,
    add A B = Ok S ∧ subtract S B = Ok R1
    ∧ subtract A B = Ok D ∧ add D B = Ok R2
    ∧ ∀ r c, get_element R1 r c = get_element A r c
             ∧ get_element R2 r c = get_element A r c.
Proof.
  intros HB Hr Hc. eexists _, _, _, _.
  split; [by apply add_Ok |]. split; [by apply subtract_Ok |].
  split; [by apply subtract_Ok |]. split; [by apply add_Ok |].
  intros r c. unfold get_element. cbn [elements].
  rewrite dict_get_subtract, !dict_get_add, dict_get_subtract by done. lia.
Qed.

Lemma add_subtract_cancel_witness :
  ∃ S R1,
    add {| num_rows := 2; num_cols := 2; elements := [((0, 0), 1); ((1, 1), 2)] |}
        {| num_rows := 2; num_cols := 2; elements := [((1, 1), 5); ((0, 1), -3)] |}
    = Ok S
    ∧ subtract S
        {| num_rows := 2; num_cols := 2; elements := [((1, 1), 5); ((0, 1), -3)] |}
      = Ok R1
    ∧ get_element R1 0 1 = 0 ∧ get_element R1 1 1 = 2.
Proof.
  destruct (add_subtract_cancel
              {| num_rows := 2; num_cols := 2;
                 elements := [((0, 0), 1); ((1, 1), 2)] |}
              {| num_rows := 2; num_cols := 2;
                 elements := [((1, 1), 5); ((0, 1), -3)] |})
    as (S & D & R1 & R2 & HS & HR1 & _ & _ & Hget).
  - refine (bool_decide_unpack _ _). vm_compute. exact I.
  - reflexivity.
  - reflexivity.
  - exists S, R1. destruct (Hget 0 1) as [-> _], (Hget 1 1) as [-> _].
    by split_and!.
Defined.

(** ** Multiplication: stored positions and linearity *)

Lemma multiply_step_stored Bd row col value res k key :
  key ∈ (multiply_step Bd row col value res k).*1 ↔
  key ∈ res.*1 ∨ (key = (row, k) ∧ is_Some (dict_lookup Bd (col, k))).
Proof.
  unfold multiply_step. destruct (dict_lookup Bd (col, k)) as [b|] eqn:Hb.
  - destruct (dict_lookup res (row, k)) as [old|] eqn:Hold;
      rewrite dict_setitem_keys, Hold.
    + split; [by left |]. intros [?|[-> _]]; [done |].
      apply dict_lookup_is_Some. eauto.
    + rewrite elem_of_app, list_elem_of_singleton. naive_solver.
  - split; [by left |]. by intros [?|[_ [? ?]]].
Qed.

Lemma multiply_inner_stored Bd row col value ks res key :
  key ∈ (fold_left (multiply_step Bd row col value) ks res).*1 ↔
  key ∈ res.*1
  ∨ (key.1 = row ∧ key.2 ∈ ks ∧ is_Some (dict_lookup Bd (col, key.2))).
Proof.
  revert res. induction ks as [|k ks IH]; intros res; cbn [fold_left].
  - split; [by left |]. intros [?|(_ & []%elem_of_nil & _)]. done.
  - rewrite IH, multiply_step_stored, elem_of_cons. destruct key as [r k'].
    cbn [fst snd]. split.
    + intros [[?|[[= -> ->] ?]]|(? & ? & ?)]; auto 10.
    + intros [?|(-> & [->|?] & ?)]; auto 10.
Qed.

Lemma multiply_outer_stored B items res key :
  key ∈ (fold_left (multiply_item B) items res).*1 ↔
  key ∈ res.*1
  ∨ ∃ c v, ((key.1, c), v) ∈ items
           ∧ (0 <= key.2 < num_cols B)
           ∧ is_Some (dict_lookup (elements B) (c, key.2)).
Proof.
  revert res. induction items as [|[[row col] value] items IH]; intros res;
    cbn [fold_left].
  - split; [by left |]. intros [?|(c & v & []%elem_of_nil & _)]. done.
  - rewrite IH. unfold multiply_item.
    rewrite multiply_inner_stored, elem_of_range. split.
    + intros [[?|(<- & ? & ?)]|(c & v & ? & ? & ?)]; [by left | right..].
      * exists col, value. split; [by left | done].
      * exists c, v. split; [by right | done].
    + intros [?|(c & v & Hin & ? & ?)]; [by left; left |].
      apply elem_of_cons in Hin as [[= <- <- <-]|Hin].
      * left; right. done.
      * right. eauto 10.
Qed.

(** X6.  [multiply A B] stores an entry at [(r, k)] exactly when some column
    [c] has a stored entry of [A] at [(r, c)] and a stored entry of [B] at
    [(c, k)] with [k] in [range(B.num_cols)]: the entry is stored also when
    the products add up to 0, and nothing is stored anywhere else. *)
Theorem multiply_stored_positions A B :
  num_cols A = num_rows B →
  ∃ R, multiply A B = Ok R
    ∧ ∀ r k,
        is_Some (dict_lookup (elements R) (r, k)) ↔
        ∃ c, is_Some (dict_lookup (elements A) (r, c))
             ∧ is_Some (dict_lookup (elements B) (c, k))
             ∧ (0 <= k < num_cols B).
Proof.
  intros Hdim. eexists. split; [by apply multiply_Ok |]. cbn [elements].
  intros r k. rewrite dict_lookup_is_Some, multiply_outer_stored.
  cbn [fst snd]. split.
  - intros [[]%elem_of_nil|(c & v & Hin & ? & ?)]. exists c. split; [|done].
    apply dict_lookup_is_Some. by apply (list_elem_of_fmap_2 fst) in Hin.
  - intros (c & [v Hv] & ? & ?). right. exists c, v.
    split; [|done]. by apply dict_lookup_elem_of.
Qed.

Lemma multiply_stored_positions_witness :
  ∃ R, multiply
         {| num_rows := 1; num_cols := 2; elements := [((0, 0), 1); ((0, 1), 1)] |}
         {| num_rows := 2; num_cols := 1; elements := [((0, 0), 3); ((1, 0), -3)] |}
       = Ok R
     ∧ dict_lookup (elements R) (0, 0) = Some 0.
Proof.
  destruct (multiply_stored_positions
              {| num_rows := 1; num_cols := 2;
                 elements := [((0, 0), 1); ((0, 1), 1)] |}
              {| num_rows := 2; num_cols := 1;
                 elements := [((0, 0), 3); ((1, 0), -3)] |} eq_refl)
    as (R & HR & _).
  exists R. split; [exact HR |].
  injection HR as <-. reflexivity.
Defined.

Lemma multiply_fold_wf B items res :
  dict_wf res → dict_wf (fold_left (multiply_item B) items res).
Proof.
  revert res. induction items as [|item items IH]; intros res Hres; [done |].
  cbn [fold_left]. by apply IH, multiply_item_wf.
Qed.

Lemma multiply_get B (items : dict) i j :
  dict_get (fold_left (multiply_item B) items []) (i, j) 0
  = sumZ (contribution B i j <$> items).
Proof. rewrite multiply_outer_get. unfold dict_get at 1. by cbn. Qed.

(** Summing a function that is additive in the value over a dictionary in
    which one entry has been set. *)
Lemma sumZ_setitem (g : key → Z → Z) (d : dict) k v :
  dict_wf d →
  sumZ ((λ item, g item.1 item.2) <$> dict_setitem d k v)
  = sumZ ((λ item, g item.1 item.2) <$> d)
    - from_option (g k) 0 (dict_lookup d k) + g k v.
Proof.
  unfold dict_wf. induction d as [|[k' v'] d IH]; intros Hwf.
  - cbn. lia.
  - rewrite fmap_cons in Hwf. cbn [fst] in Hwf.
    apply NoDup_cons in Hwf as [Hk' Hwf]. cbn [dict_setitem dict_lookup].
    destruct (decide (k' = k)) as [->|Hne].
    + rewrite !fmap_cons, !sumZ_cons. cbn. lia.
    + rewrite !fmap_cons, !sumZ_cons, IH by done. cbn [fst snd]. lia.
Qed.

Section merge_sum.
Variables (op : Z → Z → Z) (inj : Z → Z) (step : dict → key * Z → dict).
Hypothesis step_eq : ∀ res k v,
  step res (k, v) =
    match dict_lookup res k with
    | Some old => dict_setitem res k (op old v)
    | None => dict_setitem res k (inj v)
    end.
Variable g : key → Z → Z.
Hypothesis g_op : ∀ k a b, g k (op a b) = g k a + g k (inj b).

Lemma merge_sum (items res : dict) :
  dict_wf res →
  sumZ ((λ item, g item.1 item.2) <$> fold_left step items res)
  = sumZ ((λ item, g item.1 item.2) <$> res)
    + sumZ ((λ item, g item.1 (inj item.2)) <$> items).
Proof.
  revert res. induction items as [|[k v] items IH]; intros res Hres.
  - cbn [fold_left]. rewrite fmap_nil. change (sumZ []) with 0. lia.
  - cbn [fold_left]. rewrite IH.
    + rewrite fmap_cons, sumZ_cons, step_eq. cbn [fst snd].
      destruct (dict_lookup res k) as [old|] eqn:Hold;
        rewrite sumZ_setitem, Hold by done; cbn [from_option];
        rewrite ?g_op; lia.
    + rewrite step_eq. destruct (dict_lookup res k); by apply dict_setitem_wf.
Qed.
End merge_sum.

Lemma sumZ_fmap_opp {A} (f : A → Z) l :
  sumZ ((λ x, - f x) <$> l) = - sumZ (f <$> l).
Proof.
  induction l as [|x l IH]; [done |]. rewrite !fmap_cons, !sumZ_cons, IH. lia.
Qed.

Lemma sumZ_fmap_sub {A} (f g : A → Z) l :
  sumZ ((λ x, f x - g x) <$> l) = sumZ (f <$> l) - sumZ (g <$> l).
Proof.
  induction l as [|x l IH]; [done |]. rewrite !fmap_cons, !sumZ_cons, IH. lia.
Qed.

(** X7.  [multiply] distributes over [add] and [subtract] in its right
    operand: [A * (B + C)] reads as [A * B + A * C] at every coordinate, and
    [A * (B - C)] as [A * B - A * C]. *)
Theorem multiply_distributes_right A B C :
  dict_wf (elements C) →
  num_cols A = num_rows B →
  num_rows B = num_rows C → num_cols B = num_cols C →
  ∃ S D PS PD Q1 Q2 RS RD,
    add B C = Ok S ∧ subtract B C = Ok D
    ∧ multiply A S = Ok PS ∧ multiply A D = Ok PD
    ∧ multiply A B = Ok Q1 ∧ multiply A C = Ok Q2
    ∧ add Q1 Q2 = Ok RS ∧ subtract Q1 Q2 = Ok RD
    ∧ ∀ i k, get_element PS i k = get_element RS i k
             ∧ get_element PD i k = get_element RD i k.
Proof.
  intros HC Hdim Hr Hc. eexists _, _, _, _, _, _, _, _.
  split; [by apply add_Ok |]. split; [by apply subtract_Ok |].
  split; [by apply multiply_Ok |]. split; [by apply multiply_Ok |].
  split; [by apply multiply_Ok |].
  split; [apply multiply_Ok; congruence |].
  split; [by apply add_Ok |]. split; [by apply subtract_Ok |].
  intros i k. unfold get_element. cbn [elements num_cols].
  assert (dict_wf (fold_left (multiply_item C) (elements A) [])) as HQ2.
  { apply multiply_fold_wf, NoDup_nil_2. }
  rewrite dict_get_add, dict_get_subtract, !multiply_get by done.
  rewrite <-sumZ_fmap_add, <-sumZ_fmap_sub.
  split; apply sumZ_fmap_ext; intros [[r c] v] _;
    unfold contribution; cbn [fst snd num_cols elements];
    rewrite ?dict_get_add, ?dict_get_subtract by done; rewrite <-Hc;
    case_decide; lia.
Qed.

Lemma multiply_distributes_right_witness :
  ∃ S PS Q1 Q2 RS,
    add {| num_rows := 2; num_cols := 1; elements := [((0, 0), 3); ((1, 0), 1)] |}
        {| num_rows := 2; num_cols := 1; elements := [((1, 0), 4)] |} = Ok S
    ∧ multiply
        {| num_rows := 1; num_cols := 2; elements := [((0, 0), 2); ((0, 1), 5)] |}
        S = Ok PS
    ∧ multiply
        {| num_rows := 1; num_cols := 2; elements := [((0, 0), 2); ((0, 1), 5)] |}
        {| num_rows := 2; num_cols := 1; elements := [((0, 0), 3); ((1, 0), 1)] |}
      = Ok Q1
    ∧ multiply
        {| num_rows := 1; num_cols := 2; elements := [((0, 0), 2); ((0, 1), 5)] |}
        {| num_rows := 2; num_cols := 1; elements := [((1, 0), 4)] |} = Ok Q2
    ∧ add Q1 Q2 = Ok RS
    ∧ get_element PS 0 0 = get_element RS 0 0.
Proof.
  destruct (multiply_distributes_right
              {| num_rows := 1; num_cols := 2;
                 elements := [((0, 0), 2); ((0, 1), 5)] |}
              {| num_rows := 2; num_cols := 1;
                 elements := [((0, 0), 3); ((1, 0), 1)] |}
              {| num_rows := 2; num_cols := 1; elements := [((1, 0), 4)] |})
    as (S & D & PS & PD & Q1 & Q2 & RS & RD
        & HS & _ & HPS & _ & HQ1 & HQ2 & HRS & _ & Hget).
  - refine (bool_decide_unpack _ _). vm_compute. exact I.
  - reflexivity.
  - reflexivity.
  - reflexivity.
  - exists S, PS, Q1, Q2, RS. split_and!; [done.. |]. apply Hget.
Defined.

Lemma contribution_pair C i k (item : key * Z) :
  contribution C i k (item.1, item.2) = contribution C i k item.
Proof. by destruct item. Qed.

(** X8.  [multiply] distributes over [add] and [subtract] in its left
    operand as well: [(A + B) * C] reads as [A * C + B * C] at every
    coordinate, and [(A - B) * C] as [A * C - B * C]. *)
Theorem multiply_distributes_left A B C :
  dict_wf (elements A) →
  num_rows A = num_rows B → num_cols A = num_cols B →
  num_cols A = num_rows C →
  ∃ S D PS PD Q1 Q2 RS RD,
    add A B = Ok S ∧ subtract A B = Ok D
    ∧ multiply S C = Ok PS ∧ multiply D C = Ok PD
    ∧ multiply A C = Ok Q1 ∧ multiply B C = Ok Q2
    ∧ add Q1 Q2 = Ok RS ∧ subtract Q1 Q2 = Ok RD
    ∧ ∀ i k, get_element PS i k = get_element RS i k
             ∧ get_element PD i k = get_element RD i k.
Proof.
  intros HA Hr Hc Hdim. eexists _, _, _, _, _, _, _, _.
  split; [by apply add_Ok |]. split; [by apply subtract_Ok |].
  split; [by apply multiply_Ok |]. split; [by apply multiply_Ok |].
  split; [by apply multiply_Ok |].
  split; [apply multiply_Ok; congruence |].
  split; [by apply add_Ok |]. split; [by apply subtract_Ok |].
  intros i k. unfold get_element. cbn [elements].
  assert (dict_wf (fold_left (multiply_item C) (elements B) [])) as HQ2.
  { apply multiply_fold_wf, NoDup_nil_2. }
  rewrite dict_get_add, dict_get_subtract, !multiply_get by done.
  split.
  - etrans.
    { apply (sumZ_fmap_ext _
               (λ item, (λ key v, contribution C i k (key, v)) item.1 item.2)).
      intros item _. symmetry. apply contribution_pair. }
    rewrite (merge_sum Z.add id add_item add_item_eq
               (λ key v, contribution C i k (key, v))); [| |done].
    + f_equal; apply sumZ_fmap_ext; by intros [[r c] v] _.
    + intros key a b. unfold contribution, id. cbn [fst snd].
      case_decide; lia.
  - etrans.
    { apply (sumZ_fmap_ext _
               (λ item, (λ key v, contribution C i k (key, v)) item.1 item.2)).
      intros item _. symmetry. apply contribution_pair. }
    rewrite (merge_sum Z.sub Z.opp subtract_item subtract_item_eq
               (λ key v, contribution C i k (key, v))); [| |done].
    + rewrite <-Z.add_opp_r, <-sumZ_fmap_opp.
      f_equal; apply sumZ_fmap_ext; intros [[r c] v] _;
        unfold contribution; cbn [fst snd]; try done; case_decide; lia.
    + intros key a b. unfold contribution. cbn [fst snd].
      case_decide; lia.
Qed.

Lemma multiply_distributes_left_witness :
  ∃ S PS Q1 Q2 RS,
    add {| num_rows := 1; num_cols := 2; elements := [((0, 0), 2); ((0, 1), 5)] |}
        {| num_rows := 1; num_cols := 2; elements := [((0, 1), -5)] |} = Ok S
    ∧ multiply S
        {| num_rows := 2; num_cols := 1; elements := [((0, 0), 3); ((1, 0), 1)] |}
      = Ok PS
    ∧ multiply
        {| num_rows := 1; num_cols := 2; elements := [((0, 0), 2); ((0, 1), 5)] |}
        {| num_rows := 2; num_cols := 1; elements := [((0, 0), 3); ((1, 0), 1)] |}
      = Ok Q1
    ∧ multiply
        {| num_rows := 1; num_cols := 2; elements := [((0, 1), -5)] |}
        {| num_rows := 2; num_cols := 1; elements := [((0, 0), 3); ((1, 0), 1)] |}
      = Ok Q2
    ∧ add Q1 Q2 = Ok RS
    ∧ get_element PS 0 0 = get_element RS 0 0.
Proof.
  destruct (multiply_distributes_left
              {| num_rows := 1; num_cols := 2;
                 elements := [((0, 0), 2); ((0, 1), 5)] |}
              {| num_rows := 1; num_cols := 2; elements := [((0, 1), -5)] |}
              {| num_rows := 2; num_cols := 1;
                 elements := [((0, 0), 3); ((1, 0), 1)] |})
    as (S & D & PS & PD & Q1 & Q2 & RS & RD
        & HS & _ & HPS & _ & HQ1 & HQ2 & HRS & _ & Hget).
  - refine (bool_decide_unpack _ _). vm_compute. exact I.
  - reflexivity.
  - reflexivity.
  - reflexivity.
  - exists S, PS, Q1, Q2, RS. split_and!; [done.. |]. apply Hget.
Defined.

(** ** The text of a matrix *)

Global Instance item_le_antisymm : AntiSymm (=) item_le.
Proof.
  intros [[r1 c1] v1] [[r2 c2] v2]; unfold item_le; intros H1 H2.
  repeat f_equal; lia.
Qed.

Lemma dict_eq_Permutation (d1 d2 : dict) :
  dict_wf d1 → dict_wf d2 → dict_eq d1 d2 → d1 ≡ₚ d2.
Proof.
  intros H1 H2 Heq. apply NoDup_Permutation.
  - by apply (NoDup_fmap_1 fst).
  - by apply (NoDup_fmap_1 fst).
  - intros [k v]. by rewrite <-!dict_lookup_Some, Heq.
Qed.

Lemma sorted_Permutation (d1 d2 : dict) : d1 ≡ₚ d2 → sorted d1 = sorted d2.
Proof.
  intros Hperm. apply (StronglySorted_unique item_le).
  - apply StronglySorted_merge_sort; apply _.
  - apply StronglySorted_merge_sort; apply _.
  - by rewrite !sorted_perm.
Qed.

(** X9.  Two matrices are printed as the same text exactly when they have
    the same dimensions and the same entries: the order in which the
    entries were inserted does not show, and nothing else is lost. *)
Theorem str_determines_matrix M1 M2 :
  dict_wf (elements M1) → dict_wf (elements M2) →
  __str__ M1 = __str__ M2 ↔
  num_rows M1 = num_rows M2 ∧ num_cols M1 = num_cols M2
  ∧ dict_eq (elements M1) (elements M2).
Proof.
  intros H1 H2. split.
  - intros Heq. pose proof (load_matrix_str M1 H1) as Hload.
    rewrite Heq, load_matrix_str in Hload by done.
    injection Hload as Hr Hc Hsorted. split_and!; [done.. |].
    apply dict_eq_perm; [done.. |].
    by rewrite <-(sorted_perm (elements M1)), <-Hsorted, sorted_perm.
  - intros (Hr & Hc & Heq). rewrite !str_unfold. unfold format_header.
    rewrite Hr, Hc. do 3 f_equal.
    by apply sorted_Permutation, dict_eq_Permutation.
Qed.

Lemma str_determines_matrix_witness :
  __str__ {| num_rows := 2; num_cols := 2;
             elements := [((1, 1), -5); ((0, 12), 0)] |}
  = __str__ {| num_rows := 2; num_cols := 2;
               elements := [((0, 12), 0); ((1, 1), -5)] |}.
Proof.
  apply (str_determines_matrix
           {| num_rows := 2; num_cols := 2;
              elements := [((1, 1), -5); ((0, 12), 0)] |}
           {| num_rows := 2; num_cols := 2;
              elements := [((0, 12), 0); ((1, 1), -5)] |}).
  - refine (bool_decide_unpack _ _). vm_compute. exact I.
  - refine (bool_decide_unpack _ _). vm_compute. exact I.
  - split_and!; [reflexivity.. |]. intros k. cbn [elements dict_lookup].
    repeat case_decide; congruence.
Defined.

(** ** What [load_matrix] accepts, and how it fails *)

Lemma for_each_load_line_Ok lines d :
  (∃ d', for_each lines load_line d = Ok d') ↔
  Forall (λ l, strip l = [] ∨ entry_syntax (strip l)) lines.
Proof.
  revert d. induction lines as [|l lines IH]; intros d; cbn [for_each].
  - split; [constructor | eauto].
  - rewrite Forall_cons, <-(load_line_Ok_iff d l). split.
    + intros [d' Hd']. destruct (load_line d l) as [d1|] eqn:Hl; [|done].
      cbn [mbind result_bind] in Hd'. split; [eauto |]. apply (IH d1). eauto.
    + intros [[d1 ->] Hall]. cbn [mbind result_bind]. by apply IH.
Qed.

(** X10.  [load_matrix] returns a matrix exactly when lines 1 and 2 are
    header lines and every later line is blank or an entry line; otherwise
    it raises the [ValueError] that wraps what went wrong, an [IndexError],
    an [int()] failure or the wrong-format [ValueError], and nothing
    else. *)
Theorem load_matrix_outcome content :
  ((∃ M, load_matrix content = Ok M) ↔
   header_ok (readlines content) 0 ∧ header_ok (readlines content) 1
   ∧ Forall (λ l, strip l = [] ∨ entry_syntax (strip l))
            (drop 2 (readlines content)))
  ∧ ∀ e, load_matrix content = Raise e →
      ∃ cause, e = ReadingError cause
        ∧ (header_error cause ∨ cause = wrong_format).
Proof.
  destruct (header_value (readlines content) 0) as [rows|e0] eqn:Hrows.
  - destruct (header_value (readlines content) 1) as [cols|e1] eqn:Hcols.
    + rewrite (load_matrix_headers_Ok _ _ _ Hrows Hcols).
      pose proof (for_each_load_line_Ok (drop 2 (readlines content)) [])
        as Hloop.
      destruct (for_each _ _ _) as [elems|e2] eqn:Hfor; split.
      * split; [|eauto]. intros _.
        split_and!; eauto using header_value_Ok. apply Hloop. eauto.
      * done.
      * split; [by intros [? ?] |]. intros (_ & _ & [? ?]%Hloop). done.
      * intros e [= <-]. eexists. split; [done |]. right.
        by eapply for_each_load_line_Raise.
    + rewrite (load_matrix_header_Raise content e1) by eauto. split.
      * split; [by intros [? ?] |].
        intros (_ & [n Hn]%header_ok_value & _). congruence.
      * intros e [= <-]. eexists. split; [done |]. left.
        by eapply header_value_Raise.
  - rewrite (load_matrix_header_Raise content e0) by eauto. split.
    + split; [by intros [? ?] |].
      intros ([n Hn]%header_ok_value & _). congruence.
    + intros e [= <-]. eexists. split; [done |]. left.
      by eapply header_value_Raise.
Qed.

Lemma load_matrix_outcome_witness :
  ∃ cause, load_matrix (file ["rows=2"; "cols"; "(1,2)"]%string)
           = Raise (ReadingError cause)
           ∧ (header_error cause ∨ cause = wrong_format).
Proof.
  destruct (proj2 (load_matrix_outcome (file ["rows=2"; "cols"; "(1,2)"]%string))
              (ReadingError IndexError) eq_refl)
    as (cause & Hcause & Hkind).
  exists cause. injection Hcause as <-. split; [reflexivity | exact Hkind].
Defined.

Lemma fold_setitem_lookup (items d : dict) k :
  dict_lookup (fold_left (λ d item, dict_setitem d item.1 item.2) items d) k
  = match dict_lookup (rev items) k with
    | Some v => Some v
    | None => dict_lookup d k
    end.
Proof.
  induction items as [|[k0 v0] items IH] using rev_ind; [done |].
  rewrite fold_left_app, rev_unit. cbn [fold_left dict_lookup fst snd].
  rewrite dict_lookup_setitem. case_decide; [done | apply IH].
Qed.

Lemma load_matrix_text rows cols items :
  load_matrix (matrix_text rows cols items)
  = Ok {| num_rows := rows; num_cols := cols;
          elements :=
            fold_left (λ d item, dict_setitem d item.1 item.2) items [] |}.
Proof.
  unfold load_matrix, matrix_text. rewrite readlines_join.
  - rewrite !fmap_cons.
    rewrite (header_value_format "rows" rows 0); [| |by eexists|done].
    2:{ by repeat constructor. }
    rewrite (header_value_format "cols" cols 1); [| |by eexists|done].
    2:{ by repeat constructor. }
    cbn [mbind result_bind drop]. rewrite drop_0.
    by rewrite for_each_load_line_format.
  - apply Forall_cons; split; [unfold header_text; solve_no_char |].
    apply Forall_cons; split; [unfold header_text; solve_no_char |].
    apply Forall_fmap, Forall_forall. intros [[r c] v] _.
    unfold item_text. cbn [fst snd compose]. solve_no_char.
  - apply Forall_cons; split; [unfold header_text; solve_no_char |].
    apply Forall_cons; split; [unfold header_text; solve_no_char |].
    apply Forall_fmap, Forall_forall. intros [[r c] v] _.
    unfold item_text. cbn [fst snd compose]. solve_no_char.
Qed.

(** X11.  A file with any two integers as dimensions and any entry lines,
    whatever their coordinates and however often a coordinate occurs, loads
    into a matrix with those dimensions in which every coordinate has the
    value of its last line: the dimensions are not used to check the
    entries, and a later line for a coordinate replaces the earlier
    ones. *)
Theorem load_last_entry_wins rows cols items :
  ∃ M, load_matrix (matrix_text rows cols items) = Ok M
    ∧ num_rows M = rows ∧ num_cols M = cols
    ∧ ∀ r c, get_element M r c = dict_get (rev items) (r, c) 0.
Proof.
  eexists. split; [apply load_matrix_text |]. split_and!; [done.. |].
  intros r c. unfold get_element, dict_get. cbn [elements].
  rewrite fold_setitem_lookup. by destruct (dict_lookup (rev items) (r, c)).
Qed.

(** ** Blank lines and line ends *)

Lemma for_each_load_line_nonblank lines d :
  for_each (filter nonblank lines) load_line d = for_each lines load_line d.
Proof.
  revert d. induction lines as [|l lines IH]; intros d; [done |].
  destruct (decide (nonblank l)) as [Hl|Hl].
  - rewrite filter_cons_True by done. cbn [for_each].
    destruct (load_line d l); cbn [mbind result_bind]; [apply IH | done].
  - rewrite filter_cons_False by done. cbn [for_each].
    assert (load_line d l = Ok d) as ->.
    { unfold load_line. unfold nonblank in Hl.
      by destruct (strip l); [|destruct Hl]. }
    cbn [mbind result_bind]. apply IH.
Qed.

(** X12.  Only the first two lines and the lines that are not blank count:
    two files whose first two lines agree and whose later lines agree once
    the blank ones (empty or white space only) are left out give the same
    result, matrix or exception. *)
Theorem load_matrix_skips_blank_lines content1 content2 :
  take 2 (readlines content1) = take 2 (readlines content2) →
  filter nonblank (drop 2 (readlines content1))
  = filter nonblank (drop 2 (readlines content2)) →
  load_matrix content1 = load_matrix content2.
Proof.
  intros Hhead Htail. unfold load_matrix.
  assert (∀ i, (i < 2)%nat →
               header_value (readlines content1) i
               = header_value (readlines content2) i) as Hheader.
  { intros i Hi. unfold header_value, index.
    by rewrite <-(lookup_take_lt _ 2 i), Hhead, lookup_take_lt by done. }
  rewrite !Hheader by lia.
  by rewrite <-(for_each_load_line_nonblank (drop 2 (readlines content1))),
    Htail, for_each_load_line_nonblank.
Qed.

Lemma load_matrix_skips_blank_lines_witness :
  load_matrix (file ["rows=2"; "cols=2"; ""; "(0, 1, 7)"; "   "; "(1, 1, 3)"]%string)
  = load_matrix (file ["rows=2"; "cols=2"; "(0, 1, 7)"; "(1, 1, 3)"; ""]%string).
Proof.
  apply load_matrix_skips_blank_lines.
  - vm_compute. reflexivity.
  - vm_compute. reflexivity.
Defined.

Lemma translate_newlines_write_text linesep s :
  linesep = [LF] ∨ linesep = [CR; LF] →
  Forall (λ c, Ascii.eqb c CR = false) s →
  translate_newlines false (write_text linesep s) = s.
Proof.
  intros Hsep Hs. unfold write_text.
  induction Hs as [|c s Hc _ IH]; [done |].
  rewrite fmap_cons, mjoin_cons.
  destruct (Ascii.eqb_spec c LF) as [->|Hne].
  - destruct Hsep as [->| ->]; cbn [app translate_newlines];
      change (Ascii.eqb LF CR) with false;
      change (Ascii.eqb CR CR) with true;
      change (Ascii.eqb LF LF) with true; cbv iota; by rewrite IH.
  - cbn [app translate_newlines]. rewrite Hc.
    apply Ascii.eqb_neq in Hne as ->. by rewrite IH.
Qed.

Lemma readlines_write_text linesep s :
  linesep = [LF] ∨ linesep = [CR; LF] →
  Forall (λ c, Ascii.eqb c CR = false) s →
  readlines (write_text linesep s) = readlines s.
Proof.
  intros Hsep Hs. unfold readlines.
  rewrite translate_newlines_write_text by done.
  by rewrite (translate_newlines_id s).
Qed.

(** X13.  A text without carriage returns that is written to a file in text
    mode, with either line separator, is read back by [load_matrix] as the
    text itself: the result is the same on both kinds of platform. *)
Theorem load_matrix_line_separator linesep content :
  linesep = [LF] ∨ linesep = [CR; LF] →
  Forall (λ c, Ascii.eqb c CR = false) content →
  load_matrix (write_text linesep content) = load_matrix content.
Proof.
  intros Hsep Hcontent. unfold load_matrix.
  by rewrite readlines_write_text.
Qed.

Lemma load_matrix_line_separator_witness :
  load_matrix (write_text [CR; LF] (file ["rows=2"; "cols=2"; "(0, 1, 7)"]%string))
  = load_matrix (file ["rows=2"; "cols=2"; "(0, 1, 7)"]%string).
Proof.
  apply load_matrix_line_separator.
  - by right.
  - refine (bool_decide_unpack _ _). vm_compute. exact I.
Defined.

(** ** The program: [main] *)

Section program_facts.
Variables (linesep : str) (writable : string → bool).
Variables (matrix1 matrix2 : SparseMatrix).

Local Abbreviation compute_and_save := (compute_and_save linesep writable).
Local Abbreviation iteration := (iteration linesep writable matrix1 matrix2).
Local Abbreviation main_loop := (main_loop linesep writable matrix1 matrix2).
Local Abbreviation evolves := (evolves linesep matrix1 matrix2).

Lemma main_loop_nil w :
  main_loop [] w
  = (Raises EOFError, emit (Prompt (txt "Enter choice: ")) (print_menu w)).
Proof. done. Qed.

Lemma main_loop_cons choice inputs w :
  main_loop (choice :: inputs) w
  = match iteration choice
            (emit (Prompt (txt "Enter choice: ")) (print_menu w)) with
    | (Returns true, w') => main_loop inputs w'
    | (Returns false, w') => (Returns inputs, w')
    | (Raises e, w') => (Raises e, w')
    end.
Proof.
  cbn [main_loop]. unfold iteration.
  repeat case_decide; try done;
    destruct (compute_and_save _ _ _ _) as [[[]|e] w']; try done;
    by destruct (is_program_ValueError e).
Qed.

Lemma result_path_inj op1 op2 : result_path op1 = result_path op2 → op1 = op2.
Proof.
  intros H%String.eqb_eq. by destruct op1, op2; vm_compute in H.
Qed.

Lemma evolves_refl w : evolves w w.
Proof. split_and!; [done | by left | exists []; by rewrite app_nil_r]. Qed.

Lemma evolves_trans w1 w2 w3 : evolves w1 w2 → evolves w2 w3 → evolves w1 w3.
Proof.
  intros (Hf1 & Hr1 & out1 & Ho1) (Hf2 & Hr2 & out2 & Ho2). split_and!.
  - intros p Hp. by rewrite Hf2, Hf1.
  - intros op. destruct (Hr2 op) as [->|?]; [apply Hr1 | by right].
  - exists (out1 ++ out2). by rewrite Ho2, Ho1, app_assoc.
Qed.

Lemma evolves_emit ev w : evolves w (emit ev w).
Proof. split_and!; [done | by left | by exists [ev]]. Qed.

Lemma evolves_print_menu w : evolves w (print_menu w).
Proof.
  unfold print_menu. repeat (eapply evolves_trans; [|apply evolves_emit]).
  apply evolves_refl.
Qed.

Lemma files_write_eq path content (d : files) :
  files_write path content d path = Some content.
Proof. unfold files_write. by rewrite String.eqb_refl. Qed.

Lemma files_write_ne path content (d : files) p :
  p ≠ path → files_write path content d p = d p.
Proof. unfold files_write. by intros ->%String.eqb_neq. Qed.

Lemma evolves_compute_and_save op w res w' :
  compute_and_save op matrix1 matrix2 w = (res, w') → evolves w w'.
Proof.
  unfold compute_and_save, write_file.
  destruct (apply op matrix1 matrix2) as [R|e] eqn:Hop.
  - destruct (writable (result_path op)); intros [= <- <-];
      [|apply evolves_emit].
    split_and!; cbn [disk stdout emit].
    + intros p Hp. by apply files_write_ne.
    + intros op'. destruct (decide (op' = op)) as [->|Hne].
      * right. exists R. by rewrite files_write_eq.
      * left. apply files_write_ne. by intros ?%result_path_inj.
    + by eexists [_].
  - intros [= <- <-]. apply evolves_refl.
Qed.

Lemma evolves_iteration choice w res w' :
  iteration choice w = (res, w') → evolves w w'.
Proof.
  unfold iteration. repeat case_decide.
  - destruct (compute_and_save _ _ _ _) as [[[]|e] w1] eqn:Hc;
      apply evolves_compute_and_save in Hc; [by intros [= <- <-] |].
    destruct (is_program_ValueError e); intros [= <- <-]; [|done].
    eapply evolves_trans; [done | apply evolves_emit].
  - destruct (compute_and_save _ _ _ _) as [[[]|e] w1] eqn:Hc;
      apply evolves_compute_and_save in Hc; [by intros [= <- <-] |].
    destruct (is_program_ValueError e); intros [= <- <-]; [|done].
    eapply evolves_trans; [done | apply evolves_emit].
  - destruct (compute_and_save _ _ _ _) as [[[]|e] w1] eqn:Hc;
      apply evolves_compute_and_save in Hc; by intros [= <- <-].
  - intros [= <- <-]. apply evolves_refl.
  - intros [= <- <-]. apply evolves_emit.
Qed.

Lemma evolves_main_loop inputs w res w' :
  main_loop inputs w = (res, w') → evolves w w'.
Proof.
  revert w. induction inputs as [|choice inputs IH]; intros w.
  - rewrite main_loop_nil. intros [= <- <-].
    eapply evolves_trans; [apply evolves_print_menu | apply evolves_emit].
  - rewrite main_loop_cons.
    destruct (iteration _ _) as [[[]|e] w1] eqn:Hit;
      apply evolves_iteration in Hit;
      assert (evolves w w1) as Hw1
        by (eapply evolves_trans; [|done];
            eapply evolves_trans; [apply evolves_print_menu | apply evolves_emit]).
    + intros Hloop%IH. by eapply evolves_trans.
    + by intros [= <- <-].
    + by intros [= <- <-].
Qed.

End program_facts.

Lemma str_no_CR M : Forall (λ c, Ascii.eqb c CR = false) (__str__ M).
Proof.
  rewrite str_unfold. apply Forall_app. split.
  - unfold format_header. solve_no_char.
  - induction (sorted (elements M)) as [|[[r c] v] items IH]; [constructor |].
    rewrite fmap_cons, mjoin_cons. apply Forall_app. split; [|done].
    unfold format_item. solve_no_char.
Qed.

Lemma load_matrix_written linesep M :
  linesep = [LF] ∨ linesep = [CR; LF] → dict_wf (elements M) →
  load_matrix (write_text linesep (__str__ M))
  = Ok {| num_rows := num_rows M; num_cols := num_cols M;
          elements := sorted (elements M) |}.
Proof.
  intros Hsep HM. etrans; [|by apply load_matrix_str].
  unfold load_matrix. by rewrite readlines_write_text by auto using str_no_CR.
Qed.

Lemma load_matrix_Raise content e :
  load_matrix content = Raise e → ∃ cause, e = ReadingError cause.
Proof.
  destruct (header_value (readlines content) 0) as [rows|e0] eqn:Hrows.
  - destruct (header_value (readlines content) 1) as [cols|e1] eqn:Hcols.
    + rewrite (load_matrix_headers_Ok _ _ _ Hrows Hcols).
      destruct (for_each _ _ _); [done |]. intros [= <-]. eauto.
    + rewrite (load_matrix_header_Raise content e1) by eauto.
      intros [= <-]. eauto.
  - rewrite (load_matrix_header_Raise content e0) by eauto.
    intros [= <-]. eauto.
Qed.

Lemma init_path disk path r c :
  path ≠ ""%string → __init__ disk (Some path) r c = load_matrix_file disk path.
Proof. intros Hne%String.eqb_neq. unfold __init__. by rewrite Hne. Qed.

(** X14.  A matrix written to a file as [__str__] gives it, with either
    line separator, and constructed again from the path of that file comes
    back with the same dimensions and the same entries; dimensions passed
    to the constructor along with the path are not used. *)
Theorem init_reads_back_written_matrix linesep M path (d : files) r c :
  linesep = [LF] ∨ linesep = [CR; LF] →
  dict_wf (elements M) → path ≠ ""%string →
  ∃ M', __init__ (files_write path (write_text linesep (__str__ M)) d)
          (Some path) r c = Returns M'
    ∧ num_rows M' = num_rows M ∧ num_cols M' = num_cols M
    ∧ dict_eq (elements M') (elements M).
Proof.
  intros Hsep HM Hpath. rewrite init_path by done.
  unfold load_matrix_file. rewrite files_write_eq.
  rewrite load_matrix_written by done.
  eexists. split; [done |]. cbn [num_rows num_cols elements].
  split_and!; [done.. |].
  apply dict_eq_perm; [by apply sorted_wf | done | apply sorted_perm].
Qed.

Lemma init_reads_back_written_matrix_witness :
  ∃ M', __init__
          (files_write "out.txt"
             (write_text [CR; LF]
                (__str__ {| num_rows := 2; num_cols := 2;
                            elements := [((1, 1), -5); ((0, 12), 0)] |}))
             (λ _, None))
          (Some "out.txt"%string) (Some 7) None = Returns M'
    ∧ num_rows M' = 2 ∧ num_cols M' = 2
    ∧ dict_eq (elements M') [((1, 1), -5); ((0, 12), 0)].
Proof.
  apply (init_reads_back_written_matrix [CR; LF]
           {| num_rows := 2; num_cols := 2;
              elements := [((1, 1), -5); ((0, 12), 0)] |}).
  - by right.
  - refine (bool_decide_unpack _ _). vm_compute. exact I.
  - discriminate.
Defined.

Section main_facts.
Variables (linesep : str) (writable : string → bool).

Local Abbreviation main_loop := (main_loop linesep writable).
Local Abbreviation iteration := (iteration linesep writable).
Local Abbreviation compute_and_save := (compute_and_save linesep writable).

Lemma main_unfold inputs w :
  main linesep writable inputs w
  = match load_matrix_file (disk w) matrix1_path with
    | Raises e => (Raises e, w)
    | Returns matrix1 =>
        match load_matrix_file (disk w) matrix2_path with
        | Raises e => (Raises e, w)
        | Returns matrix2 =>
            main_loop matrix1 matrix2 inputs
              (emit (Print (txt "Matrix 2: " ++ str_of_int (num_rows matrix2)
                            ++ txt " rows, " ++ str_of_int (num_cols matrix2)
                            ++ txt " cols"))
                 (emit (Print (txt "Matrix 1: "
                               ++ str_of_int (num_rows matrix1)
                               ++ txt " rows, "
                               ++ str_of_int (num_cols matrix1)
                               ++ txt " cols")) w))
        end
    end.
Proof. unfold main. by rewrite !init_path. Qed.

Lemma main_evolves inputs w res w' :
  main linesep writable inputs w = (res, w') →
  (res = Raises (ReadingOSError matrix1_path) ∧ w' = w)
  ∨ (res = Raises (ReadingOSError matrix2_path) ∧ w' = w)
  ∨ (∃ cause, res = Raises (ClassError (ReadingError cause)) ∧ w' = w)
  ∨ ∃ matrix1 matrix2 w0,
      load_matrix_file (disk w) matrix1_path = Returns matrix1
      ∧ load_matrix_file (disk w) matrix2_path = Returns matrix2
      ∧ evolves linesep matrix1 matrix2 w w0
      ∧ main_loop matrix1 matrix2 inputs w0 = (res, w')
      ∧ evolves linesep matrix1 matrix2 w w'.
Proof.
  rewrite main_unfold.
  assert (∀ path e, load_matrix_file (disk w) path = Raises e →
            e = ReadingOSError path ∨ ∃ cause, e = ClassError (ReadingError cause))
    as Hfail.
  { intros path e. unfold load_matrix_file.
    destruct (disk w path) as [content|]; [|intros [= <-]; by left].
    destruct (load_matrix content) as [M|e'] eqn:Hload; [done |].
    intros [= <-]. apply load_matrix_Raise in Hload as [cause ->]. eauto. }
  destruct (load_matrix_file (disk w) matrix1_path) as [m1|e1] eqn:H1.
  - destruct (load_matrix_file (disk w) matrix2_path) as [m2|e2] eqn:H2.
    + intros Hloop. do 3 right. eexists m1, m2, _.
      split_and!; [done | done | | exact Hloop |].
      * eapply evolves_trans; apply evolves_emit.
      * eapply evolves_trans; [|by eapply evolves_main_loop].
        eapply evolves_trans; apply evolves_emit.
    + intros [= <- <-].
      destruct (Hfail _ _ H2) as [->|[cause ->]]; eauto 10.
  - intros [= <- <-].
    destruct (Hfail _ _ H1) as [->|[cause ->]];
      eauto 10.
Qed.

End main_facts.

Lemma load_matrix_file_wf (d : files) path M :
  load_matrix_file d path = Returns M → dict_wf (elements M).
Proof.
  unfold load_matrix_file. destruct (d path) as [content|]; [|done].
  destruct (load_matrix content) as [M'|] eqn:Hload; [|done].
  intros [= <-]. by eapply load_matrix_wf.
Qed.

Lemma result_path_nonempty op : result_path op ≠ ""%string.
Proof. by destruct op. Qed.

Lemma choice_of_inj op1 op2 : choice_of op1 = choice_of op2 → op1 = op2.
Proof. by destruct op1, op2. Qed.

Lemma choice_of_not_exit op : choice_of op ≠ txt "4".
Proof. by destruct op. Qed.

Section loop_facts.
Variables (linesep : str) (writable : string → bool).
Variables (matrix1 matrix2 : SparseMatrix).

Local Abbreviation compute_and_save := (compute_and_save linesep writable).
Local Abbreviation iteration := (iteration linesep writable matrix1 matrix2).
Local Abbreviation main_loop := (main_loop linesep writable matrix1 matrix2).
Local Abbreviation evolves := (evolves linesep matrix1 matrix2).

Lemma apply_Raise op ex :
  apply op matrix1 matrix2 = Raise ex →
  is_ValueError ex = true
  ∧ (op = Multiply →
     ex = ValueError "Matrices dimensions do not match for multiplication."
     ∧ num_cols matrix1 ≠ num_rows matrix2).
Proof.
  destruct op; cbn [apply]; intros Hex.
  - destruct (add_cases matrix1 matrix2) as [(_ & _ & R & HR & _)|[_ HR]];
      rewrite HR in Hex; [done |]. by injection Hex as <-.
  - destruct (subtract_cases matrix1 matrix2) as [(_ & _ & R & HR & _)|[_ HR]];
      rewrite HR in Hex; [done |]. by injection Hex as <-.
  - destruct (multiply_cases matrix1 matrix2) as [(_ & R & HR & _)|[Hne HR]];
      rewrite HR in Hex; [done |]. by injection Hex as <-.
Qed.

Lemma compute_and_save_Raises op w e w' :
  compute_and_save op matrix1 matrix2 w = (Raises e, w') →
  (e = WriteOSError (result_path op) ∧ writable (result_path op) = false)
  ∨ ∃ ex, e = ClassError ex ∧ apply op matrix1 matrix2 = Raise ex.
Proof.
  unfold compute_and_save, write_file.
  destruct (apply op matrix1 matrix2) as [R|ex].
  - destruct (writable (result_path op)); intros ?; simplify_eq. by left.
  - intros ?; simplify_eq. eauto.
Qed.

Lemma compute_and_save_cases op w :
  writable (result_path op) = true →
  (∃ R w', apply op matrix1 matrix2 = Ok R
           ∧ compute_and_save op matrix1 matrix2 w = (Returns (), w')
           ∧ disk w' (result_path op) = Some (write_text linesep (__str__ R)))
  ∨ ∃ ex, apply op matrix1 matrix2 = Raise ex
          ∧ compute_and_save op matrix1 matrix2 w = (Raises (ClassError ex), w).
Proof.
  intros Hw. unfold compute_and_save, write_file. rewrite Hw.
  destruct (apply op matrix1 matrix2) as [R|ex]; [left | right; eauto].
  eexists R, _. split_and!; [done.. |]. cbn [disk]. apply files_write_eq.
Qed.

Lemma iteration_choice_of op w :
  iteration (choice_of op) w
  = match compute_and_save op matrix1 matrix2 w with
    | (Returns _, w') => (Returns true, w')
    | (Raises e, w') =>
        if is_program_ValueError e
        then match op with
             | Multiply => (Raises e, w')
             | _ => (Returns true, emit (PrintException e) w')
             end
        else (Raises e, w')
    end.
Proof.
  unfold iteration.
  destruct op; cbn [choice_of]; repeat (case_decide; try done);
    destruct (compute_and_save _ _ _ _) as [[[]|e] w']; try done.
  by destruct (is_program_ValueError e).
Qed.

Lemma iteration_other choice w :
  (∀ op, choice ≠ choice_of op) →
  iteration choice w
  = if decide (choice = txt "4") then (Returns false, w)
    else (Returns true,
          emit (Print (txt "Invalid choice. Please select again.")) w).
Proof.
  intros Hop. unfold iteration.
  pose proof (Hop Add). pose proof (Hop Subtract). pose proof (Hop Multiply).
  by repeat (case_decide; try done).
Qed.

Lemma choice_cases choice :
  (∃ op, choice = choice_of op) ∨ (∀ op, choice ≠ choice_of op).
Proof.
  destruct (decide (choice = choice_of Add)); [eauto |].
  destruct (decide (choice = choice_of Subtract)); [eauto |].
  destruct (decide (choice = choice_of Multiply)); [eauto |].
  right. by intros [].
Qed.

Lemma iteration_Raises choice w e w' :
  iteration choice w = (Raises e, w') →
  (∃ op, choice = choice_of op ∧ e = WriteOSError (result_path op)
         ∧ writable (result_path op) = false)
  ∨ (choice = txt "3"
     ∧ e = ClassError
             (ValueError "Matrices dimensions do not match for multiplication.")
     ∧ num_cols matrix1 ≠ num_rows matrix2).
Proof.
  destruct (choice_cases choice) as [[op ->]|Hother].
  - rewrite iteration_choice_of.
    destruct (compute_and_save _ _ _ _) as [[[]|e1] w1] eqn:Hc; [done |].
    apply compute_and_save_Raises in Hc as [[-> Hw]|(ex & -> & Hex)].
    + cbn [is_program_ValueError]. intros ?; simplify_eq. left. eauto.
    + apply apply_Raise in Hex as [Hv Hmul]. cbn [is_program_ValueError].
      rewrite Hv. destruct op; intros ?; simplify_eq.
      destruct Hmul as [-> Hne]; [done |]. by right.
  - rewrite iteration_other by done. by case_decide.
Qed.

Lemma iteration_break choice w w' :
  iteration choice w = (Returns false, w') ↔ choice = txt "4" ∧ w' = w.
Proof.
  destruct (choice_cases choice) as [[op ->]|Hother].
  - rewrite iteration_choice_of. split.
    + destruct (compute_and_save _ _ _ _) as [[[]|e1] w1]; [done |].
      destruct (is_program_ValueError e1); [by destruct op | done].
    + by intros [?%choice_of_not_exit _].
  - rewrite iteration_other by done. case_decide; split.
    + by intros [= <-].
    + by intros [_ ->].
    + done.
    + by intros [? _].
Qed.

Lemma iteration_exit w : iteration (txt "4") w = (Returns false, w).
Proof. by apply iteration_break. Qed.

Lemma iteration_continue choice w :
  choice ≠ txt "4" →
  (∀ op, choice = choice_of op → writable (result_path op) = true) →
  (choice = txt "3" → num_cols matrix1 = num_rows matrix2) →
  ∃ w', iteration choice w = (Returns true, w').
Proof.
  intros Hexit Hw Hmul. destruct (choice_cases choice) as [[op ->]|Hother].
  - rewrite iteration_choice_of.
    destruct (compute_and_save_cases op w) as
      [(R & w' & _ & -> & _)|(ex & Hex & ->)]; [by apply Hw | eauto |].
    apply apply_Raise in Hex as [Hv Hne]. cbn [is_program_ValueError].
    rewrite Hv. destruct op; [eauto.. |].
    destruct Hne as [_ Hne]; [done |]. by destruct Hne, Hmul.
  - rewrite iteration_other by done. rewrite decide_False by done. eauto.
Qed.

Lemma iteration_saves op w w' R :
  iteration (choice_of op) w = (Returns true, w') →
  apply op matrix1 matrix2 = Ok R →
  disk w' (result_path op) = Some (write_text linesep (__str__ R))
  ∧ Print (txt (result_label op) ++ [LF] ++ txt " " ++ __str__ R)
    ∈ stdout w'.
Proof.
  rewrite iteration_choice_of. intros Hit HR.
  unfold compute_and_save, write_file in Hit. rewrite HR in Hit.
  destruct (writable (result_path op)); cbn [is_program_ValueError] in Hit;
    [|done].
  injection Hit as <-. cbn [disk stdout emit]. split.
  - apply files_write_eq.
  - apply elem_of_app. right. by left.
Qed.

Lemma evolves_saved w w' op R ev :
  evolves w w' → apply op matrix1 matrix2 = Ok R →
  disk w (result_path op) = Some (write_text linesep (__str__ R))
  ∧ ev ∈ stdout w →
  disk w' (result_path op) = Some (write_text linesep (__str__ R))
  ∧ ev ∈ stdout w'.
Proof.
  intros (_ & Hres & out & ->) HR [Hw Hev]. split.
  - destruct (Hres op) as [->|(R' & HR' & ->)]; [done |]. congruence.
  - apply elem_of_app. by left.
Qed.

Lemma main_loop_Raises inputs w e w' :
  main_loop inputs w = (Raises e, w') →
  (e = EOFError ∧ txt "4" ∉ inputs)
  ∨ (∃ op, choice_of op ∈ inputs ∧ e = WriteOSError (result_path op)
           ∧ writable (result_path op) = false)
  ∨ (txt "3" ∈ inputs
     ∧ e = ClassError
             (ValueError "Matrices dimensions do not match for multiplication.")
     ∧ num_cols matrix1 ≠ num_rows matrix2).
Proof.
  revert w. induction inputs as [|choice inputs IH]; intros w.
  - rewrite main_loop_nil. intros [= <- <-]. left. split; [done |].
    apply not_elem_of_nil.
  - rewrite main_loop_cons.
    destruct (iteration _ _) as [[[]|e1] w1] eqn:Hit; [| done |].
    + assert (choice ≠ txt "4") as Hexit.
      { intros ->. by rewrite iteration_exit in Hit. }
      intros [[-> Hno]|[(op & Hin & -> & Hw)|(Hin & -> & Hne)]]%IH.
      * left. split; [done |]. by apply not_elem_of_cons.
      * right; left. exists op. split_and!; [by right | done..].
      * right; right. split_and!; [by right | done..].
    + intros [= <- <-].
      apply iteration_Raises in Hit as [(op & -> & -> & Hw)|(-> & -> & Hne)].
      * right; left. exists op. split_and!; [by left | done..].
      * right; right. split_and!; [by left | done..].
Qed.

Lemma main_loop_Returns inputs w rest w' :
  main_loop inputs w = (Returns rest, w') →
  ∃ pre, inputs = pre ++ txt "4" :: rest ∧ txt "4" ∉ pre.
Proof.
  revert w. induction inputs as [|choice inputs IH]; intros w.
  - by rewrite main_loop_nil.
  - rewrite main_loop_cons.
    destruct (iteration _ _) as [[[]|e1] w1] eqn:Hit; [| | done].
    + assert (choice ≠ txt "4") as Hexit.
      { intros ->. by rewrite iteration_exit in Hit. }
      intros (pre & -> & Hpre)%IH. exists (choice :: pre).
      split; [done |]. by apply not_elem_of_cons.
    + apply iteration_break in Hit as [-> ->]. intros [= <- <-].
      exists []. split; [done | apply not_elem_of_nil].
Qed.

Lemma main_loop_exits pre rest w :
  txt "4" ∉ pre →
  (∀ op, choice_of op ∈ pre → writable (result_path op) = true) →
  (txt "3" ∈ pre → num_cols matrix1 = num_rows matrix2) →
  ∃ w', main_loop (pre ++ txt "4" :: rest) w = (Returns rest, w').
Proof.
  revert w. induction pre as [|choice pre IH]; intros w Hexit Hw Hmul.
  - cbn [app]. rewrite main_loop_cons.
    rewrite iteration_exit. eauto.
  - apply not_elem_of_cons in Hexit as [Hne Hexit].
    rewrite <-app_comm_cons, main_loop_cons.
    destruct (iteration_continue choice
                (emit (Prompt (txt "Enter choice: ")) (print_menu w)))
      as [w1 ->].
    + done.
    + intros op ->. apply Hw. by left.
    + intros ->. apply Hmul. by left.
    + apply IH; [done | |].
      * intros op Hin. apply Hw. by right.
      * intros Hin. apply Hmul. by right.
Qed.

Lemma main_loop_saves pre rest w res w' op R :
  main_loop (pre ++ txt "4" :: rest) w = (Returns res, w') →
  txt "4" ∉ pre → choice_of op ∈ pre →
  apply op matrix1 matrix2 = Ok R →
  disk w' (result_path op) = Some (write_text linesep (__str__ R))
  ∧ Print (txt (result_label op) ++ [LF] ++ txt " " ++ __str__ R)
    ∈ stdout w'.
Proof.
  revert w. induction pre as [|choice pre IH]; intros w Hloop Hexit Hin HR.
  - by apply elem_of_nil in Hin.
  - apply not_elem_of_cons in Hexit as [Hne Hexit].
    rewrite <-app_comm_cons, main_loop_cons in Hloop.
    destruct (iteration _ _) as [[[]|e1] w1] eqn:Hit; [| | done].
    + destruct (decide (choice_of op ∈ pre)) as [Hin'|Hin'];
        [by eapply IH |].
      apply elem_of_cons in Hin as [<-|Hin]; [|done].
      eapply evolves_saved; [by eapply evolves_main_loop | done |].
      by eapply iteration_saves.
    + by apply iteration_break in Hit as [-> _].
Qed.

End loop_facts.

(** ** What a run of [main] does *)

(** X15.  However it ends, a run of [main] changes no file other than the
    three result files, in particular not the two files it loads, and
    takes nothing back from the standard output. *)
Theorem main_changes_only_result_files linesep writable inputs w res w' :
  main linesep writable inputs w = (res, w') →
  (∀ p, (∀ op, p ≠ result_path op) → disk w' p = disk w p)
  ∧ disk w' matrix1_path = disk w matrix1_path
  ∧ disk w' matrix2_path = disk w matrix2_path
  ∧ ∃ out, stdout w' = stdout w ++ out.
Proof.
  intros Hmain.
  assert ((∀ p, (∀ op, p ≠ result_path op) → disk w' p = disk w p)
          ∧ ∃ out, stdout w' = stdout w ++ out) as [Hfiles Hout].
  { apply main_evolves in Hmain
      as [[_ ->]|[[_ ->]|[(cause & _ & ->)|
            (m1 & m2 & w0 & _ & _ & _ & _ & Hfiles & _ & Hout)]]];
      try (split; [done | exists []; by rewrite app_nil_r]).
    done. }
  split_and!; [done | | | done]; apply Hfiles; by intros [].
Qed.

Lemma main_changes_only_result_files_witness :
  (∀ p, (∀ op, p ≠ result_path op) →
        disk (main [LF] (λ _, true) [txt "2"; txt "1"; txt "4"] sample_world).2 p
        = disk sample_world p)
  ∧ disk (main [LF] (λ _, true) [txt "2"; txt "1"; txt "4"] sample_world).2
      matrix1_path
    = disk sample_world matrix1_path
  ∧ disk (main [LF] (λ _, true) [txt "2"; txt "1"; txt "4"] sample_world).2
      matrix2_path
    = disk sample_world matrix2_path
  ∧ ∃ out,
      stdout (main [LF] (λ _, true) [txt "2"; txt "1"; txt "4"] sample_world).2
      = stdout sample_world ++ out.
Proof.
  apply (main_changes_only_result_files [LF] (λ _, true)
           [txt "2"; txt "1"; txt "4"] sample_world
           (main [LF] (λ _, true) [txt "2"; txt "1"; txt "4"] sample_world).1).
  vm_compute. reflexivity.
Defined.

(** X16.  After a run of [main] that loaded the two matrices, however it
    ends, each result file is as it was before or holds the text of the
    result of its method on the two matrices; constructed again from that
    file, with either line separator, the result comes back with its
    dimensions and its entries. *)
Theorem main_result_file_reads_back
    linesep writable inputs w res w' matrix1 matrix2 op :
  linesep = [LF] ∨ linesep = [CR; LF] →
  load_matrix_file (disk w) matrix1_path = Returns matrix1 →
  load_matrix_file (disk w) matrix2_path = Returns matrix2 →
  main linesep writable inputs w = (res, w') →
  disk w' (result_path op) = disk w (result_path op)
  ∨ ∃ R M, apply op matrix1 matrix2 = Ok R
      ∧ disk w' (result_path op) = Some (write_text linesep (__str__ R))
      ∧ __init__ (disk w') (Some (result_path op)) None None = Returns M
      ∧ num_rows M = num_rows R ∧ num_cols M = num_cols R
      ∧ ∀ r c, get_element M r c = get_element R r c.
Proof.
  intros Hsep H1 H2 Hmain.
  apply main_evolves in Hmain
    as [[_ ->]|[[_ ->]|[(cause & _ & ->)|
          (m1 & m2 & w0 & H1' & H2' & _ & _ & _ & Hres & _)]]];
    [by left.. |].
  rewrite H1 in H1'. rewrite H2 in H2'.
  injection H1' as <-. injection H2' as <-.
  destruct (Hres op) as [?|(R & HR & Hfile)]; [by left | right].
  assert (dict_wf (elements R)) as HwfR.
  { eapply apply_wf; [|done]. by eapply load_matrix_file_wf. }
  eexists R, _. split_and!; [done | done | | | |].
  - rewrite init_path by apply result_path_nonempty.
    unfold load_matrix_file. rewrite Hfile.
    by rewrite load_matrix_written by done.
  - done.
  - done.
  - intros r c. unfold get_element, dict_get. cbn [elements]. f_equal.
    apply dict_eq_perm; [by apply sorted_wf | done | apply sorted_perm].
Qed.

Lemma main_result_file_reads_back_witness :
  disk (main [CR; LF] (λ _, true) [txt "2"; txt "1"; txt "4"] sample_world).2
    (result_path Add)
  = disk sample_world (result_path Add)
  ∨ ∃ R M,
      apply Add
        {| num_rows := 2; num_cols := 3;
           elements := [((0, 0), 1); ((1, 2), -4)] |}
        {| num_rows := 2; num_cols := 3;
           elements := [((0, 0), 5); ((1, 1), 7)] |} = Ok R
      ∧ disk (main [CR; LF] (λ _, true) [txt "2"; txt "1"; txt "4"]
                sample_world).2 (result_path Add)
        = Some (write_text [CR; LF] (__str__ R))
      ∧ __init__
          (disk (main [CR; LF] (λ _, true) [txt "2"; txt "1"; txt "4"]
                   sample_world).2)
          (Some (result_path Add)) None None = Returns M
      ∧ num_rows M = num_rows R ∧ num_cols M = num_cols R
      ∧ ∀ r c, get_element M r c = get_element R r c.
Proof.
  apply (main_result_file_reads_back [CR; LF] (λ _, true)
           [txt "2"; txt "1"; txt "4"] sample_world
           (main [CR; LF] (λ _, true) [txt "2"; txt "1"; txt "4"]
              sample_world).1).
  - by right.
  - vm_compute. reflexivity.
  - vm_compute. reflexivity.
  - vm_compute. reflexivity.
Defined.

(** X17.  The exceptions a run of [main] can end with: a failure to load
    one of the two files, before anything is printed or written; the end
    of the input, when no line is [4]; a result file that cannot be
    opened for writing, after a line that selects its operation; and the
    dimension error of the multiplication, after a line [3] with
    [num_cols] of the first matrix different from [num_rows] of the
    second.  The dimension errors of the addition and of the subtraction
    never end it. *)
Theorem main_raises linesep writable inputs w e w' :
  main linesep writable inputs w = (Raises e, w') →
  (w' = w
   ∧ (e = ReadingOSError matrix1_path ∨ e = ReadingOSError matrix2_path
      ∨ ∃ cause, e = ClassError (ReadingError cause)))
  ∨ (e = EOFError ∧ txt "4" ∉ inputs)
  ∨ (∃ op, choice_of op ∈ inputs ∧ e = WriteOSError (result_path op)
           ∧ writable (result_path op) = false)
  ∨ (txt "3" ∈ inputs
     ∧ e = ClassError
             (ValueError "Matrices dimensions do not match for multiplication.")
     ∧ ∃ matrix1 matrix2,
         load_matrix_file (disk w) matrix1_path = Returns matrix1
         ∧ load_matrix_file (disk w) matrix2_path = Returns matrix2
         ∧ num_cols matrix1 ≠ num_rows matrix2).
Proof.
  intros Hmain.
  apply main_evolves in Hmain
    as [[[= ->] ->]|[[[= ->] ->]|[(cause & [= ->] & ->)|
          (m1 & m2 & w0 & H1 & H2 & _ & Hloop & _)]]];
    [left; eauto 10.. |].
  right.
  apply main_loop_Raises in Hloop
    as [?|[?|(Hin & -> & Hne)]]; [by left | by right; left |].
  right; right. eauto 10.
Qed.

Lemma main_raises_witness :
  ((main [LF] (λ _, true) [txt "2"; txt "3"; txt "4"] sample_world).2
   = sample_world
   ∧ (ClassError
        (ValueError "Matrices dimensions do not match for multiplication.")
      = ReadingOSError matrix1_path
      ∨ ClassError
          (ValueError "Matrices dimensions do not match for multiplication.")
        = ReadingOSError matrix2_path
      ∨ ∃ cause,
          ClassError
            (ValueError "Matrices dimensions do not match for multiplication.")
          = ClassError (ReadingError cause)))
  ∨ (ClassError
       (ValueError "Matrices dimensions do not match for multiplication.")
     = EOFError
     ∧ txt "4" ∉ [txt "2"; txt "3"; txt "4"])
  ∨ (∃ op, choice_of op ∈ [txt "2"; txt "3"; txt "4"]
           ∧ ClassError
               (ValueError
                  "Matrices dimensions do not match for multiplication.")
             = WriteOSError (result_path op)
           ∧ (λ _ : string, true) (result_path op) = false)
  ∨ (txt "3" ∈ [txt "2"; txt "3"; txt "4"]
     ∧ ClassError
         (ValueError "Matrices dimensions do not match for multiplication.")
       = ClassError
           (ValueError "Matrices dimensions do not match for multiplication.")
     ∧ ∃ matrix1 matrix2,
         load_matrix_file (disk sample_world) matrix1_path = Returns matrix1
         ∧ load_matrix_file (disk sample_world) matrix2_path
           = Returns matrix2
         ∧ num_cols matrix1 ≠ num_rows matrix2).
Proof.
  apply (main_raises [LF] (λ _, true) [txt "2"; txt "3"; txt "4"]
           sample_world).
  vm_compute. reflexivity.
Defined.

(** X18.  [main] returns exactly at the first line [4], leaving the later
    lines unread: a run that returns has read such a line, and a run
    whose two files load does return there when every result file
    selected before it can be written and, if a line [3] comes before it,
    the dimensions fit the multiplication.  No other line, and no
    dimension mismatch of an addition or a subtraction, stops it. *)
Theorem main_exit linesep writable inputs w :
  (∀ rest w', main linesep writable inputs w = (Returns rest, w') →
     ∃ pre, inputs = pre ++ txt "4" :: rest ∧ txt "4" ∉ pre)
  ∧ (∀ matrix1 matrix2 pre rest,
       load_matrix_file (disk w) matrix1_path = Returns matrix1 →
       load_matrix_file (disk w) matrix2_path = Returns matrix2 →
       inputs = pre ++ txt "4" :: rest → txt "4" ∉ pre →
       (∀ op, choice_of op ∈ pre → writable (result_path op) = true) →
       (txt "3" ∈ pre → num_cols matrix1 = num_rows matrix2) →
       ∃ w', main linesep writable inputs w = (Returns rest, w')).
Proof.
  split.
  - intros rest w' Hmain.
    apply main_evolves in Hmain
      as [[? _]|[[? _]|[(cause & ? & _)|
            (m1 & m2 & w0 & _ & _ & _ & Hloop & _)]]]; [done.. |].
    by eapply main_loop_Returns.
  - intros m1 m2 pre rest H1 H2 -> Hpre Hw Hmul.
    rewrite main_unfold, H1, H2. by apply main_loop_exits.
Qed.

Lemma main_exit_witness :
  ∃ w', main [LF] (λ p, negb (String.eqb p (result_path Multiply)))
          ([txt "1"; txt "add"; txt "2"] ++ txt "4" :: [txt "3"])
          sample_world
        = (Returns [txt "3"], w').
Proof.
  apply (proj2 (main_exit [LF] (λ p, negb (String.eqb p (result_path Multiply)))
                  ([txt "1"; txt "add"; txt "2"] ++ txt "4" :: [txt "3"])
                  sample_world)
           {| num_rows := 2; num_cols := 3;
              elements := [((0, 0), 1); ((1, 2), -4)] |}
           {| num_rows := 2; num_cols := 3;
              elements := [((0, 0), 5); ((1, 1), 7)] |}
           [txt "1"; txt "add"; txt "2"] [txt "3"]).
  - vm_compute. reflexivity.
  - vm_compute. reflexivity.
  - reflexivity.
  - refine (bool_decide_unpack _ _). vm_compute. exact I.
  - intros [] Hin; [reflexivity | reflexivity |].
    exfalso. revert Hin. refine (bool_decide_unpack _ _). vm_compute. exact I.
  - intros Hin.
    exfalso. revert Hin. refine (bool_decide_unpack _ _). vm_compute. exact I.
Defined.

(** X19.  When [main] returns, every operation that was selected before
    the line [4] and whose dimension check passes has left the text of its
    result, the one it printed, in its result file. *)
Theorem main_saves_selected_results
    linesep writable pre rest w res w' matrix1 matrix2 op R :
  load_matrix_file (disk w) matrix1_path = Returns matrix1 →
  load_matrix_file (disk w) matrix2_path = Returns matrix2 →
  main linesep writable (pre ++ txt "4" :: rest) w = (Returns res, w') →
  txt "4" ∉ pre → choice_of op ∈ pre →
  apply op matrix1 matrix2 = Ok R →
  disk w' (result_path op) = Some (write_text linesep (__str__ R))
  ∧ Print (txt (result_label op) ++ [LF] ++ txt " " ++ __str__ R)
    ∈ stdout w'.
Proof.
  intros H1 H2 Hmain Hpre Hin HR.
  rewrite main_unfold, H1, H2 in Hmain.
  by eapply main_loop_saves.
Qed.

Lemma main_saves_selected_results_witness :
  disk (main [LF] (λ _, true) ([txt "2"; txt "1"] ++ txt "4" :: [txt "3"])
          sample_world).2 (result_path Add)
  = Some (write_text [LF]
            (__str__ {| num_rows := 2; num_cols := 3;
                        elements := [((0, 0), 6); ((1, 2), -4);
                                     ((1, 1), 7)] |}))
  ∧ Print (txt (result_label Add) ++ [LF] ++ txt " "
           ++ __str__ {| num_rows := 2; num_cols := 3;
                         elements := [((0, 0), 6); ((1, 2), -4);
                                      ((1, 1), 7)] |})
    ∈ stdout (main [LF] (λ _, true)
                ([txt "2"; txt "1"] ++ txt "4" :: [txt "3"]) sample_world).2.
Proof.
  apply (main_saves_selected_results [LF] (λ _, true)
           [txt "2"; txt "1"] [txt "3"] sample_world
           [txt "3"]
           (main [LF] (λ _, true) ([txt "2"; txt "1"] ++ txt "4" :: [txt "3"])
              sample_world).2
           {| num_rows := 2; num_cols := 3;
              elements := [((0, 0), 1); ((1, 2), -4)] |}
           {| num_rows := 2; num_cols := 3;
              elements := [((0, 0), 5); ((1, 1), 7)] |}
           Add).
  - vm_compute. reflexivity.
  - vm_compute. reflexivity.
  - vm_compute. reflexivity.
  - refine (bool_decide_unpack _ _). vm_compute. exact I.
  - refine (bool_decide_unpack _ _). vm_compute. exact I.
  - vm_compute. reflexivity.
Defined.
